(** * Animal Dominion: the rules engine of [game.py]

    A shallow embedding of the turn controller, the action executor and the
    four end-of-turn resolvers, followed by the properties of the engine
    that its specification states.

    Conventions of the embedding.
    - Python [int] is [Z].  List positions and player indices are [nat]:
      the engine only ever stores [0] and [(i + 1) % len(players)] there.
    - [state.players[i]] raises [IndexError] out of range; the functions
      that index the player list return [option], [None] standing for the
      exception.
    - The card catalogue [CARD_INDEX] is imported from the [data] module
      and only ever read.  It is a parameter of the development, taken as
      a total table of records: a run in which a lookup raises [KeyError]
      is outside the model.  The engine reads the animal keys only on
      cards of animals and [cnPerTurn] only on cards of plants.
    - [AnimalInstance] objects are shared between [state.animals] and the
      local lists the resolvers build, and [hunger] is assigned through
      those aliases.  An instance therefore carries an object identity
      [obj], and the [hunger] attribute of every object lives in a store
      of the state, indexed by identity.  The other three attributes are
      never assigned after construction and travel with the reference.
    - Card attributes are integers.  The float expressions of the engine,
      [int(w / 10)], [int(0.20 * n)], [int(0.25 * n)],
      [math.floor(0.40 * c)] and [math.ceil(l / 2)], are taken at their
      exact rational value; on integers of ordinary size the
      double-precision results coincide with it. *)

From Stdlib Require Import ZArith Lia List Bool Sorted Permutation.
From stdpp Require Import base option list list_numbers strings pretty gmap.

Local Open Scope string_scope.
Local Open Scope Z_scope.

(** ** Data model *)

(** Modelled from the spec: the entries of the card catalogue of the [data]
    module, which the engine imports and reads.  A card is a dictionary;
    the record has the keys the engine reads from it, numbers being
    integers. *)
Record Card := mkCard {
  kind : string;
  card_name : string;
  type : string;
  level : Z;
  attack : Z;
  defense : Z;
  instinct : Z;
  mobility : Z;
  weightKg : Z;
  cnPerTurn : Z
}.

Record AnimalInstance := mkAnimal {
  obj : nat;            (* identity of the Python object *)
  instance_id : Z;
  card_id : string;
  owner : nat
}.

Record PlantInstance := mkPlant {
  plant_instance_id : Z;
  plant_card_id : string;
  plant_owner : nat
}.

Record PlayerState := mkPlayer {
  name : string;
  deck : list string;
  hand : list string;
  pending_control : bool
}.

Record BiomeState := mkBiome {
  biome_name : string;
  cn_base : Z;
  lmax : Z;
  cc : Z;
  cn_temp : Z;
  cn : Z
}.

Record GameState := mkState {
  players : list PlayerState;
  biome : BiomeState;
  animals : list AnimalInstance;
  hungers : nat -> Z;   (* the [hunger] attribute of each animal object *)
  plants : list PlantInstance;
  active_player_index : nat;
  actions_used : Z;
  next_instance_id : Z;
  log : list string;
  winner : option string
}.

(** [animal.hunger], read through the store. *)
Definition hunger (s : GameState) (a : AnimalInstance) : Z := hungers s (obj a).

(** *** Attribute assignment *)

Definition set_players (v : list PlayerState) (s : GameState) : GameState :=
  mkState v (biome s) (animals s) (hungers s) (plants s) (active_player_index s)
          (actions_used s) (next_instance_id s) (log s) (winner s).

Definition set_biome (v : BiomeState) (s : GameState) : GameState :=
  mkState (players s) v (animals s) (hungers s) (plants s) (active_player_index s)
          (actions_used s) (next_instance_id s) (log s) (winner s).

Definition set_animals (v : list AnimalInstance) (s : GameState) : GameState :=
  mkState (players s) (biome s) v (hungers s) (plants s) (active_player_index s)
          (actions_used s) (next_instance_id s) (log s) (winner s).

Definition set_hungers (v : nat -> Z) (s : GameState) : GameState :=
  mkState (players s) (biome s) (animals s) v (plants s) (active_player_index s)
          (actions_used s) (next_instance_id s) (log s) (winner s).

Definition set_plants (v : list PlantInstance) (s : GameState) : GameState :=
  mkState (players s) (biome s) (animals s) (hungers s) v (active_player_index s)
          (actions_used s) (next_instance_id s) (log s) (winner s).

Definition set_active_player_index (v : nat) (s : GameState) : GameState :=
  mkState (players s) (biome s) (animals s) (hungers s) (plants s) v
          (actions_used s) (next_instance_id s) (log s) (winner s).

Definition set_actions_used (v : Z) (s : GameState) : GameState :=
  mkState (players s) (biome s) (animals s) (hungers s) (plants s) (active_player_index s)
          v (next_instance_id s) (log s) (winner s).

Definition set_next_instance_id (v : Z) (s : GameState) : GameState :=
  mkState (players s) (biome s) (animals s) (hungers s) (plants s) (active_player_index s)
          (actions_used s) v (log s) (winner s).

Definition set_winner (v : option string) (s : GameState) : GameState :=
  mkState (players s) (biome s) (animals s) (hungers s) (plants s) (active_player_index s)
          (actions_used s) (next_instance_id s) (log s) v.

(** [GameState.add_log]. *)
Definition add_log (s : GameState) (message : string) : GameState :=
  mkState (players s) (biome s) (animals s) (hungers s) (plants s) (active_player_index s)
          (actions_used s) (next_instance_id s) (log s ++ [message]) (winner s).

Definition set_cc (v : Z) (b : BiomeState) : BiomeState :=
  mkBiome (biome_name b) (cn_base b) (lmax b) v (cn_temp b) (cn b).

Definition set_cn_temp (v : Z) (b : BiomeState) : BiomeState :=
  mkBiome (biome_name b) (cn_base b) (lmax b) (cc b) v (cn b).

Definition set_cn (v : Z) (b : BiomeState) : BiomeState :=
  mkBiome (biome_name b) (cn_base b) (lmax b) (cc b) (cn_temp b) v.

Definition set_hand_deck (h d : list string) (p : PlayerState) : PlayerState :=
  mkPlayer (name p) d h (pending_control p).

Definition set_pending_control (v : bool) (p : PlayerState) : PlayerState :=
  mkPlayer (name p) (deck p) (hand p) v.

(** [a.hunger = v] for the object [o]. *)
Definition store_set (h : nat -> Z) (o : nat) (v : Z) : nat -> Z :=
  fun o' => if Nat.eqb o' o then v else h o'.

(** [for animal in l: animal.hunger = 0]. *)
Definition reset_all (l : list AnimalInstance) (h : nat -> Z) : nat -> Z :=
  fold_left (fun h a => store_set h (obj a) 0) l h.

(** [for animal in l: animal.hunger += 1]. *)
Definition bump_all (l : list AnimalInstance) (h : nat -> Z) : nat -> Z :=
  fold_left (fun h a => store_set h (obj a) (h (obj a) + 1)) l h.

(** *** Python helpers *)

(** Truth value of an [Optional[str]]: [None] and the empty string are false. *)
Definition truthy (o : option string) : bool :=
  match o with
  | Some w => negb (String.eqb w "")
  | None => false
  end.

(** [x in l] on a list of strings. *)
Definition str_in (x : string) (l : list string) : bool :=
  existsb (String.eqb x) l.

(** [l.remove(x)]: the first occurrence goes. *)
Fixpoint list_remove (x : string) (l : list string) : list string :=
  match l with
  | [] => []
  | y :: l' => if String.eqb y x then l' else y :: list_remove x l'
  end.

(** [sum(...)] of integers. *)
Definition sum_Z (l : list Z) : Z := fold_right Z.add 0 l.

(** [math.ceil(l / 2)]. *)
Definition ceil_half (l : Z) : Z := - ((- l) / 2).

(** [int(p/100 * n)]: truncation toward zero. *)
Definition trunc_pct (p n : Z) : Z := Z.quot (p * n) 100.

(** [math.floor(p/100 * n)]. *)
Definition floor_pct (p n : Z) : Z := (p * n) / 100.

(** [t in {"Herbivore", "Omnivore"}] and [t in {"Carnivore", "Omnivore"}]. *)
Definition herb_or_omni (t : string) : bool :=
  String.eqb t "Herbivore" || String.eqb t "Omnivore".

Definition carn_or_omni (t : string) : bool :=
  String.eqb t "Carnivore" || String.eqb t "Omnivore".

(** [sorted(l, key=..., reverse=True)]: descending and stable, so that of
    two elements with the same key the one met first stays first. *)
Fixpoint insert_desc {A} (key : A -> Z) (x : A) (l : list A) : list A :=
  match l with
  | [] => [x]
  | y :: l' => if key x <? key y then y :: insert_desc key x l' else x :: y :: l'
  end.

Definition sorted_desc {A} (key : A -> Z) (l : list A) : list A :=
  fold_right (insert_desc key) [] l.

(** The identity of a newly constructed animal object: distinct from every
    object on the table. *)
Definition fresh_obj (l : list AnimalInstance) : nat :=
  S (fold_right Nat.max 0%nat (map obj l)).

(** ** Observations on states *)

(** Two states that differ at most by their log. *)
Definition same_game (s s' : GameState) : Prop :=
  players s' = players s /\ biome s' = biome s /\ animals s' = animals s
  /\ hungers s' = hungers s /\ plants s' = plants s
  /\ active_player_index s' = active_player_index s
  /\ actions_used s' = actions_used s /\ next_instance_id s' = next_instance_id s
  /\ winner s' = winner s.

(** The [pending_control] flag of the player at position [i], if any. *)
Definition pending_at (s : GameState) (i : nat) : option bool :=
  pending_control <$> players s !! i.

(** The part of the state that hunting, feeding and starvation never
    assign; the table can only lose animals. *)
Definition frame (s s' : GameState) : Prop :=
  players s' = players s /\ plants s' = plants s
  /\ active_player_index s' = active_player_index s
  /\ actions_used s' = actions_used s /\ next_instance_id s' = next_instance_id s
  /\ winner s' = winner s
  /\ cn_base (biome s') = cn_base (biome s) /\ lmax (biome s') = lmax (biome s)
  /\ cn_temp (biome s') = cn_temp (biome s)
  /\ exists keep, animals s' = List.filter keep (animals s).

(** Feeding: the frame, the table and [cc] untouched, and [cn] never
    taken below zero. *)
Definition feeding_step (s s' : GameState) : Prop :=
  frame s s' /\ animals s' = animals s /\ cc (biome s') = cc (biome s)
  /\ (0 <= cn (biome s) -> 0 <= cn (biome s')).

(** The animals on the table are distinct objects with distinct instance
    ids, all below [next_instance_id]. *)
Definition distinct_table (s : GameState) : Prop :=
  List.NoDup (map obj (animals s)) /\ List.NoDup (map instance_id (animals s))
  /\ forall a, In a (animals s) -> instance_id a < next_instance_id s.

(** The log of [s'] is the log of [s] with lines added at its end. *)
Definition log_grows (s s' : GameState) : Prop :=
  exists lines, log s' = (log s ++ lines)%list.

(** The instance ids in use: those of the animals and of the plants. *)
Definition ids_on_table (s : GameState) : list Z :=
  (map instance_id (animals s) ++ map plant_instance_id (plants s))%list.

(** [w] is the heaviest of [l], and the first of the heaviest. *)
Definition first_heaviest {A} (key : A -> Z) (w : A) (l : list A) : Prop :=
  exists l1 l2, l = (l1 ++ w :: l2)%list
    /\ (forall a, In a l1 -> key a < key w)
    /\ (forall a, In a l2 -> key a <= key w).

(** ** The engine *)

Section Engine.

(** [data.CARD_INDEX]. *)
Variable CARD_INDEX : string -> Card.

Definition card_of (a : AnimalInstance) : Card := CARD_INDEX (card_id a).

(** *** Control checker *)

Definition check_control (s : GameState) (player_index : nat) : bool :=
  forallb
    (fun lv =>
       existsb
         (fun animal => (level (card_of animal) =? lv) && Nat.eqb (owner animal) player_index)
         (animals s))
    (seqZ 1 (lmax (biome s))).

(** *** Turn start *)

(** The loop of [draw_to_hand]: [hand.append(deck.pop(0))] while the hand
    is short and the deck is not empty. *)
Fixpoint draw_cards (target_size : Z) (hand deck : list string) : list string * list string :=
  match deck with
  | [] => (hand, [])
  | c :: deck' =>
      if Z.of_nat (length hand) <? target_size
      then draw_cards target_size (hand ++ [c]) deck'
      else (hand, deck)
  end.

(** The number of cards that [draw_to_hand] moves. *)
Definition drawn (target_size : Z) (hand deck : list string) : nat :=
  Z.to_nat (Z.min (Z.max 0 (target_size - Z.of_nat (length hand)))
                  (Z.of_nat (length deck))).

(** [player] is the object at [state.players[i]]. *)
Definition draw_to_hand (s : GameState) (i : nat) (player : PlayerState)
    (target_size : Z) : GameState :=
  let '(hand', deck') := draw_cards target_size (hand player) (deck player) in
  let s := set_players (<[i := set_hand_deck hand' deck' player]> (players s)) s in
  add_log s (name player +:+ " roba hasta " +:+ pretty (length hand') +:+ " cartas en mano.").

(** The state in which [start_turn] leaves a game it declares won. *)
Definition declare_winner (s : GameState) (player : PlayerState) : GameState :=
  add_log (set_winner (Some (name player)) s)
          (name player +:+ " mantiene el control completo y gana la partida.").

(** The rest of [start_turn], when the game goes on. *)
Definition begin_turn (s : GameState) (player : PlayerState) : GameState :=
  let s := set_actions_used 0 s in
  let b := biome s in
  let cn' := cn_base b + cn_temp b
             + sum_Z (map (fun p => cnPerTurn (CARD_INDEX (plant_card_id p))) (plants s)) in
  let s := set_biome (set_cn cn' b) s in
  let s := set_biome (set_cn_temp 0 (biome s)) s in
  let s := add_log s ("Inicio de turno de " +:+ name player +:+ ". CN actual: "
                      +:+ pretty (cn (biome s)) +:+ " (base "
                      +:+ pretty (cn_base (biome s)) +:+ ").") in
  draw_to_hand s (active_player_index s) player 8.

Definition start_turn (s : GameState) : option GameState :=
  player ← players s !! active_player_index s;
  if pending_control player && check_control s (active_player_index s) then
    Some (declare_winner s player)
  else
    Some (begin_turn s player).

(** [start_game], with the two shuffled decks as arguments. *)
Definition start_game (deck1 deck2 : list string) : option GameState :=
  let players := [mkPlayer "Jugador 1" deck1 [] false; mkPlayer "Jugador 2" deck2 [] false] in
  let biome := mkBiome "Bosque" 4 6 0 0 0 in
  let s := mkState players biome [] (fun _ => 0) [] 0%nat 0 1 [] None in
  let s := add_log s "Juego iniciado en el bioma Bosque." in
  start_turn s.

(** *** Action executor *)

Definition find_viable_prey (s : GameState) (predator_level : Z) : list AnimalInstance :=
  let threshold := ceil_half predator_level in
  List.filter
    (fun animal =>
       let card := card_of animal in
       herb_or_omni (type card) && (level card >=? threshold))
    (animals s).

Definition can_play_animal (s : GameState) (card : Card) : bool * GameState :=
  let biome_cn := cn (biome s) in
  let animal_type := type card in
  let lv := level card in
  let has_prey := negb (Nat.eqb (length (find_viable_prey s lv)) 0) in
  if String.eqb animal_type "Herbivore" then
    if biome_cn >=? lv then (true, s)
    else (false, add_log s "No hay CN suficiente para desplegar herbívoro.")
  else if String.eqb animal_type "Carnivore" then
    if has_prey then (true, s)
    else (false, add_log s "No hay presas viables para desplegar carnívoro.")
  else if String.eqb animal_type "Omnivore" then
    if (biome_cn >=? lv) || has_prey then (true, s)
    else (false, add_log s "Omnívoro requiere CN suficiente o presa viable.")
  else (false, add_log s "Tipo de animal inválido.").

(** [player.hand.remove(card_id)] on the active player. *)
Definition discard (i : nat) (player : PlayerState) (cid : string) (s : GameState) : GameState :=
  set_players
    (<[i := set_hand_deck (list_remove cid (hand player)) (deck player) player]> (players s)) s.

Definition play_card (s : GameState) (cid : string) : option (bool * GameState) :=
  if truthy (winner s) then
    Some (false, add_log s "La partida ya terminó.")
  else
    player ← players s !! active_player_index s;
    if negb (str_in cid (hand player)) then
      Some (false, add_log s "Esa carta no está en la mano.")
    else if actions_used s >=? 3 then
      Some (false, add_log s "Ya usaste las 3 acciones del turno.")
    else
      let card := CARD_INDEX cid in
      if String.eqb (kind card) "plant" then
        let plant := mkPlant (next_instance_id s) cid (active_player_index s) in
        let s := set_next_instance_id (next_instance_id s + 1) s in
        let s := set_plants (plants s ++ [plant]) s in
        let s := discard (active_player_index s) player cid s in
        let s := set_actions_used (actions_used s + 1) s in
        Some (true, add_log s (name player +:+ " juega planta " +:+ card_name card +:+ "."))
      else if String.eqb (kind card) "animal" then
        let '(ok, s) := can_play_animal s card in
        if negb ok then Some (false, s)
        else
          let animal := mkAnimal (fresh_obj (animals s)) (next_instance_id s) cid
                                 (active_player_index s) in
          let s := set_hungers (store_set (hungers s) (obj animal) 0) s in
          let s := set_next_instance_id (next_instance_id s + 1) s in
          let s := set_animals (animals s ++ [animal]) s in
          let s := discard (active_player_index s) player cid s in
          let s := set_actions_used (actions_used s + 1) s in
          Some (true, add_log s (name player +:+ " juega animal " +:+ card_name card
                                 +:+ " (nivel " +:+ pretty (level card) +:+ ")."))
      else
        Some (false, add_log s "Tipo de carta desconocido.").

(** *** Hunting resolver *)

Definition is_viable_prey (predator_level : Z) (prey : AnimalInstance) : bool :=
  let threshold := ceil_half predator_level in
  let prey_card := card_of prey in
  herb_or_omni (type prey_card) && (level prey_card >=? threshold).

Definition weight_scaled (c : Card) : Z := Z.min 100 (Z.quot (weightKg c) 10).

Definition attack_score (predator_card : Card) : Z :=
  attack predator_card + trunc_pct 20 (weight_scaled predator_card).

Definition defense_score (prey_card : Card) : Z :=
  defense prey_card + trunc_pct 25 (weight_scaled prey_card).

(** The combat of [resolve_single_hunt], once the prey has not escaped. *)
Definition combat (s : GameState) (predator prey : AnimalInstance) : bool * GameState :=
  let predator_card := card_of predator in
  let prey_card := card_of prey in
  if attack_score predator_card >=? defense_score prey_card then
    let s := add_log s (card_name predator_card +:+ " elimina a " +:+ card_name prey_card +:+ ".") in
    let s := set_animals
               (List.filter (fun a => negb (instance_id a =? instance_id prey)) (animals s)) s in
    let s := set_biome (set_cc (cc (biome s) + level prey_card) (biome s)) s in
    let s :=
      if level prey_card =? level predator_card
      then set_hungers (store_set (hungers s) (obj predator) 0) s
      else set_hungers (store_set (hungers s) (obj predator)
                                  (Z.max (hunger s predator - 1) 0)) s in
    (true, s)
  else
    (false, add_log s (card_name prey_card +:+ " resiste el combate contra "
                       +:+ card_name predator_card +:+ ".")).

Definition resolve_single_hunt (s : GameState) (predator prey : AnimalInstance)
    : bool * GameState :=
  let predator_card := card_of predator in
  let prey_card := card_of prey in
  if instinct predator_card >=? instinct prey_card then
    combat (add_log s ("Instinto favorece a " +:+ card_name predator_card
                       +:+ ". Combate directo."))
           predator prey
  else if mobility predator_card <? mobility prey_card then
    (false, add_log s (card_name prey_card +:+ " escapa por movilidad superior."))
  else
    combat (add_log s (card_name predator_card +:+ " alcanza a " +:+ card_name prey_card
                       +:+ " en movilidad."))
           predator prey.

(** One iteration of [for predator in predators] in [resolve_hunting]. *)
Definition hunt_step (hunting_choices : gmap Z Z) (acc : gset Z * GameState)
    (predator : AnimalInstance) : gset Z * GameState :=
  let '(fed_predators, s) := acc in
  let predator_card := card_of predator in
  let no_target := (fed_predators,
                    add_log s (card_name predator_card +:+ " no tiene objetivo de caza.")) in
  match hunting_choices !! instance_id predator with
  | None => no_target
  | Some prey_id =>
      if prey_id =? 0 then no_target
      else
        match List.find (fun a => instance_id a =? prey_id) (animals s) with
        | None =>
            (fed_predators,
             add_log s ("Objetivo inválido para " +:+ card_name predator_card +:+ "."))
        | Some prey =>
            if negb (is_viable_prey (level predator_card) prey) then
              (fed_predators,
               add_log s (card_name predator_card +:+ " no puede cazar esa presa."))
            else
              let '(ok, s) := resolve_single_hunt s predator prey in
              if ok then (fed_predators ∪ {[instance_id predator]}, s)
              else (fed_predators, s)
        end
  end.

(** The candidate list of [resolve_hunting]. *)
Definition hungry_predators (s : GameState) : list AnimalInstance :=
  List.filter
    (fun animal => carn_or_omni (type (card_of animal)) && (hunger s animal >=? 1))
    (animals s).

Definition resolve_hunting (s : GameState) (hunting_choices : gmap Z Z)
    : gset Z * GameState :=
  let predators := hungry_predators s in
  match predators with
  | [] => (∅, add_log s "No hay depredadores con hambre para cazar.")
  | _ =>
      fold_left (hunt_step hunting_choices) predators
                (∅, add_log s "Fase de caza iniciada.")
  end.

(** *** Feeding resolver *)

Definition level_animals (s : GameState) (lv : Z) : list AnimalInstance :=
  List.filter
    (fun animal => herb_or_omni (type (card_of animal)) && (level (card_of animal) =? lv))
    (animals s).

(** The last branch of the level loop: nobody eats. *)
Definition starve_level (s : GameState) (group : list AnimalInstance) : GameState :=
  add_log (set_hungers (bump_all group (hungers s)) s)
          "No hay CN suficiente para duelo: todos aumentan hambre.".

(** The duel branch, [winner] and [loser] being the first two duel candidates. *)
Definition duel (s : GameState) (lv : Z) (group : list AnimalInstance)
    (winner loser : AnimalInstance) : GameState :=
  let s := set_biome (set_cn (cn (biome s) - lv) (biome s)) s in
  let s := set_hungers (store_set (hungers s) (obj winner) 0) s in
  let s := set_hungers (store_set (hungers s) (obj loser) (hunger s loser + 1)) s in
  let s := add_log s ("Duelo ecológico: gana " +:+ card_name (card_of winner)
                      +:+ " y come. Pierde " +:+ card_name (card_of loser) +:+ ".") in
  let others :=
    List.filter
      (fun animal => negb ((instance_id animal =? instance_id winner)
                           || (instance_id animal =? instance_id loser)))
      group in
  set_hungers (bump_all others (hungers s)) s.

(** The body of [for level in range(1, biome.lmax + 1)]. *)
Definition feed_level (s : GameState) (lv : Z) : GameState :=
  let group := level_animals s lv in
  match group with
  | [] => s
  | _ =>
      let total_needed := lv * Z.of_nat (length group) in
      if cn (biome s) >=? total_needed then
        let s := set_biome (set_cn (cn (biome s) - total_needed) (biome s)) s in
        let s := set_hungers (reset_all group (hungers s)) s in
        add_log s ("Nivel " +:+ pretty lv +:+ ": todos comen. CN restante "
                   +:+ pretty (cn (biome s)) +:+ ".")
      else
        let s := add_log s ("Nivel " +:+ pretty lv +:+ ": CN insuficiente ("
                            +:+ pretty (cn (biome s)) +:+ " disponible) para "
                            +:+ pretty (length group) +:+ ".") in
        let duel_candidates := sorted_desc (fun a => weightKg (card_of a)) group in
        match duel_candidates with
        | winner :: loser :: _ =>
            if cn (biome s) >=? lv then duel s lv group winner loser
            else starve_level s group
        | _ => starve_level s group
        end
  end.

(** The level loop of [resolve_feeding]. *)
Definition feed_levels (s : GameState) : GameState :=
  fold_left feed_level (seqZ 1 (lmax (biome s))) s.

Definition unfed_carnivores (s : GameState) (fed_predators : gset Z) : list AnimalInstance :=
  List.filter
    (fun animal => String.eqb (type (card_of animal)) "Carnivore"
                   && negb (bool_decide (instance_id animal ∈ fed_predators)))
    (animals s).

(** What follows the level loop. *)
Definition starve_carnivores (s : GameState) (fed_predators : gset Z) : GameState :=
  match unfed_carnivores s fed_predators with
  | [] => s
  | unfed =>
      add_log (set_hungers (bump_all unfed (hungers s)) s)
              "Carnívoros sin presa aumentan hambre."
  end.

Definition resolve_feeding (s : GameState) (fed_predators : gset Z) : GameState :=
  let s := add_log s "Fase de alimentación de CN." in
  starve_carnivores (feed_levels s) fed_predators.

(** *** Starvation and conversion *)

(** [a == d] on two animal objects: the same object, or the dataclass
    equality on the four fields. *)
Definition animal_eq (s : GameState) (a d : AnimalInstance) : bool :=
  Nat.eqb (obj a) (obj d)
  || ((instance_id a =? instance_id d) && String.eqb (card_id a) (card_id d)
      && Nat.eqb (owner a) (owner d) && (hunger s a =? hunger s d)).

Definition bury (s : GameState) (animal : AnimalInstance) : GameState :=
  let card := card_of animal in
  let s := set_biome (set_cc (cc (biome s) + level card) (biome s)) s in
  add_log s (card_name card +:+ " muere por hambre.").

Definition resolve_starvation (s : GameState) : GameState :=
  let dead := List.filter (fun animal => hunger s animal >=? 2) (animals s) in
  match dead with
  | [] => add_log s "No hay muertes por hambre."
  | _ =>
      let s := fold_left bury dead s in
      set_animals
        (List.filter (fun a => negb (existsb (animal_eq s a) dead)) (animals s)) s
  end.

Definition resolve_conversion (s : GameState) : GameState :=
  let s := set_biome (set_cn_temp (floor_pct 40 (cc (biome s))) (biome s)) s in
  let s := add_log s ("Conversión: CN_temp pasa a " +:+ pretty (cn_temp (biome s)) +:+ ".") in
  set_biome (set_cc 0 (biome s)) s.

(** *** End of turn *)

Definition mark_control (s : GameState) (i : nat) (active_player : PlayerState) : GameState :=
  if check_control s i then
    add_log (set_players (<[i := set_pending_control true active_player]> (players s)) s)
            (name active_player +:+ " logra amenaza de control.")
  else
    set_players (<[i := set_pending_control false active_player]> (players s)) s.

(** What [end_turn] does before it hands the state to [start_turn]. *)
Definition turn_resolution (s : GameState) (hunting_choices : gmap Z Z)
    : option GameState :=
  let '(fed_predators, s) := resolve_hunting s hunting_choices in
  let s := resolve_feeding s fed_predators in
  let s := resolve_starvation s in
  let s := resolve_conversion s in
  active_player ← players s !! active_player_index s;
  let s := mark_control s (active_player_index s) active_player in
  Some (set_active_player_index
          ((active_player_index s + 1) `mod` length (players s))%nat s).

Definition end_turn (s : GameState) (hunting_choices : option (gmap Z Z))
    : option GameState :=
  if truthy (winner s) then Some s
  else
    let hunting_choices := default ∅ hunting_choices in
    s ← turn_resolution s hunting_choices;
    start_turn s.

(** *** Reachable states

    A state is reachable when a sequence of calls of the entry points
    produces it from a new game. *)
Inductive reachable : GameState -> Prop :=
| reach_start deck1 deck2 s :
    start_game deck1 deck2 = Some s -> reachable s
| reach_play s cid r s' :
    reachable s -> play_card s cid = Some (r, s') -> reachable s'
| reach_end s hc s' :
    reachable s -> end_turn s hc = Some s' -> reachable s'.

(** *** Vocabulary of the properties *)

(** Some animal on the table is viable prey for a predator of level [lv]:
    its card is a Herbivore or an Omnivore of level at least [ceil(lv / 2)].
    The owner plays no part. *)
Definition viable_prey_on_table (s : GameState) (lv : Z) : Prop :=
  exists a, In a (animals s)
    /\ (type (card_of a) = "Herbivore" \/ type (card_of a) = "Omnivore")
    /\ ceil_half lv <= level (card_of a).

(** The prey escapes: the predator's instinct is lower and its mobility is
    lower too. *)
Definition evaded (predator prey : AnimalInstance) : Prop :=
  instinct (card_of predator) < instinct (card_of prey)
  /\ mobility (card_of predator) < mobility (card_of prey).

(** What a successful hunt changes, from [s] to [s']. *)
Definition kill_effect (s s' : GameState) (predator prey : AnimalInstance) : Prop :=
  animals s' = List.filter (fun a => negb (instance_id a =? instance_id prey)) (animals s)
  /\ cc (biome s') = cc (biome s) + level (card_of prey)
  /\ hunger s' predator =
       (if level (card_of prey) =? level (card_of predator) then 0
        else Z.max (hunger s predator - 1) 0)
  /\ (forall o, o <> obj predator -> hungers s' o = hungers s o)
  /\ cn (biome s') = cn (biome s) /\ cn_temp (biome s') = cn_temp (biome s)
  /\ cn_base (biome s') = cn_base (biome s) /\ lmax (biome s') = lmax (biome s)
  /\ players s' = players s /\ plants s' = plants s
  /\ active_player_index s' = active_player_index s
  /\ actions_used s' = actions_used s /\ next_instance_id s' = next_instance_id s
  /\ winner s' = winner s.

(** Every animal on the table has a card of non-negative level. *)
Definition levels_nonneg (s : GameState) : Prop :=
  forall a, In a (animals s) -> 0 <= level (card_of a).

(** Hunting and starvation: the frame, [cn] untouched, [cc] only grows. *)
Definition carrion_step (s s' : GameState) : Prop :=
  frame s s' /\ cn (biome s') = cn (biome s)
  /\ (levels_nonneg s -> cc (biome s) <= cc (biome s')).

(** Only plant cards lie among the plants, only animal cards among the
    animals. *)
Definition table_kinds (s : GameState) : Prop :=
  (forall p, In p (plants s) -> kind (CARD_INDEX (plant_card_id p)) = "plant")
  /\ (forall a, In a (animals s) -> kind (card_of a) = "animal").

Definition food_invariant (s : GameState) : Prop :=
  table_kinds s /\ 0 <= cn (biome s) /\ 0 <= cn_temp (biome s)
  /\ 0 <= cc (biome s) /\ 0 <= cn_base (biome s).

(** What one pass of the loop body does at level [lv]. *)
Definition level_outcome (s s' : GameState) (lv : Z) : Prop :=
  let group := level_animals s lv in
  let count := Z.of_nat (length group) in
  let weight := fun a => weightKg (card_of a) in
  animals s' = animals s
  /\ (forall o, (forall a, In a group -> obj a <> o) -> hungers s' o = hungers s o)
  /\ (group = [] -> s' = s)
  /\ (group <> [] -> lv * count <= cn (biome s) ->
      cn (biome s') = cn (biome s) - lv * count
      /\ forall a, In a group -> hunger s' a = 0)
  /\ (cn (biome s) < lv * count -> 2 <= count -> lv <= cn (biome s) ->
      exists w, first_heaviest weight w group
        /\ cn (biome s') = cn (biome s) - lv
        /\ hunger s' w = 0
        /\ forall a, In a group -> a <> w -> hunger s' a = hunger s a + 1)
  /\ (group <> [] -> cn (biome s) < lv * count -> count < 2 \/ cn (biome s) < lv ->
      cn (biome s') = cn (biome s)
      /\ forall a, In a group -> hunger s' a = hunger s a + 1).

(** The table of [s] with the strict carnivores taken away. *)
Definition without_carnivores (s : GameState) : GameState :=
  set_animals
    (List.filter (fun a => negb (String.eqb (type (card_of a)) "Carnivore")) (animals s)) s.

(** The biome that the loop body leaves, as a function of the biome it
    finds and of the herbivores and omnivores of the level. *)
Definition feed_level_biome (b : BiomeState) (group : list AnimalInstance) (lv : Z)
    : BiomeState :=
  match group with
  | [] => b
  | _ =>
      if cn b >=? lv * Z.of_nat (length group)
      then set_cn (cn b - lv * Z.of_nat (length group)) b
      else
        match sorted_desc (fun a => weightKg (card_of a)) group with
        | _ :: _ :: _ => if cn b >=? lv then set_cn (cn b - lv) b else b
        | _ => b
        end
  end.

(** *** Read-only projections *)

(** One iteration of the loop of [get_display_animals_by_level]:
    [grouped[level].append(animal)], a [KeyError] when [level] is not a key
    of the dictionary. *)
Definition display_step (grouped : option (gmap Z (list AnimalInstance)))
    (animal : AnimalInstance) : option (gmap Z (list AnimalInstance)) :=
  g ← grouped;
  let lv := level (card_of animal) in
  group ← g !! lv;
  Some (<[lv := (group ++ [animal])%list]> g).

(** [get_display_animals_by_level]; [None] stands for the [KeyError]. *)
Definition get_display_animals_by_level (s : GameState)
    : option (gmap Z (list AnimalInstance)) :=
  let grouped : gmap Z (list AnimalInstance) :=
    list_to_map ((fun lv => (lv, [])) <$> seqZ 1 (lmax (biome s))) in
  fold_left display_step (animals s) (Some grouped).

(** The line that [_get_prey_options] of [main.py] builds for one animal;
    [None] stands for the [IndexError] of [players[animal.owner]]. *)
Definition prey_option (s : GameState) (animal : AnimalInstance) : option string :=
  let card := card_of animal in
  owner ← players s !! owner animal;
  Some (card_name card +:+ " (N" +:+ pretty (level card) +:+ ") - " +:+ name owner
        +:+ " #" +:+ pretty (instance_id animal)).

(** [AnimalDominionUI._get_prey_options] of [main.py], on the state the
    window holds. *)
Definition get_prey_options (s : GameState) (predator_level : Z) : option (list string) :=
  let threshold := (predator_level + 1) / 2 in
  options ← mapM (prey_option s)
            (List.filter
               (fun animal =>
                  let card := card_of animal in
                  herb_or_omni (type card) && (level card >=? threshold))
               (animals s));
  Some ("(Omitir)" :: options).

(** *** Quantities of the table *)

(** The sum of the levels of the animals on the table. *)
Definition total_level (l : list AnimalInstance) : Z :=
  sum_Z (map (fun a => level (card_of a)) l).

(** The food the plants on the table generate each turn. *)
Definition plant_food (s : GameState) : Z :=
  sum_Z (map (fun p => cnPerTurn (CARD_INDEX (plant_card_id p))) (plants s)).

(** [cc] plus the levels on the table, kept from [s] to [s'] together with
    the distinctness of the instance ids. *)
Definition conserves (s s' : GameState) : Prop :=
  List.NoDup (map instance_id (animals s)) ->
  List.NoDup (map instance_id (animals s'))
  /\ cc (biome s') + total_level (animals s') = cc (biome s) + total_level (animals s).

(** *** Invariants of a game *)

(** The two seats of [start_game], and an active seat that is one of them. *)
Definition seated (s : GameState) : Prop :=
  map name (players s) = ["Jugador 1"; "Jugador 2"]
  /\ (active_player_index s < 2)%nat.

(** The biome of [start_game], with no carrion left lying. *)
Definition forest (b : BiomeState) : Prop :=
  cn_base b = 4 /\ lmax b = 6 /\ cc b = 0.

(** No hunger attribute is negative. *)
Definition store_nonneg (h : nat -> Z) : Prop := forall o, 0 <= h o.

(** Every hand holds at most eight cards. *)
Definition hands_within (l : list PlayerState) : Prop :=
  Forall (fun p => (length (hand p) <= 8)%nat) l.

(** The conditions under which [play_card] lays the card [cid]: the game
    is on, the card is in the active player's hand, an action is left, and
    the card is a plant or an animal that [can_play_animal] accepts. *)
Definition playable (s : GameState) (cid : string) : Prop :=
  truthy (winner s) = false
  /\ (exists player,
        players s !! active_player_index s = Some player /\ In cid (hand player))
  /\ actions_used s < 3
  /\ (kind (CARD_INDEX cid) = "plant"
      \/ (kind (CARD_INDEX cid) = "animal"
          /\ fst (can_play_animal s (CARD_INDEX cid)) = true)).

(** The instance that [play_card] creates for an animal card. *)
Definition new_animal (s : GameState) (cid : string) : AnimalInstance :=
  mkAnimal (fresh_obj (animals s)) (next_instance_id s) cid (active_player_index s).

(** The instance that [play_card] creates for a plant card. *)
Definition new_plant (s : GameState) (cid : string) : PlantInstance :=
  mkPlant (next_instance_id s) cid (active_player_index s).

(** A call of an entry point, and the run of a sequence of calls. *)
Inductive call :=
| Play (cid : string)
| EndTurn (hunting_choices : option (gmap Z Z)).

Definition run_call (s : GameState) (c : call) : option GameState :=
  match c with
  | Play cid => snd <$> play_card s cid
  | EndTurn hc => end_turn s hc
  end.

Fixpoint run (calls : list call) (s : GameState) : option GameState :=
  match calls with
  | [] => Some s
  | c :: calls' => s' ← run_call s c; run calls' s'
  end.

End Engine.

(** ** A sample catalogue

    A small catalogue in the format of [data.py], used to run the engine
    on concrete games. *)

Definition catalogue_of (table : list (string * Card)) (cid : string) : Card :=
  match List.find (fun e => String.eqb (fst e) cid) table with
  | Some e => snd e
  | None => mkCard "" "" "" 0 0 0 0 0 0 0
  end.

Definition sample_table : list (string * Card) :=
  [ ("helecho",  mkCard "plant"  "Helecho"  ""          0  0  0 0 0    0 2);
    ("roble",    mkCard "plant"  "Roble"    ""          0  0  0 0 0    0 3);
    ("raton",    mkCard "animal" "Ratón"    "Herbivore" 1  2  3 6 8    1 0);
    ("conejo",   mkCard "animal" "Conejo"   "Herbivore" 2  4  6 4 9    3 0);
    ("ciervo",   mkCard "animal" "Ciervo"   "Herbivore" 3 20 40 5 7  300 0);
    ("alce",     mkCard "animal" "Alce"     "Herbivore" 3 25 45 4 5  500 0);
    ("jabali",   mkCard "animal" "Jabalí"   "Omnivore"  4 35 30 5 5  150 0);
    ("lobo",     mkCard "animal" "Lobo"     "Carnivore" 4 40 25 7 8   50 0);
    ("oso",      mkCard "animal" "Oso"      "Omnivore"  5 50 45 6 4  800 0);
    ("bisonte",  mkCard "animal" "Bisonte"  "Herbivore" 6 30 60 3 4  900 0) ].

Definition sample_catalogue : string -> Card := catalogue_of sample_table.

(** A game on the sample catalogue.  Player 1 lays six oaks and then the
    animals of levels 1 to 6; player 2 lays six oaks, a rabbit, and two
    more oaks in the eighth turn. *)
Definition sample_deck1 : list string :=
  ["roble"; "roble"; "roble"; "roble"; "roble"; "roble";
   "raton"; "conejo"; "ciervo"; "lobo"; "oso"; "bisonte"].

Definition sample_deck2 : list string :=
  ["roble"; "roble"; "roble"; "roble"; "roble"; "roble"; "roble"; "roble"; "conejo"].

Definition sample_calls : list call :=
  [ Play "roble"; Play "roble"; Play "roble"; EndTurn None;
    Play "roble"; Play "roble"; Play "roble"; EndTurn None;
    Play "roble"; Play "roble"; Play "roble"; EndTurn None;
    Play "roble"; Play "roble"; Play "roble"; EndTurn None;
    Play "raton"; Play "conejo"; Play "ciervo"; EndTurn None;
    Play "conejo"; EndTurn None;
    Play "lobo"; Play "oso"; Play "bisonte"; EndTurn None;
    Play "roble"; Play "roble" ].

(** The state of the sample game in the eighth turn, before it ends. *)
Definition sample_turn8 : option GameState :=
  s ← start_game sample_catalogue sample_deck1 sample_deck2;
  run sample_catalogue sample_calls s.

(** The same game, ended by player 2 with the wolf sent after player 2's
    own rabbit (instance 16), or after player 1's rabbit (instance 14):
    the state handed to [start_turn] in either case. *)
Definition sample_confirming : option GameState :=
  s ← sample_turn8; turn_resolution sample_catalogue s {[17 := 16]}.

Definition sample_broken : option GameState :=
  s ← sample_turn8; turn_resolution sample_catalogue s {[17 := 14]}.

(** A second game: player 1 lays a deer, a bear and a boar, which leaves
    the two omnivores hungry after the first feeding; player 2 lays a
    rabbit. *)
Definition hunt_calls : list call :=
  [Play "ciervo"; Play "oso"; Play "jabali"; EndTurn None; Play "conejo"].

Definition hunt_game : option GameState :=
  s ← start_game sample_catalogue ["ciervo"; "oso"; "jabali"] ["conejo"];
  run sample_catalogue hunt_calls s.

(** The bear (instance 2) is sent after the boar (3), the boar after the
    rabbit (4). *)
Definition hunt_choices : gmap Z Z := {[2 := 3; 3 := 4]}.

(** A state in which player 1 holds the [pending_control] flag and owns a
    single animal. *)
Definition stalled_player : PlayerState := mkPlayer "Jugador 1" [] ["roble"] true.

Definition stalled_state : GameState :=
  mkState [stalled_player; mkPlayer "Jugador 2" [] [] false]
          (mkBiome "Bosque" 4 6 0 0 5)
          [mkAnimal 1 1 "raton" 0] (fun _ => 0) [] 0%nat 1 2 [] None.

(** Two level-3 herbivores, a deer of 300 kg and a moose of 500 kg, with
    food for one of them; and a deer with a wolf. *)
Definition duel_state : GameState :=
  mkState [stalled_player; mkPlayer "Jugador 2" [] [] false]
          (mkBiome "Bosque" 4 6 0 0 3)
          [mkAnimal 1 1 "ciervo" 0; mkAnimal 2 2 "alce" 1] (fun _ => 0) [] 0%nat 0 3 [] None.

Definition pack_state : GameState :=
  mkState [stalled_player; mkPlayer "Jugador 2" [] [] false]
          (mkBiome "Bosque" 4 6 0 0 4)
          [mkAnimal 1 1 "ciervo" 0; mkAnimal 2 2 "lobo" 1] (fun _ => 0) [] 0%nat 0 3 [] None.

(** The same state, once player 1 has been declared the winner. *)
Definition won_state : GameState := set_winner (Some "Jugador 1") stalled_state.

(** The first sample game as its eighth turn stands, and as it goes on
    when player 2 ends that turn with the wolf sent after player 1's
    rabbit; the same game when the wolf is sent after player 2's own
    rabbit, which player 1 wins; and the second sample game, the hunt
    ahead. *)
Definition turn8_state : GameState := default stalled_state sample_turn8.

Definition turn9_state : GameState :=
  default stalled_state (end_turn sample_catalogue turn8_state (Some {[17 := 14]})).

Definition won_game : GameState :=
  default stalled_state (end_turn sample_catalogue turn8_state (Some {[17 := 16]})).

Definition hunt_state : GameState := default stalled_state hunt_game.

(** The second sample game after the hunt: player 2 has ended the turn
    with the choices above. *)
Definition hunt_over : GameState :=
  default stalled_state (end_turn sample_catalogue hunt_state (Some hunt_choices)).

(** A player with one card in hand and two in the deck, alone at the table. *)
Definition drawing_player : PlayerState := mkPlayer "Jugador 1" ["raton"; "lobo"] ["roble"] false.

Definition drawing_state : GameState := set_players [drawing_player] stalled_state.

(** The same choices with an entry for the rabbit, which hunts nothing. *)
Definition padded_choices : gmap Z Z := <[4 := 1]> hunt_choices.

(** ** Properties *)

(** *** Arithmetic and list helpers *)

Lemma ceil_half_le (l n : Z) : ceil_half l <= n <-> l <= 2 * n.
Proof.
  unfold ceil_half.
  pose proof (Z.div_mod (- l) 2 ltac:(lia)) as Hd.
  pose proof (Z.mod_pos_bound (- l) 2 ltac:(lia)) as Hm.
  lia.
Qed.

Lemma ceil_half_alt (l : Z) : ceil_half l = (l + 1) / 2.
Proof.
  unfold ceil_half.
  pose proof (Z.div_mod (- l) 2 ltac:(lia)).
  pose proof (Z.mod_pos_bound (- l) 2 ltac:(lia)).
  pose proof (Z.div_mod (l + 1) 2 ltac:(lia)).
  pose proof (Z.mod_pos_bound (l + 1) 2 ltac:(lia)).
  lia.
Qed.

Lemma herb_or_omni_true (t : string) :
  herb_or_omni t = true <-> t = "Herbivore" \/ t = "Omnivore".
Proof.
  unfold herb_or_omni. rewrite orb_true_iff, !String.eqb_eq. reflexivity.
Qed.

Lemma carn_or_omni_true (t : string) :
  carn_or_omni t = true <-> t = "Carnivore" \/ t = "Omnivore".
Proof.
  unfold carn_or_omni. rewrite orb_true_iff, !String.eqb_eq. reflexivity.
Qed.

Lemma filter_nonempty_existsb {A} (f : A -> bool) (l : list A) :
  negb (Nat.eqb (length (List.filter f l)) 0) = existsb f l.
Proof.
  induction l as [|x l IH]; simpl; [reflexivity|].
  destruct (f x); simpl; [reflexivity|exact IH].
Qed.

Lemma truthy_true (o : option string) :
  truthy o = true <-> exists w, o = Some w /\ w <> "".
Proof.
  destruct o as [w|]; simpl.
  - rewrite negb_true_iff. split.
    + intros H. exists w. split; [reflexivity|].
      intros ->. discriminate.
    + intros (w' & [= <-] & Hne). apply String.eqb_neq. exact Hne.
  - split; [discriminate|]. intros (w & [=] & _).
Qed.

Lemma same_game_add_log (s : GameState) (m : string) : same_game s (add_log s m).
Proof. repeat split. Qed.

Lemma same_game_trans (s1 s2 s3 : GameState) :
  same_game s1 s2 -> same_game s2 s3 -> same_game s1 s3.
Proof.
  unfold same_game. intros H1 H2.
  decompose [and] H1. decompose [and] H2. repeat split; congruence.
Qed.

Section Properties.

Variable CARD_INDEX : string -> Card.

Local Abbreviation card_of := (card_of CARD_INDEX).
Local Abbreviation check_control := (check_control CARD_INDEX).
Local Abbreviation start_turn := (start_turn CARD_INDEX).
Local Abbreviation begin_turn := (begin_turn CARD_INDEX).
Local Abbreviation can_play_animal := (can_play_animal CARD_INDEX).
Local Abbreviation play_card := (play_card CARD_INDEX).
Local Abbreviation end_turn := (end_turn CARD_INDEX).
Local Abbreviation viable_prey_on_table := (viable_prey_on_table CARD_INDEX).
Local Abbreviation evaded := (evaded CARD_INDEX).
Local Abbreviation kill_effect := (kill_effect CARD_INDEX).
Local Abbreviation levels_nonneg := (levels_nonneg CARD_INDEX).
Local Abbreviation carrion_step := (carrion_step CARD_INDEX).
Local Abbreviation table_kinds := (table_kinds CARD_INDEX).
Local Abbreviation food_invariant := (food_invariant CARD_INDEX).
Local Abbreviation level_outcome := (level_outcome CARD_INDEX).
Local Abbreviation without_carnivores := (without_carnivores CARD_INDEX).
Local Abbreviation feed_level_biome := (feed_level_biome CARD_INDEX).

(** *** Control checker and turn start *)

Lemma check_control_iff (s : GameState) (i : nat) :
  check_control s i = true <->
  forall lv, 1 <= lv <= lmax (biome s) ->
    exists a, In a (animals s) /\ level (card_of a) = lv /\ owner a = i.
Proof.
  unfold check_control. rewrite forallb_forall. split.
  - intros H lv Hlv.
    assert (Hin : In lv (seqZ 1 (lmax (biome s)))).
    { apply list_elem_of_In, elem_of_seqZ. lia. }
    apply H in Hin. apply existsb_exists in Hin as (a & Ha & Hb).
    apply andb_true_iff in Hb as [Hl Ho].
    exists a. repeat split; [exact Ha| |].
    + apply Z.eqb_eq. exact Hl.
    + apply Nat.eqb_eq. exact Ho.
  - intros H lv Hin.
    apply list_elem_of_In, elem_of_seqZ in Hin.
    destruct (H lv ltac:(lia)) as (a & Ha & Hl & Ho).
    apply existsb_exists. exists a. split; [exact Ha|].
    apply andb_true_iff. split; [apply Z.eqb_eq|apply Nat.eqb_eq]; assumption.
Qed.

Lemma draw_to_hand_fields (s : GameState) (i : nat) (p : PlayerState) (n : Z) :
  let s' := draw_to_hand s i p n in
  biome s' = biome s /\ animals s' = animals s /\ hungers s' = hungers s
  /\ plants s' = plants s /\ active_player_index s' = active_player_index s
  /\ actions_used s' = actions_used s /\ next_instance_id s' = next_instance_id s
  /\ winner s' = winner s /\ length (log s') = S (length (log s))
  /\ (forall q, players s !! i = Some q -> pending_at s' i = Some (pending_control p)).
Proof.
  unfold draw_to_hand. destruct (draw_cards n (hand p) (deck p)) as [h d]. simpl.
  repeat split.
  - rewrite length_app. simpl. lia.
  - intros q Hq. unfold pending_at. simpl.
    rewrite list_lookup_insert_eq by (eapply lookup_lt_Some; exact Hq).
    reflexivity.
Qed.

Lemma begin_turn_fields (s : GameState) (p : PlayerState) :
  let s' := begin_turn s p in
  winner s' = winner s /\ actions_used s' = 0
  /\ animals s' = animals s /\ hungers s' = hungers s /\ plants s' = plants s
  /\ active_player_index s' = active_player_index s
  /\ next_instance_id s' = next_instance_id s
  /\ length (log s') = S (S (length (log s)))
  /\ cn (biome s') = cn_base (biome s) + cn_temp (biome s)
       + sum_Z (map (fun q => cnPerTurn (CARD_INDEX (plant_card_id q))) (plants s))
  /\ cn_temp (biome s') = 0 /\ cc (biome s') = cc (biome s)
  /\ cn_base (biome s') = cn_base (biome s) /\ lmax (biome s') = lmax (biome s)
  /\ (forall q, players s !! active_player_index s = Some q ->
        pending_at s' (active_player_index s) = Some (pending_control p)).
Proof.
  unfold begin_turn.
  match goal with |- context [draw_to_hand ?t ?i ?q ?n] =>
    pose proof (draw_to_hand_fields t i q n) as H; simpl in H end.
  destruct H as (Hb & Ha & Hh & Hp & Hi & Hu & Hn & Hw & Hl & Hq).
  simpl. rewrite Hb, Ha, Hh, Hp, Hi, Hu, Hn, Hw, Hl. simpl.
  repeat split; try reflexivity.
  - rewrite length_app. simpl. lia.
  - exact Hq.
Qed.

Lemma declare_winner_ne_begin_turn (s : GameState) (p : PlayerState) :
  begin_turn s p <> declare_winner s p.
Proof.
  intros H. apply (f_equal (fun t => length (log t))) in H.
  destruct (begin_turn_fields s p) as (_ & _ & _ & _ & _ & _ & _ & Hl & _).
  rewrite Hl in H. unfold declare_winner in H. simpl in H.
  rewrite length_app in H. simpl in H. lia.
Qed.

Lemma start_turn_eq (s : GameState) (p : PlayerState) :
  players s !! active_player_index s = Some p ->
  start_turn s =
  Some (if pending_control p && check_control s (active_player_index s)
        then declare_winner s p else begin_turn s p).
Proof.
  intros Hp. unfold start_turn. rewrite Hp. simpl.
  destruct (pending_control p && check_control s (active_player_index s)); reflexivity.
Qed.

(** C2.  [check_control] is true exactly when the player owns, for every
    level from 1 to [lmax], an animal on the table whose card has that
    level; and [start_turn] declares the active player the winner (it sets
    [winner] to their name, logs the win, and does nothing else) exactly
    when their [pending_control] flag is set and [check_control] holds for
    them. When it does not declare a winner, [winner] is left as it was. *)
Theorem control_confirmation (s : GameState) (player : PlayerState) :
  players s !! active_player_index s = Some player ->
  (forall i,
     check_control s i = true <->
     forall lv, 1 <= lv <= lmax (biome s) ->
       exists a, In a (animals s) /\ level (card_of a) = lv /\ owner a = i)
  /\ (start_turn s = Some (declare_winner s player) <->
      pending_control player = true /\ check_control s (active_player_index s) = true)
  /\ winner (declare_winner s player) = Some (name player)
  /\ same_game (set_winner (Some (name player)) s) (declare_winner s player)
  /\ (start_turn s <> Some (declare_winner s player) ->
      exists s', start_turn s = Some s' /\ winner s' = winner s).
Proof.
  intros Hp. split; [intros i; apply check_control_iff|].
  rewrite (start_turn_eq s player Hp).
  destruct (pending_control player && check_control s (active_player_index s)) eqn:Hc.
  - apply andb_true_iff in Hc.
    split; [tauto|]. split; [reflexivity|]. split; [apply same_game_add_log|].
    intros H. contradiction.
  - split.
    { split.
      + intros [= H]. exfalso. exact (declare_winner_ne_begin_turn s player H).
      + intros [H1 H2]. rewrite H1, H2 in Hc. discriminate. }
    split; [reflexivity|]. split; [apply same_game_add_log|].
    intros _. exists (begin_turn s player). split; [reflexivity|].
    apply begin_turn_fields.
Qed.

(** C1, as the code has it.  When the active player's [pending_control]
    flag is set and [check_control] does not hold for them, [start_turn]
    returns, declares no winner and resets the turn ([actions_used] is 0),
    and the flag is still set afterwards: [start_turn] never assigns it. *)
Theorem unconfirmed_control_keeps_flag (s : GameState) (player : PlayerState) :
  players s !! active_player_index s = Some player ->
  pending_control player = true ->
  check_control s (active_player_index s) = false ->
  exists s', start_turn s = Some s'
    /\ winner s' = winner s
    /\ actions_used s' = 0
    /\ pending_at s' (active_player_index s) = Some true.
Proof.
  intros Hp Hpend Hc. rewrite (start_turn_eq s player Hp), Hpend, Hc. simpl.
  exists (begin_turn s player). split; [reflexivity|].
  destruct (begin_turn_fields s player)
    as (Hw & Hu & _ & _ & _ & _ & _ & _ & _ & _ & _ & _ & _ & Hq).
  repeat split; [exact Hw|exact Hu|].
  rewrite (Hq player Hp), Hpend. reflexivity.
Qed.

(** *** Action executor *)

Lemma has_prey_iff (s : GameState) (lv : Z) :
  negb (Nat.eqb (length (find_viable_prey CARD_INDEX s lv)) 0) = true
  <-> viable_prey_on_table s lv.
Proof.
  unfold find_viable_prey, viable_prey_on_table.
  rewrite filter_nonempty_existsb, existsb_exists.
  split; intros (a & Ha & Hb); exists a; (split; [exact Ha|]).
  - apply andb_true_iff in Hb as [Ht Hl].
    apply herb_or_omni_true in Ht. split; [exact Ht|]. lia.
  - destruct Hb as [Ht Hl]. apply andb_true_iff. split.
    + apply herb_or_omni_true. exact Ht.
    + apply Z.geb_le. exact Hl.
Qed.

(** C3.  [can_play_animal] accepts a Herbivore card exactly when the food
    pool [cn] is at least the card's level, a Carnivore card exactly when
    some viable prey is on the table, and an Omnivore card exactly when one
    of the two holds.  The threshold [ceil_half lv] is the least integer
    [n] with [lv <= 2 n]. *)
Theorem can_play_animal_legal (s : GameState) (card : Card) :
  (type card = "Herbivore" ->
     (fst (can_play_animal s card) = true <-> level card <= cn (biome s)))
  /\ (type card = "Carnivore" ->
     (fst (can_play_animal s card) = true <-> viable_prey_on_table s (level card)))
  /\ (type card = "Omnivore" ->
     (fst (can_play_animal s card) = true <->
      level card <= cn (biome s) \/ viable_prey_on_table s (level card)))
  /\ (forall lv n, ceil_half lv <= n <-> lv <= 2 * n).
Proof.
  pose proof (has_prey_iff s (level card)) as Hprey.
  unfold can_play_animal.
  destruct (negb (Nat.eqb (length (find_viable_prey CARD_INDEX s (level card))) 0)).
  all: destruct (cn (biome s) >=? level card) eqn:E.
  all: split; [|split; [|split]]; try (intros lv n; apply ceil_half_le).
  all: intros Ht; rewrite Ht; simpl; split; intros H.
  all: try reflexivity; try discriminate; try lia.
  all: try (apply Hprey; reflexivity); try (left; lia); try (right; apply Hprey; reflexivity).
  all: try (apply Hprey in H; discriminate).
  all: destruct H as [H|H]; [lia|apply Hprey in H; discriminate].
Qed.

(** C9.  Once [winner] holds a non-empty name, [end_turn] returns at once
    with the state it was given, and [play_card] fails: it returns [False]
    and the state it leaves differs from the one it was given by the one
    log line that reports the refusal. *)
Theorem game_over_is_terminal (s : GameState) (w : string) :
  winner s = Some w -> w <> "" ->
  (forall hc, end_turn s hc = Some s)
  /\ (forall cid,
        play_card s cid = Some (false, add_log s "La partida ya terminó.")
        /\ forall r s', play_card s cid = Some (r, s') -> r = false /\ same_game s s').
Proof.
  intros Hw Hne.
  assert (Ht : truthy (winner s) = true).
  { apply truthy_true. exists w. split; assumption. }
  split.
  - intros hc. unfold end_turn. rewrite Ht. reflexivity.
  - intros cid. unfold play_card. rewrite Ht. split; [reflexivity|].
    intros r s' [= <- <-]. split; [reflexivity|apply same_game_add_log].
Qed.

(** *** Hunting: a single hunt *)

Local Abbreviation resolve_single_hunt := (resolve_single_hunt CARD_INDEX).
Local Abbreviation combat := (combat CARD_INDEX).

Lemma store_set_eq (h : nat -> Z) (o : nat) (v : Z) : store_set h o v o = v.
Proof. unfold store_set. rewrite Nat.eqb_refl. reflexivity. Qed.

Lemma store_set_ne (h : nat -> Z) (o o' : nat) (v : Z) :
  o' <> o -> store_set h o v o' = h o'.
Proof.
  intros Hne. unfold store_set.
  destruct (Nat.eqb o' o) eqn:E; [apply Nat.eqb_eq in E; contradiction|reflexivity].
Qed.

Lemma combat_outcome (s : GameState) (predator prey : AnimalInstance) :
  (fst (combat s predator prey) = true <->
   defense_score (card_of prey) <= attack_score (card_of predator))
  /\ (fst (combat s predator prey) = true ->
      kill_effect s (snd (combat s predator prey)) predator prey)
  /\ (fst (combat s predator prey) = false -> same_game s (snd (combat s predator prey))).
Proof.
  unfold combat.
  destruct (attack_score (card_of predator) >=? defense_score (card_of prey)) eqn:E.
  - split; [simpl; split; [lia|reflexivity]|]. split; [|discriminate].
    intros _. unfold kill_effect.
    destruct (level (card_of prey) =? level (card_of predator)); simpl;
      (repeat split; [unfold hunger; simpl; apply store_set_eq
                     |intros o Ho; apply store_set_ne; exact Ho]).
  - split; [simpl; split; [discriminate|lia]|]. split; [discriminate|].
    intros _. apply same_game_add_log.
Qed.

Lemma filter_removes_id (prey : AnimalInstance) (l : list AnimalInstance) :
  ~ In prey (List.filter (fun a => negb (instance_id a =? instance_id prey)) l).
Proof.
  intros H. apply filter_In in H as [_ H].
  rewrite Z.eqb_refl in H. discriminate.
Qed.

Lemma single_hunt_cases (s : GameState) (predator prey : AnimalInstance) :
  let ok := fst (resolve_single_hunt s predator prey) in
  let s' := snd (resolve_single_hunt s predator prey) in
  (ok = true <->
   ~ evaded predator prey
   /\ defense_score (card_of prey) <= attack_score (card_of predator))
  /\ (ok = true -> kill_effect s s' predator prey /\ ~ In prey (animals s'))
  /\ (ok = false -> same_game s s').
Proof.
  intros ok s'. subst ok s'. unfold resolve_single_hunt, evaded.
  destruct (instinct (card_of predator) >=? instinct (card_of prey)) eqn:E1;
    [|destruct (mobility (card_of predator) <? mobility (card_of prey)) eqn:E2].
  - match goal with |- context [combat ?t predator prey] =>
      destruct (combat_outcome t predator prey) as (Hiff & Hk & Hf) end.
    split; [rewrite Hiff; split; [intros H; split; [lia|exact H]|tauto]|].
    split.
    + intros H. specialize (Hk H). split; [exact Hk|].
      destruct Hk as [-> _]. apply filter_removes_id.
    + intros H. eapply same_game_trans; [apply same_game_add_log|apply Hf, H].
  - simpl. split; [split; [discriminate|intros [H _]; exfalso; apply H; lia]|].
    split; [discriminate|]. intros _. apply same_game_add_log.
  - match goal with |- context [combat ?t predator prey] =>
      destruct (combat_outcome t predator prey) as (Hiff & Hk & Hf) end.
    split; [rewrite Hiff; split; [intros H; split; [lia|exact H]|tauto]|].
    split.
    + intros H. specialize (Hk H). split; [exact Hk|].
      destruct Hk as [-> _]. apply filter_removes_id.
    + intros H. eapply same_game_trans; [apply same_game_add_log|apply Hf, H].
Qed.

(** C4.  A hunt succeeds exactly when the prey does not escape and the
    attack score is at least the defense score, the scores being
    [attack + trunc(0.20 * ws)] and [defense + trunc(0.25 * ws)] with
    [ws = min(100, trunc(weightKg / 10))].  A successful hunt takes the
    prey off the table, adds the prey's level to [cc], and sets the
    predator's hunger to 0 when the two levels are equal and to
    [max(hunger - 1, 0)] otherwise, leaving the rest of the game as it was;
    a failed hunt changes nothing but the log.  With attack 50 and 800 kg
    against defense 40 and 300 kg the scores are 66 and 47, and the hunt
    succeeds unless the prey escapes. *)
Theorem single_hunt_outcome (s : GameState) (predator prey : AnimalInstance) :
  let pc := card_of predator in
  let qc := card_of prey in
  let ok := fst (resolve_single_hunt s predator prey) in
  let s' := snd (resolve_single_hunt s predator prey) in
  weight_scaled pc = Z.min 100 (weightKg pc ÷ 10)
  /\ weight_scaled qc = Z.min 100 (weightKg qc ÷ 10)
  /\ attack_score pc = attack pc + (20 * weight_scaled pc) ÷ 100
  /\ defense_score qc = defense qc + (25 * weight_scaled qc) ÷ 100
  /\ (ok = true <-> ~ evaded predator prey /\ defense_score qc <= attack_score pc)
  /\ (ok = true -> kill_effect s s' predator prey /\ ~ In prey (animals s'))
  /\ (ok = false -> same_game s s')
  /\ (attack pc = 50 -> weightKg pc = 800 -> defense qc = 40 -> weightKg qc = 300 ->
      attack_score pc = 66 /\ defense_score qc = 47
      /\ (~ evaded predator prey -> ok = true)).
Proof.
  intros pc qc ok s'.
  destruct (single_hunt_cases s predator prey) as (Hiff & Hk & Hf).
  repeat (split; [reflexivity|]).
  split; [exact Hiff|]. split; [exact Hk|]. split; [exact Hf|].
  intros Ha Hw Hd Hw'.
  assert (Hs : attack_score pc = 66 /\ defense_score qc = 47).
  { unfold attack_score, defense_score, weight_scaled, trunc_pct.
    rewrite Ha, Hw, Hd, Hw'. split; reflexivity. }
  split; [apply Hs|]. split; [apply Hs|].
  intros Hne. apply Hiff. split; [exact Hne|].
  destruct Hs as [Hs1 Hs2]. unfold pc, qc in Hs1, Hs2. lia.
Qed.

(** *** What the end-of-turn resolvers leave alone *)

Local Abbreviation hunt_step := (hunt_step CARD_INDEX).
Local Abbreviation resolve_hunting := (resolve_hunting CARD_INDEX).
Local Abbreviation feed_level := (feed_level CARD_INDEX).
Local Abbreviation feed_levels := (feed_levels CARD_INDEX).
Local Abbreviation level_animals := (level_animals CARD_INDEX).
Local Abbreviation starve_carnivores := (starve_carnivores CARD_INDEX).
Local Abbreviation unfed_carnivores := (unfed_carnivores CARD_INDEX).
Local Abbreviation resolve_feeding := (resolve_feeding CARD_INDEX).
Local Abbreviation resolve_starvation := (resolve_starvation CARD_INDEX).
Local Abbreviation turn_resolution := (turn_resolution CARD_INDEX).
Local Abbreviation mark_control := (mark_control CARD_INDEX).
Local Abbreviation reachable := (reachable CARD_INDEX).

Lemma filter_all {A} (l : list A) : List.filter (fun _ => true) l = l.
Proof. induction l as [|x l IH]; simpl; [reflexivity|]. rewrite IH. reflexivity. Qed.

Lemma filter_filter {A} (f g : A -> bool) (l : list A) :
  List.filter g (List.filter f l) = List.filter (fun x => f x && g x) l.
Proof.
  induction l as [|x l IH]; simpl; [reflexivity|].
  destruct (f x); simpl; [destruct (g x); rewrite IH; reflexivity|exact IH].
Qed.

(** A state that keeps the framed fields and the table is in the frame. *)
Lemma frame_intro (s s' : GameState) :
  players s' = players s -> plants s' = plants s ->
  active_player_index s' = active_player_index s ->
  actions_used s' = actions_used s -> next_instance_id s' = next_instance_id s ->
  winner s' = winner s ->
  cn_base (biome s') = cn_base (biome s) -> lmax (biome s') = lmax (biome s) ->
  cn_temp (biome s') = cn_temp (biome s) ->
  animals s' = animals s -> frame s s'.
Proof.
  intros. unfold frame. repeat split; try assumption.
  exists (fun _ => true). rewrite filter_all. assumption.
Qed.

Lemma frame_refl (s : GameState) : frame s s.
Proof. apply frame_intro; reflexivity. Qed.

Lemma frame_incl (s s' : GameState) : frame s s' -> incl (animals s') (animals s).
Proof.
  intros (_ & _ & _ & _ & _ & _ & _ & _ & _ & keep & ->). apply incl_filter.
Qed.

Lemma frame_trans (s1 s2 s3 : GameState) : frame s1 s2 -> frame s2 s3 -> frame s1 s3.
Proof.
  unfold frame.
  intros (P1 & L1 & I1 & U1 & N1 & W1 & B1 & M1 & T1 & k1 & A1)
         (P2 & L2 & I2 & U2 & N2 & W2 & B2 & M2 & T2 & k2 & A2).
  repeat split; try congruence.
  exists (fun a => k1 a && k2 a). rewrite A2, A1. apply filter_filter.
Qed.

Lemma frame_same_game (s s' : GameState) : same_game s s' -> frame s s'.
Proof.
  unfold same_game. intros H. decompose [and] H.
  apply frame_intro; congruence.
Qed.

Lemma levels_nonneg_incl (s s' : GameState) :
  incl (animals s') (animals s) -> levels_nonneg s -> levels_nonneg s'.
Proof. intros Hi H a Ha. apply H, Hi, Ha. Qed.

Lemma carrion_refl (s : GameState) : carrion_step s s.
Proof. split; [apply frame_refl|]. split; [reflexivity|]. intros _. lia. Qed.

Lemma carrion_trans (s1 s2 s3 : GameState) :
  carrion_step s1 s2 -> carrion_step s2 s3 -> carrion_step s1 s3.
Proof.
  intros (F1 & C1 & G1) (F2 & C2 & G2).
  split; [eapply frame_trans; eassumption|]. split; [congruence|].
  intros Hl. specialize (G1 Hl).
  assert (levels_nonneg s2).
  { eapply levels_nonneg_incl; [|exact Hl]. apply frame_incl, F1. }
  specialize (G2 ltac:(assumption)). lia.
Qed.

Lemma carrion_same_game (s s' : GameState) : same_game s s' -> carrion_step s s'.
Proof.
  intros H. split; [apply frame_same_game, H|].
  unfold same_game in H. decompose [and] H.
  split; [congruence|]. intros _. replace (biome s') with (biome s) by congruence. lia.
Qed.

Lemma feeding_refl (s : GameState) : feeding_step s s.
Proof. split; [apply frame_refl|]. repeat split; try reflexivity; lia. Qed.

Lemma feeding_trans (s1 s2 s3 : GameState) :
  feeding_step s1 s2 -> feeding_step s2 s3 -> feeding_step s1 s3.
Proof.
  intros (F1 & A1 & C1 & P1) (F2 & A2 & C2 & P2).
  split; [eapply frame_trans; eassumption|].
  repeat split; try congruence. intros H. apply P2, P1, H.
Qed.

Lemma fold_left_rel {A B} (R : A -> A -> Prop) (f : A -> B -> A) :
  (forall a, R a a) -> (forall a b c, R a b -> R b c -> R a c) ->
  (forall a b, R a (f a b)) ->
  forall l a, R a (fold_left f l a).
Proof.
  intros Hr Ht Hf l. induction l as [|b l IH]; intros a; simpl; [apply Hr|].
  eapply Ht; [apply Hf|apply IH].
Qed.

Lemma find_In {A} (f : A -> bool) (l : list A) (x : A) :
  List.find f l = Some x -> In x l /\ f x = true.
Proof. apply find_some. Qed.

Lemma kill_is_carrion (s s' : GameState) (predator prey : AnimalInstance) :
  In prey (animals s) -> kill_effect s s' predator prey -> carrion_step s s'.
Proof.
  intros Hin H. unfold kill_effect in H. decompose [and] H. clear H.
  split; [|split].
  - unfold frame. repeat split; try assumption.
    eexists. eassumption.
  - assumption.
  - intros Hl. specialize (Hl prey Hin). lia.
Qed.

Lemma single_hunt_carrion (s : GameState) (predator prey : AnimalInstance) :
  In prey (animals s) ->
  carrion_step s (snd (resolve_single_hunt s predator prey)).
Proof.
  intros Hin.
  destruct (single_hunt_cases s predator prey) as (_ & Hk & Hf).
  destruct (fst (resolve_single_hunt s predator prey)) eqn:E.
  - eapply kill_is_carrion; [exact Hin|]. apply Hk. reflexivity.
  - apply carrion_same_game, Hf. reflexivity.
Qed.

Lemma hunt_step_carrion (hc : gmap Z Z) (acc : gset Z * GameState)
    (predator : AnimalInstance) :
  carrion_step (snd acc) (snd (hunt_step hc acc predator)).
Proof.
  destruct acc as [fed s]. unfold hunt_step. simpl.
  destruct (hc !! instance_id predator) as [prey_id|];
    [|apply carrion_same_game, same_game_add_log].
  destruct (prey_id =? 0); [apply carrion_same_game, same_game_add_log|].
  destruct (List.find _ (animals s)) as [prey|] eqn:Hfind;
    [|apply carrion_same_game, same_game_add_log].
  apply find_In in Hfind as [Hin _].
  destruct (negb _); [apply carrion_same_game, same_game_add_log|].
  pose proof (single_hunt_carrion s predator prey Hin) as H.
  destruct (resolve_single_hunt s predator prey) as [[|] s1]; exact H.
Qed.

Lemma resolve_hunting_carrion (s : GameState) (hc : gmap Z Z) :
  carrion_step s (snd (resolve_hunting s hc)).
Proof.
  unfold resolve_hunting.
  destruct (hungry_predators CARD_INDEX s) as [|p l] eqn:E;
    [apply carrion_same_game, same_game_add_log|].
  apply (carrion_trans s (add_log s "Fase de caza iniciada."));
    [apply carrion_same_game, same_game_add_log|].
  set (start := (∅, add_log s "Fase de caza iniciada.") : gset Z * GameState).
  change (carrion_step (snd start) (snd (fold_left (hunt_step hc) (p :: l) start))).
  apply (fold_left_rel (fun a b => carrion_step (snd a) (snd b))).
  - intros a. apply carrion_refl.
  - intros a b c. apply carrion_trans.
  - intros a b. apply hunt_step_carrion.
Qed.

Lemma feeding_same_game (s s' : GameState) : same_game s s' -> feeding_step s s'.
Proof.
  intros H. split; [apply frame_same_game, H|].
  unfold same_game in H. decompose [and] H.
  replace (biome s') with (biome s) by congruence.
  repeat split; try congruence; lia.
Qed.

Lemma feed_level_feeding (s : GameState) (lv : Z) : feeding_step s (feed_level s lv).
Proof.
  unfold feed_level.
  destruct (level_animals s lv) as [|a0 group] eqn:Eg; [apply feeding_refl|].
  destruct (cn (biome s) >=? lv * Z.of_nat (length (a0 :: group))) eqn:E1.
  - split; [apply frame_intro; reflexivity|].
    simpl. repeat split. intros _.
    apply Z.geb_le in E1. simpl in E1. lia.
  - destruct (sorted_desc _ (a0 :: group)) as [|w [|l rest]];
      try (split; [apply frame_intro; reflexivity|];
           simpl; repeat split; intros H; exact H).
    simpl.
    destruct (cn (biome s) >=? lv) eqn:E2.
    + split; [apply frame_intro; reflexivity|].
      simpl. repeat split. intros _. apply Z.geb_le in E2. lia.
    + split; [apply frame_intro; reflexivity|].
      simpl. repeat split. intros H; exact H.
Qed.

Lemma feed_levels_feeding (s : GameState) : feeding_step s (feed_levels s).
Proof.
  unfold feed_levels. apply fold_left_rel.
  - apply feeding_refl.
  - apply feeding_trans.
  - apply feed_level_feeding.
Qed.

Lemma starve_carnivores_feeding (s : GameState) (fed : gset Z) :
  feeding_step s (starve_carnivores s fed).
Proof.
  unfold starve_carnivores.
  destruct (unfed_carnivores s fed); [apply feeding_refl|].
  split; [apply frame_intro; reflexivity|].
  simpl. repeat split; lia.
Qed.

Lemma resolve_feeding_feeding (s : GameState) (fed : gset Z) :
  feeding_step s (resolve_feeding s fed).
Proof.
  unfold resolve_feeding.
  eapply feeding_trans; [apply feeding_same_game, (same_game_add_log s)|].
  eapply feeding_trans; [apply feed_levels_feeding|apply starve_carnivores_feeding].
Qed.

Lemma bury_all (dead : list AnimalInstance) (s : GameState) :
  let s' := fold_left (bury CARD_INDEX) dead s in
  animals s' = animals s /\ hungers s' = hungers s /\ frame s s'
  /\ cn (biome s') = cn (biome s)
  /\ cc (biome s') = cc (biome s) + sum_Z (map (fun a => level (card_of a)) dead).
Proof.
  revert s. induction dead as [|d dead IH]; intros s; simpl.
  - repeat split; [apply frame_refl|lia].
  - destruct (IH (bury CARD_INDEX s d)) as (Ha & Hh & Hf & Hc & Hcc).
    simpl in *. rewrite Ha, Hh, Hc, Hcc. repeat split; try apply Hf; lia.
Qed.

Lemma sum_levels_nonneg (l : list AnimalInstance) :
  (forall a, In a l -> 0 <= level (card_of a)) ->
  0 <= sum_Z (map (fun a => level (card_of a)) l).
Proof.
  induction l as [|a l IH]; intros H; simpl; [lia|].
  assert (0 <= level (card_of a)) by (apply H; left; reflexivity).
  assert (0 <= sum_Z (map (fun a => level (card_of a)) l)).
  { apply IH. intros b Hb. apply H. right. exact Hb. }
  lia.
Qed.

Lemma resolve_starvation_carrion (s : GameState) : carrion_step s (resolve_starvation s).
Proof.
  unfold resolve_starvation.
  destruct (List.filter _ (animals s)) as [|d dead] eqn:E;
    [apply carrion_same_game, same_game_add_log|].
  rewrite <- E.
  set (victims := List.filter (fun animal => hunger s animal >=? 2) (animals s)).
  destruct (bury_all victims s) as (Ha & Hh & Hf & Hc & Hcc).
  split; [|split].
  - destruct Hf as (P1 & L1 & I1 & U1 & N1 & W1 & B1 & M1 & T1 & _).
    unfold frame. simpl. repeat split; try assumption.
    rewrite Ha. eexists. reflexivity.
  - simpl. exact Hc.
  - intros Hl. simpl. rewrite Hcc.
    assert (0 <= sum_Z (map (fun a => level (card_of a)) victims)); [|lia].
    apply sum_levels_nonneg. intros a Hin. apply Hl.
    apply filter_In in Hin. apply Hin.
Qed.

Lemma floor_pct_nonneg (p n : Z) : 0 <= p -> 0 <= n -> 0 <= floor_pct p n.
Proof. intros Hp Hn. unfold floor_pct. apply Z.div_pos; lia. Qed.

Lemma resolve_conversion_fields (s : GameState) :
  let s' := resolve_conversion s in
  cn_temp (biome s') = floor_pct 40 (cc (biome s)) /\ cc (biome s') = 0
  /\ cn (biome s') = cn (biome s) /\ cn_base (biome s') = cn_base (biome s)
  /\ lmax (biome s') = lmax (biome s)
  /\ players s' = players s /\ animals s' = animals s /\ hungers s' = hungers s
  /\ plants s' = plants s /\ active_player_index s' = active_player_index s
  /\ actions_used s' = actions_used s /\ next_instance_id s' = next_instance_id s
  /\ winner s' = winner s.
Proof. simpl. repeat split. Qed.

Lemma mark_control_fields (s : GameState) (i : nat) (p : PlayerState) :
  let s' := mark_control s i p in
  biome s' = biome s /\ animals s' = animals s /\ hungers s' = hungers s
  /\ plants s' = plants s /\ active_player_index s' = active_player_index s
  /\ actions_used s' = actions_used s /\ next_instance_id s' = next_instance_id s
  /\ winner s' = winner s
  /\ players s' = <[i := set_pending_control (check_control s i) p]> (players s).
Proof.
  unfold mark_control. destruct (check_control s i); simpl; repeat split.
Qed.

Lemma turn_resolution_fields (s pre : GameState) (hc : gmap Z Z) :
  turn_resolution s hc = Some pre ->
  actions_used pre = actions_used s /\ plants pre = plants s
  /\ winner pre = winner s /\ next_instance_id pre = next_instance_id s
  /\ cn_base (biome pre) = cn_base (biome s) /\ lmax (biome pre) = lmax (biome s)
  /\ (exists keep, animals pre = List.filter keep (animals s))
  /\ (0 <= cn (biome s) -> 0 <= cn (biome pre))
  /\ cc (biome pre) = 0
  /\ (levels_nonneg s -> 0 <= cc (biome s) -> 0 <= cn_temp (biome pre))
  /\ length (players pre) = length (players s).
Proof.
  unfold turn_resolution.
  pose proof (resolve_hunting_carrion s hc) as H1.
  destruct (resolve_hunting s hc) as [fed s1]. simpl in H1.
  pose proof (resolve_feeding_feeding s1 fed) as H2.
  remember (resolve_feeding s1 fed) as s2 eqn:E2. clear E2.
  pose proof (resolve_starvation_carrion s2) as H3.
  remember (resolve_starvation s2) as s3 eqn:E3. clear E3.
  pose proof (resolve_conversion_fields s3) as H4. cbv zeta in H4.
  remember (resolve_conversion s3) as s4 eqn:E4. clear E4.
  destruct (players s4 !! active_player_index s4) as [p|]; [|discriminate].
  simpl. intros [= <-].
  pose proof (mark_control_fields s4 (active_player_index s4) p) as H5.
  cbv zeta in H5.
  remember (mark_control s4 (active_player_index s4) p) as s5 eqn:E5. clear E5.
  destruct H1 as (F1 & N1 & G1). destruct H2 as (F2 & A2 & C2 & P2).
  destruct H3 as (F3 & N3 & G3).
  assert (F : frame s s3) by (eapply frame_trans; [eapply frame_trans|]; eassumption).
  unfold frame in F.
  destruct F as (Fp & Fpl & Fi & Fu & Fn & Fw & Fb & Fl & Ft & Fa).
  destruct H4 as (Kt & Kc & Kn & Kb & Kl & Kp & Ka & Kh & Kpl & Ki & Ku & Kni & Kw).
  destruct H5 as (Mb & Ma & Mh & Mpl & Mi & Mu & Mn & Mw & Mp).
  simpl. rewrite Mb, Ma, Mpl, Mu, Mn, Mw, Mp.
  repeat split; try congruence.
  - rewrite Ka. exact Fa.
  - intros H. rewrite Kn, N3. apply P2. rewrite N1. exact H.
  - intros Hl Hc. rewrite Kt. apply floor_pct_nonneg; [lia|].
    assert (L1 : levels_nonneg s1)
      by (eapply levels_nonneg_incl; [apply frame_incl, F1|exact Hl]).
    assert (L2 : levels_nonneg s2).
    { intros a Ha. apply L1. rewrite A2 in Ha. exact Ha. }
    specialize (G1 Hl). specialize (G3 L2). lia.
  - rewrite length_insert. congruence.
Qed.

Lemma can_play_animal_same_game (s : GameState) (card : Card) :
  same_game s (snd (can_play_animal s card)).
Proof.
  unfold can_play_animal.
  repeat match goal with
         | |- context [if ?b then _ else _] => destruct b
         end; simpl; repeat split.
Qed.

(** The outcomes of [play_card]: a refusal, which only logs, or a card
    laid on the table within the action budget. *)
Lemma play_card_cases (s s' : GameState) (cid : string) (r : bool) :
  play_card s cid = Some (r, s') ->
  (r = false /\ same_game s s')
  \/ (r = true /\ actions_used s < 3 /\ actions_used s' = actions_used s + 1
      /\ biome s' = biome s /\ winner s' = winner s
      /\ next_instance_id s' = next_instance_id s + 1
      /\ ((kind (CARD_INDEX cid) = "plant" /\ animals s' = animals s
           /\ exists p, plants s' = (plants s ++ [p])%list /\ plant_card_id p = cid)
          \/ (kind (CARD_INDEX cid) = "animal" /\ plants s' = plants s
              /\ exists a, animals s' = (animals s ++ [a])%list /\ card_id a = cid
                   /\ obj a = fresh_obj (animals s)
                   /\ instance_id a = next_instance_id s))).
Proof.
  unfold play_card.
  destruct (truthy (winner s));
    [intros [= <- <-]; left; split; [reflexivity|apply same_game_add_log]|].
  destruct (players s !! active_player_index s) as [p|]; [simpl|discriminate].
  destruct (negb (str_in cid (hand p)));
    [intros [= <- <-]; left; split; [reflexivity|apply same_game_add_log]|].
  destruct (actions_used s >=? 3) eqn:Eu;
    [intros [= <- <-]; left; split; [reflexivity|apply same_game_add_log]|].
  destruct (String.eqb (kind (CARD_INDEX cid)) "plant") eqn:Ek.
  - apply String.eqb_eq in Ek. intros [= <- <-]. right. simpl.
    repeat split; [lia| ]. left. repeat split; [exact Ek|].
    eexists. split; reflexivity.
  - destruct (String.eqb (kind (CARD_INDEX cid)) "animal") eqn:Ea;
      [|intros [= <- <-]; left; split; [reflexivity|apply same_game_add_log]].
    apply String.eqb_eq in Ea.
    pose proof (can_play_animal_same_game s (CARD_INDEX cid)) as Hc.
    destruct (can_play_animal s (CARD_INDEX cid)) as [ok s1]. simpl in Hc.
    unfold same_game in Hc. decompose [and] Hc. clear Hc.
    destruct ok; simpl; intros [= <- <-].
    + right. simpl.
      split; [reflexivity|]. split; [lia|]. split; [lia|].
      split; [assumption|]. split; [assumption|]. split; [congruence|].
      right. split; [exact Ea|]. split; [assumption|].
      eexists. split; [rewrite H0; reflexivity|].
      simpl. repeat split; congruence.
    + left. split; [reflexivity|]. unfold same_game. repeat split; assumption.
Qed.

Lemma end_turn_cases (s s' : GameState) (hc : option (gmap Z Z)) :
  end_turn s hc = Some s' ->
  s' = s
  \/ exists pre p,
       turn_resolution s (default ∅ hc) = Some pre
       /\ players pre !! active_player_index pre = Some p
       /\ s' = if pending_control p && check_control pre (active_player_index pre)
               then declare_winner pre p else begin_turn pre p.
Proof.
  unfold end_turn. destruct (truthy (winner s)); [intros [= <-]; left; reflexivity|].
  destruct (turn_resolution s (default ∅ hc)) as [pre|] eqn:E; [simpl|discriminate].
  intros H. right. exists pre.
  destruct (players pre !! active_player_index pre) as [p|] eqn:Ep.
  - exists p. rewrite (start_turn_eq pre p Ep) in H. injection H as <-.
    repeat split.
  - unfold start_turn in H. rewrite Ep in H. discriminate.
Qed.

Lemma start_game_eq (deck1 deck2 : list string) :
  exists s0 p, start_game CARD_INDEX deck1 deck2 = Some (begin_turn s0 p)
    /\ plants s0 = [] /\ animals s0 = []
    /\ biome s0 = mkBiome "Bosque" 4 6 0 0 0.
Proof.
  unfold start_game, start_turn. simpl.
  eexists. eexists. split; [reflexivity|]. repeat split.
Qed.

Lemma run_reachable (calls : list call) (s s' : GameState) :
  reachable s -> run CARD_INDEX calls s = Some s' -> reachable s'.
Proof.
  revert s. induction calls as [|c calls IH]; intros s Hr; simpl.
  - intros [= <-]. exact Hr.
  - destruct (run_call CARD_INDEX s c) as [s1|] eqn:E; [simpl|discriminate].
    apply IH. destruct c as [cid|hc]; simpl in E.
    + destruct (play_card s cid) as [[r s2]|] eqn:Ep; [|discriminate].
      injection E as <-. eapply reach_play; eassumption.
    + eapply reach_end; eassumption.
Qed.

(** *** The action budget *)

Lemma reachable_actions_used (s : GameState) :
  reachable s -> 0 <= actions_used s <= 3.
Proof.
  induction 1 as [deck1 deck2 s Hs|s cid r s' Hr IH Hp|s hc s' Hr IH He].
  - destruct (start_game_eq deck1 deck2) as (s0 & p & E & _).
    rewrite E in Hs. injection Hs as <-.
    destruct (begin_turn_fields s0 p) as (_ & -> & _). lia.
  - apply play_card_cases in Hp as [[_ Hs]|(_ & Hlt & -> & _)]; [|lia].
    unfold same_game in Hs. decompose [and] Hs. lia.
  - apply end_turn_cases in He as [->|(pre & p & Ht & Hp & ->)]; [exact IH|].
    apply turn_resolution_fields in Ht as (Hu & _).
    destruct (pending_control p && check_control pre (active_player_index pre)).
    + unfold declare_winner. simpl. lia.
    + destruct (begin_turn_fields pre p) as (_ & -> & _). lia.
Qed.

(** C8, as the code has it.  In every reachable state [actions_used] lies
    between 0 and 3; [play_card] leaves it alone or, when it is below 3,
    adds one; and a call of [start_turn] leaves it at 0 unless the call
    declares a winner, in which case it keeps the value it had. *)
Theorem actions_used_budget :
  (forall s, reachable s -> 0 <= actions_used s <= 3)
  /\ (forall s cid r s',
        play_card s cid = Some (r, s') ->
        actions_used s' = actions_used s
        \/ (actions_used s < 3 /\ actions_used s' = actions_used s + 1))
  /\ (forall s p s',
        players s !! active_player_index s = Some p ->
        start_turn s = Some s' ->
        if pending_control p && check_control s (active_player_index s)
        then s' = declare_winner s p /\ actions_used s' = actions_used s
        else s' = begin_turn s p /\ actions_used s' = 0).
Proof.
  split; [exact reachable_actions_used|]. split.
  - intros s cid r s' Hp.
    apply play_card_cases in Hp as [[_ Hs]|(_ & Hlt & Hu & _)].
    + left. unfold same_game in Hs. decompose [and] Hs. assumption.
    + right. split; assumption.
  - intros s p s' Hp Hs. rewrite (start_turn_eq s p Hp) in Hs. injection Hs as <-.
    destruct (pending_control p && check_control s (active_player_index s)).
    + split; reflexivity.
    + split; [reflexivity|]. apply begin_turn_fields.
Qed.

(** *** The food pool *)

Section FoodPool.

(** Modelled from the spec: what the catalogue of the [data] module holds.
    A plant generates a non-negative amount of food each turn, and the
    level of an animal is not negative (the specification has it
    positive). *)
Hypothesis plants_feed :
  forall cid, kind (CARD_INDEX cid) = "plant" -> 0 <= cnPerTurn (CARD_INDEX cid).
Hypothesis animals_have_levels :
  forall cid, kind (CARD_INDEX cid) = "animal" -> 0 <= level (CARD_INDEX cid).

Lemma plants_sum_nonneg (l : list PlantInstance) :
  (forall p, In p l -> kind (CARD_INDEX (plant_card_id p)) = "plant") ->
  0 <= sum_Z (map (fun p => cnPerTurn (CARD_INDEX (plant_card_id p))) l).
Proof.
  induction l as [|p l IH]; intros H; simpl; [lia|].
  assert (0 <= cnPerTurn (CARD_INDEX (plant_card_id p))).
  { apply plants_feed, H. left. reflexivity. }
  assert (0 <= sum_Z (map (fun p => cnPerTurn (CARD_INDEX (plant_card_id p))) l)).
  { apply IH. intros q Hq. apply H. right. exact Hq. }
  lia.
Qed.

Lemma table_kinds_levels (s : GameState) : table_kinds s -> levels_nonneg s.
Proof. intros [_ H] a Ha. apply animals_have_levels, H, Ha. Qed.

Lemma begin_turn_food (s : GameState) (p : PlayerState) :
  table_kinds s -> 0 <= cn_temp (biome s) -> 0 <= cc (biome s) ->
  0 <= cn_base (biome s) -> food_invariant (begin_turn s p).
Proof.
  intros Hk Ht Hc Hb.
  destruct (begin_turn_fields s p)
    as (_ & _ & Ha & _ & Hpl & _ & _ & _ & Hcn & Hct & Hcc & Hcb & _).
  unfold food_invariant, table_kinds. rewrite Ha, Hpl, Hcn, Hct, Hcc, Hcb.
  split; [exact Hk|].
  pose proof (plants_sum_nonneg (plants s) (proj1 Hk)). lia.
Qed.

Lemma play_card_food (s s' : GameState) (cid : string) (r : bool) :
  food_invariant s -> play_card s cid = Some (r, s') -> food_invariant s'.
Proof.
  intros (Hk & Hn) Hp. unfold food_invariant, table_kinds in *.
  apply play_card_cases in Hp as [[_ Hs]|(_ & _ & _ & Hb & _ & _ & Hc)].
  - unfold same_game in Hs. decompose [and] Hs.
    replace (biome s') with (biome s) by congruence.
    replace (plants s') with (plants s) by congruence.
    replace (animals s') with (animals s) by congruence.
    split; assumption.
  - rewrite Hb. split; [|exact Hn].
    destruct Hc as [(Hkind & -> & q & -> & Hq)|(Hkind & -> & a & -> & Ha & _)].
    + split; [|apply Hk]. intros q' Hin. apply in_app_or in Hin as [Hin|[<-|[]]].
      * apply Hk, Hin.
      * rewrite Hq. exact Hkind.
    + split; [apply Hk|]. intros a' Hin. apply in_app_or in Hin as [Hin|[<-|[]]].
      * apply Hk, Hin.
      * unfold card_of. rewrite Ha. exact Hkind.
Qed.

Lemma end_turn_food (s s' : GameState) (hc : option (gmap Z Z)) :
  food_invariant s -> end_turn s hc = Some s' -> food_invariant s'.
Proof.
  intros Hinv He.
  apply end_turn_cases in He as [->|(pre & p & Ht & Hp & ->)]; [exact Hinv|].
  destruct Hinv as (Hk & Hcn & Hct & Hcc & Hcb).
  apply turn_resolution_fields in Ht
    as (_ & Hpl & _ & _ & Hb & _ & Hincl & Hn & Hc0 & Htemp & _).
  assert (Hk' : table_kinds pre).
  { split; [rewrite Hpl; apply Hk|]. intros a Ha. apply Hk.
    destruct Hincl as [keep E]. rewrite E in Ha. apply filter_In in Ha. apply Ha. }
  specialize (Hn Hcn). specialize (Htemp (table_kinds_levels s Hk) Hcc).
  destruct (pending_control p && check_control pre (active_player_index pre)).
  - unfold food_invariant, table_kinds, declare_winner. simpl.
    split; [exact Hk'|]. lia.
  - apply begin_turn_food; [exact Hk'|lia..].
Qed.

Lemma reachable_food (s : GameState) : reachable s -> food_invariant s.
Proof.
  induction 1 as [deck1 deck2 s Hs|s cid r s' Hr IH Hp|s hc s' Hr IH He].
  - destruct (start_game_eq deck1 deck2) as (s0 & p & E & Hpl & Ha & Hb).
    rewrite E in Hs. injection Hs as <-.
    apply begin_turn_food; try (rewrite Hb; simpl; lia).
    split; [rewrite Hpl|rewrite Ha]; intros ? [].
  - eapply play_card_food; eassumption.
  - eapply end_turn_food; eassumption.
Qed.

(** C7.  On a sound catalogue [cn] is never negative: not in any reachable
    state, and not right after the feeding resolver, which only subtracts
    from [cn] an amount that [cn] covers (so that it keeps any pool
    non-negative, whatever the catalogue). *)
Theorem cn_never_negative :
  (forall s, reachable s -> 0 <= cn (biome s))
  /\ (forall s fed, 0 <= cn (biome s) -> 0 <= cn (biome (resolve_feeding s fed)))
  /\ (forall s hc,
        reachable s ->
        0 <= cn (biome (resolve_feeding (snd (resolve_hunting s hc))
                                        (fst (resolve_hunting s hc))))).
Proof.
  split; [intros s Hr; apply (reachable_food s Hr)|].
  split; [intros s fed; apply (resolve_feeding_feeding s fed)|].
  intros s hc Hr. apply resolve_feeding_feeding.
  destruct (resolve_hunting_carrion s hc) as (_ & -> & _).
  apply (reachable_food s Hr).
Qed.

End FoodPool.

(** *** Hunger through aliases *)

Lemma reset_all_out (l : list AnimalInstance) (h : nat -> Z) (o : nat) :
  (forall a, In a l -> obj a <> o) -> reset_all l h o = h o.
Proof.
  unfold reset_all. revert h. induction l as [|x l IH]; intros h H; simpl; [reflexivity|].
  rewrite IH by (intros a Ha; apply H; right; exact Ha).
  apply store_set_ne. intros E. apply (H x); [left; reflexivity|]. symmetry. exact E.
Qed.

Lemma reset_all_obj (l : list AnimalInstance) (h : nat -> Z) (o : nat) :
  In o (map obj l) -> reset_all l h o = 0.
Proof.
  unfold reset_all. revert h. induction l as [|x l IH]; intros h; simpl; [intros []|].
  intros Ho.
  destruct (in_dec Nat.eq_dec o (map obj l)) as [Hi|Hn]; [apply IH, Hi|].
  destruct Ho as [<-|Ho]; [|contradiction].
  fold (reset_all l (store_set h (obj x) 0)). rewrite reset_all_out.
  - apply store_set_eq.
  - intros b Hb E. apply Hn. rewrite <- E. apply in_map, Hb.
Qed.

Lemma reset_all_in (l : list AnimalInstance) (h : nat -> Z) (a : AnimalInstance) :
  In a l -> reset_all l h (obj a) = 0.
Proof. intros Ha. apply reset_all_obj, in_map, Ha. Qed.

Lemma bump_all_out (l : list AnimalInstance) (h : nat -> Z) (o : nat) :
  (forall a, In a l -> obj a <> o) -> bump_all l h o = h o.
Proof.
  unfold bump_all. revert h. induction l as [|x l IH]; intros h H; simpl; [reflexivity|].
  rewrite IH by (intros a Ha; apply H; right; exact Ha).
  apply store_set_ne. intros E. apply (H x); [left; reflexivity|]. symmetry. exact E.
Qed.

Lemma bump_all_in (l : list AnimalInstance) (h : nat -> Z) (a : AnimalInstance) :
  List.NoDup (map obj l) -> In a l -> bump_all l h (obj a) = h (obj a) + 1.
Proof.
  unfold bump_all. revert h. induction l as [|x l IH]; intros h Hnd; simpl; [intros []|].
  inversion Hnd as [|? ? Hx Hnd']; subst.
  intros [->|Hin].
  - fold (bump_all l (store_set h (obj a) (h (obj a) + 1))). rewrite bump_all_out.
    + apply store_set_eq.
    + intros b Hb E. apply Hx. rewrite <- E. apply in_map, Hb.
  - rewrite (IH _ Hnd' Hin). rewrite store_set_ne; [reflexivity|].
    intros E. apply Hx. rewrite <- E. apply in_map, Hin.
Qed.

Lemma NoDup_map_filter {A B} (f : A -> B) (p : A -> bool) (l : list A) :
  List.NoDup (map f l) -> List.NoDup (map f (List.filter p l)).
Proof.
  induction l as [|x l IH]; simpl; intros H; [constructor|].
  inversion H as [|? ? Hx Hnd]; subst.
  destruct (p x); simpl; [|apply IH, Hnd].
  constructor; [|apply IH, Hnd].
  intros Hin. apply Hx. apply in_map_iff in Hin as (y & Hy & Hin).
  apply in_map_iff. exists y. split; [exact Hy|]. apply filter_In in Hin. apply Hin.
Qed.

Lemma NoDup_map_inj {A B} (f : A -> B) (l : list A) (x y : A) :
  List.NoDup (map f l) -> In x l -> In y l -> f x = f y -> x = y.
Proof.
  induction l as [|z l IH]; simpl; intros Hnd; [intros []|].
  inversion Hnd as [|? ? Hz Hnd']; subst.
  intros [->|Hx] [->|Hy] E; try reflexivity.
  - exfalso. apply Hz. rewrite E. apply in_map, Hy.
  - exfalso. apply Hz. rewrite <- E. apply in_map, Hx.
  - apply IH; assumption.
Qed.

(** *** Distinct instances *)

Lemma fresh_obj_above (l : list AnimalInstance) (a : AnimalInstance) :
  In a l -> (obj a < fresh_obj l)%nat.
Proof.
  unfold fresh_obj. induction l as [|x l IH]; simpl; [intros []|].
  intros [->|Hin]; [lia|]. specialize (IH Hin). lia.
Qed.

Lemma fresh_obj_fresh (l : list AnimalInstance) : ~ In (fresh_obj l) (map obj l).
Proof.
  intros H. apply in_map_iff in H as (a & Ha & Hin).
  apply fresh_obj_above in Hin. lia.
Qed.

Lemma NoDup_map_snoc {A B} (f : A -> B) (l : list A) (a : A) :
  List.NoDup (map f l) -> ~ In (f a) (map f l) -> List.NoDup (map f (l ++ [a])).
Proof.
  induction l as [|x l IH]; simpl; intros Hnd Hn.
  - constructor; [intros []|constructor].
  - inversion Hnd as [|? ? Hx Hnd']; subst. constructor.
    + rewrite map_app, in_app_iff. simpl. intros [H|[H|[]]]; [contradiction|].
      apply Hn. left. symmetry. exact H.
    + apply IH; [exact Hnd'|]. intros H. apply Hn. right. exact H.
Qed.

Lemma distinct_filter (s s' : GameState) (keep : AnimalInstance -> bool) :
  distinct_table s -> animals s' = List.filter keep (animals s) ->
  next_instance_id s' = next_instance_id s -> distinct_table s'.
Proof.
  intros (Ho & Hi & Hb) Ha Hn. unfold distinct_table. rewrite Ha, Hn.
  split; [apply NoDup_map_filter, Ho|]. split; [apply NoDup_map_filter, Hi|].
  intros a Hin. apply filter_In in Hin. apply Hb, Hin.
Qed.

Lemma distinct_frame (s s' : GameState) : frame s s' -> distinct_table s -> distinct_table s'.
Proof.
  intros (_ & _ & _ & _ & Hn & _ & _ & _ & _ & keep & Ha) Hd.
  eapply distinct_filter; eassumption.
Qed.

Lemma distinct_same_table (s s' : GameState) :
  animals s' = animals s -> next_instance_id s' = next_instance_id s ->
  distinct_table s -> distinct_table s'.
Proof.
  intros Ha Hn Hd. apply (distinct_filter s s' (fun _ => true)); [exact Hd| |exact Hn].
  rewrite filter_all. exact Ha.
Qed.

Lemma play_card_distinct (s s' : GameState) (cid : string) (r : bool) :
  distinct_table s -> play_card s cid = Some (r, s') -> distinct_table s'.
Proof.
  intros Hd Hp.
  apply play_card_cases in Hp as [[_ Hs]|(_ & _ & _ & _ & _ & Hn & Hc)].
  - unfold same_game in Hs. decompose [and] Hs.
    apply (distinct_same_table s); assumption.
  - destruct Hd as (Ho & Hi & Hb).
    destruct Hc as [(_ & Ha & _)|(_ & _ & a & Ha & _ & Hobj & Hid)];
      unfold distinct_table; rewrite Ha, Hn.
    + repeat split; try assumption. intros b Hin. specialize (Hb b Hin). lia.
    + split; [|split].
      * apply NoDup_map_snoc; [exact Ho|]. rewrite Hobj. apply fresh_obj_fresh.
      * apply NoDup_map_snoc; [exact Hi|]. rewrite Hid. intros H.
        apply in_map_iff in H as (b & Hb1 & Hb2). specialize (Hb b Hb2). lia.
      * intros b Hin. apply in_app_or in Hin as [Hin|[<-|[]]]; [|lia].
        specialize (Hb b Hin). lia.
Qed.

Lemma end_turn_distinct (s s' : GameState) (hc : option (gmap Z Z)) :
  distinct_table s -> end_turn s hc = Some s' -> distinct_table s'.
Proof.
  intros Hd He.
  apply end_turn_cases in He as [->|(pre & p & Ht & Hp & ->)]; [exact Hd|].
  apply turn_resolution_fields in Ht
    as (_ & _ & _ & Hn & _ & _ & (keep & Ha) & _).
  assert (Hpre : distinct_table pre) by (eapply distinct_filter; eassumption).
  destruct (pending_control p && check_control pre (active_player_index pre)).
  - apply (distinct_same_table pre); [reflexivity|reflexivity|exact Hpre].
  - destruct (begin_turn_fields pre p) as (_ & _ & Hb & _ & _ & _ & Hbn & _).
    apply (distinct_same_table pre); assumption.
Qed.

(** In every reachable state the animals on the table are distinct objects
    with distinct instance ids below [next_instance_id]. *)
Lemma reachable_distinct (s : GameState) : reachable s -> distinct_table s.
Proof.
  induction 1 as [deck1 deck2 s Hs|s cid r s' Hr IH Hp|s hc s' Hr IH He].
  - destruct (start_game_eq deck1 deck2) as (s0 & p & E & _ & Ha & _).
    rewrite E in Hs. injection Hs as <-.
    destruct (begin_turn_fields s0 p) as (_ & _ & Hb & _).
    unfold distinct_table. rewrite Hb, Ha. simpl.
    repeat split; try constructor. intros a [].
  - eapply play_card_distinct; eassumption.
  - eapply end_turn_distinct; eassumption.
Qed.

(** The table that [end_turn] hands from the hunting resolver to the
    feeding resolver. *)
Lemma fed_table_distinct (s : GameState) (hc : gmap Z Z) :
  reachable s ->
  List.NoDup (map obj (animals (snd (resolve_hunting s hc))))
  /\ List.NoDup (map instance_id (animals (snd (resolve_hunting s hc)))).
Proof.
  intros Hr. apply reachable_distinct in Hr.
  destruct (resolve_hunting_carrion s hc) as (Hf & _).
  destruct (distinct_frame _ _ Hf Hr) as (Ho & Hi & _). split; assumption.
Qed.

(** *** The duel candidates *)

Lemma insert_desc_perm {A} (key : A -> Z) (x : A) (l : list A) :
  Permutation (insert_desc key x l) (x :: l).
Proof.
  induction l as [|y l IH]; simpl; [reflexivity|].
  destruct (key x <? key y); [|reflexivity].
  rewrite IH. apply perm_swap.
Qed.

Lemma sorted_desc_perm {A} (key : A -> Z) (l : list A) :
  Permutation (sorted_desc key l) l.
Proof.
  induction l as [|x l IH]; simpl; [reflexivity|].
  rewrite insert_desc_perm. constructor. exact IH.
Qed.

Lemma sorted_desc_head {A} (key : A -> Z) (l : list A) (w : A) (rest : list A) :
  sorted_desc key l = w :: rest -> first_heaviest key w l.
Proof.
  revert w rest. induction l as [|x l IH]; intros w rest; simpl; [discriminate|].
  destruct (sorted_desc key l) as [|y r] eqn:E; simpl.
  - intros [= <- <-].
    pose proof (sorted_desc_perm key l) as Hp. rewrite E in Hp.
    apply Permutation_nil in Hp. subst l.
    exists [], []. repeat split; intros a [].
  - destruct (IH y r eq_refl) as (l1 & l2 & -> & H1 & H2).
    destruct (key x <? key y) eqn:Ex.
    + intros [= <- <-]. exists (x :: l1), l2. repeat split; [|exact H2].
      intros a [<-|Ha]; [lia|apply H1, Ha].
    + intros [= <- <-]. exists [], (l1 ++ y :: l2)%list. repeat split; [intros a []|].
      intros a Ha. apply in_app_or in Ha as [Ha|[<-|Ha]].
      * specialize (H1 a Ha). lia.
      * lia.
      * specialize (H2 a Ha). lia.
Qed.

Lemma first_heaviest_In {A} (key : A -> Z) (w : A) (l : list A) :
  first_heaviest key w l -> In w l.
Proof. intros (l1 & l2 & -> & _). apply in_elt. Qed.

(** [sorted_desc] sorts: its result is in descending order of the key. *)
Lemma insert_desc_sorted {A} (key : A -> Z) (x : A) (l : list A) :
  StronglySorted (fun a b => key b <= key a) l ->
  StronglySorted (fun a b => key b <= key a) (insert_desc key x l).
Proof.
  induction l as [|y l IH]; simpl; intros Hs.
  - constructor; [constructor|constructor].
  - inversion Hs as [|? ? Hl Hy]; subst.
    destruct (key x <? key y) eqn:E.
    + constructor; [apply IH, Hl|].
      rewrite List.Forall_forall in *. intros b Hb.
      apply (Permutation_in _ (insert_desc_perm key x l)) in Hb.
      destruct Hb as [<-|Hb]; [lia|apply Hy, Hb].
    + constructor; [exact Hs|].
      constructor; [lia|].
      rewrite List.Forall_forall in *. intros b Hb. specialize (Hy b Hb). lia.
Qed.

Lemma sorted_desc_sorted {A} (key : A -> Z) (l : list A) :
  StronglySorted (fun a b => key b <= key a) (sorted_desc key l).
Proof.
  induction l as [|x l IH]; simpl; [constructor|].
  apply insert_desc_sorted, IH.
Qed.

(** Equal keys keep the order of the input, as with Python's [sorted]. *)
Example sorted_desc_is_stable :
  sorted_desc fst [(1, "a"); (2, "b"); (2, "c"); (1, "d")]
  = [(2, "b"); (2, "c"); (1, "a"); (1, "d")].
Proof. reflexivity. Qed.

(** *** Feeding, level by level *)

Local Abbreviation duel := (duel CARD_INDEX).

Lemma level_animals_In (s : GameState) (lv : Z) (a : AnimalInstance) :
  In a (level_animals s lv) <->
  In a (animals s)
  /\ (type (card_of a) = "Herbivore" \/ type (card_of a) = "Omnivore")
  /\ level (card_of a) = lv.
Proof.
  unfold level_animals. rewrite filter_In, andb_true_iff, herb_or_omni_true, Z.eqb_eq.
  reflexivity.
Qed.

Lemma duel_hungers (s : GameState) (lv : Z) (group : list AnimalInstance)
    (w l : AnimalInstance) :
  List.NoDup (map obj group) -> List.NoDup (map instance_id group) ->
  In w group -> In l group -> w <> l ->
  let s' := duel s lv group w l in
  cn (biome s') = cn (biome s) - lv /\ animals s' = animals s
  /\ hunger s' w = 0
  /\ (forall a, In a group -> a <> w -> hunger s' a = hunger s a + 1)
  /\ (forall o, (forall a, In a group -> obj a <> o) -> hungers s' o = hungers s o).
Proof.
  intros Hno Hni Hw Hl Hwl. unfold duel, hunger. simpl.
  set (others := List.filter _ group).
  assert (Hobj : forall a b, In a group -> In b group -> obj a = obj b -> a = b).
  { intros a b. apply NoDup_map_inj, Hno. }
  assert (Hid : forall a b, In a group -> In b group ->
                            instance_id a = instance_id b -> a = b).
  { intros a b. apply NoDup_map_inj, Hni. }
  assert (Hothers : forall a, In a others <-> In a group /\ a <> w /\ a <> l).
  { intros a. unfold others. rewrite filter_In, negb_true_iff, orb_false_iff, !Z.eqb_neq.
    split.
    - intros (Ha & Hn1 & Hn2). repeat split; [exact Ha|congruence|congruence].
    - intros (Ha & Hn1 & Hn2). repeat split; [exact Ha| |]; intros E.
      + apply Hn1, Hid; assumption.
      + apply Hn2, Hid; assumption. }
  assert (Hnd : List.NoDup (map obj others)) by (apply NoDup_map_filter, Hno).
  assert (Hwl' : obj l <> obj w) by (intros E; apply Hwl; symmetry; apply Hobj; assumption).
  repeat split.
  - rewrite bump_all_out.
    + rewrite store_set_ne by (intros E; apply Hwl'; symmetry; exact E).
      apply store_set_eq.
    + intros a Ha E. apply Hothers in Ha as (Ha & Hne & _).
      apply Hne, Hobj; assumption.
  - intros a Ha Hne.
    destruct (Z.eq_dec (instance_id a) (instance_id l)) as [E|E].
    + assert (a = l) by (apply Hid; assumption). subst a.
      rewrite bump_all_out.
      * rewrite store_set_eq, store_set_ne by exact Hwl'. reflexivity.
      * intros b Hb Eb. apply Hothers in Hb as (Hb & _ & Hbl).
        apply Hbl, Hobj; assumption.
    + assert (Hal : a <> l) by congruence.
      rewrite bump_all_in; [|exact Hnd|apply Hothers; repeat split; assumption].
      rewrite !store_set_ne; [reflexivity| |]; intros Eo.
      * apply Hne, Hobj; assumption.
      * apply Hal, Hobj; assumption.
  - intros o Ho. rewrite bump_all_out.
    + rewrite !store_set_ne; [reflexivity| |]; intros E; subst o.
      * apply (Ho w Hw). reflexivity.
      * apply (Ho l Hl). reflexivity.
    + intros a Ha. apply Ho. apply Hothers in Ha. apply Ha.
Qed.

(** The four branches of the loop body. *)
Lemma feed_level_empty (s : GameState) (lv : Z) :
  level_animals s lv = [] -> feed_level s lv = s.
Proof. intros H. unfold feed_level. rewrite H. reflexivity. Qed.

Lemma feed_level_all_fed (s : GameState) (lv : Z) :
  level_animals s lv <> [] ->
  lv * Z.of_nat (length (level_animals s lv)) <= cn (biome s) ->
  let s' := feed_level s lv in
  cn (biome s') = cn (biome s) - lv * Z.of_nat (length (level_animals s lv))
  /\ animals s' = animals s
  /\ hungers s' = reset_all (level_animals s lv) (hungers s).
Proof.
  intros Hne Hcn. unfold feed_level.
  destruct (level_animals s lv) as [|a0 group] eqn:E; [contradiction|].
  apply Z.geb_le in Hcn. rewrite Hcn. simpl. repeat split.
Qed.

Lemma feed_level_duel (s : GameState) (lv : Z) :
  cn (biome s) < lv * Z.of_nat (length (level_animals s lv)) ->
  2 <= Z.of_nat (length (level_animals s lv)) ->
  lv <= cn (biome s) ->
  exists w l rest msg,
    sorted_desc (fun a => weightKg (card_of a)) (level_animals s lv) = w :: l :: rest
    /\ feed_level s lv = duel (add_log s msg) lv (level_animals s lv) w l.
Proof.
  intros Hlt Hcount Hcn. unfold feed_level.
  pose proof (sorted_desc_perm (fun a => weightKg (card_of a)) (level_animals s lv)) as Hp.
  apply Permutation_length in Hp.
  destruct (level_animals s lv) as [|a0 group] eqn:E; [simpl in Hcount; lia|].
  destruct (cn (biome s) >=? lv * Z.of_nat (length (a0 :: group))) eqn:E1; [lia|].
  destruct (sorted_desc _ (a0 :: group)) as [|w [|l rest]];
    [simpl in Hp; lia|simpl in Hp, Hcount; lia|].
  simpl. apply Z.geb_le in Hcn. rewrite Hcn.
  exists w, l, rest. eexists. split; reflexivity.
Qed.

Lemma feed_level_starve (s : GameState) (lv : Z) :
  level_animals s lv <> [] ->
  cn (biome s) < lv * Z.of_nat (length (level_animals s lv)) ->
  Z.of_nat (length (level_animals s lv)) < 2 \/ cn (biome s) < lv ->
  exists msg, feed_level s lv = starve_level (add_log s msg) (level_animals s lv).
Proof.
  intros Hne Hlt Hor. unfold feed_level.
  pose proof (sorted_desc_perm (fun a => weightKg (card_of a)) (level_animals s lv)) as Hp.
  apply Permutation_length in Hp.
  destruct (level_animals s lv) as [|a0 group] eqn:E; [contradiction|].
  destruct (cn (biome s) >=? lv * Z.of_nat (length (a0 :: group))) eqn:E1; [lia|].
  destruct (sorted_desc _ (a0 :: group)) as [|w [|l rest]];
    try (eexists; reflexivity).
  simpl. destruct (cn (biome s) >=? lv) eqn:E2; [|eexists; reflexivity].
  simpl in Hp. simpl in Hor. lia.
Qed.

Lemma level_animals_ext (s s' : GameState) (lv : Z) :
  animals s' = animals s -> level_animals s' lv = level_animals s lv.
Proof. intros H. unfold level_animals. rewrite H. reflexivity. Qed.

Lemma feed_levels_skip (levels : list Z) (s : GameState) :
  (forall lv, In lv levels -> level_animals s lv = []) ->
  fold_left feed_level levels s = s.
Proof.
  induction levels as [|lv levels IH]; intros H; simpl; [reflexivity|].
  rewrite feed_level_empty by (apply H; left; reflexivity).
  apply IH. intros lv' Hin. apply H. right. exact Hin.
Qed.

Lemma duel_candidates_distinct (group rest : list AnimalInstance) (w l : AnimalInstance) :
  List.NoDup (map obj group) ->
  sorted_desc (fun a => weightKg (card_of a)) group = w :: l :: rest ->
  In w group /\ In l group /\ w <> l.
Proof.
  intros Hnd Hs.
  pose proof (sorted_desc_perm (fun a => weightKg (card_of a)) group) as Hp.
  rewrite Hs in Hp.
  split; [eapply Permutation_in; [exact Hp|left; reflexivity]|].
  split; [eapply Permutation_in; [exact Hp|right; left; reflexivity]|].
  intros ->.
  apply (Permutation_map obj), Permutation_sym in Hp.
  apply (Permutation_NoDup Hp) in Hnd. simpl in Hnd.
  inversion Hnd as [|? ? Hx _]. apply Hx. left. reflexivity.
Qed.

Lemma feed_level_outcome (s : GameState) (lv : Z) :
  List.NoDup (map obj (animals s)) -> List.NoDup (map instance_id (animals s)) ->
  level_outcome s (feed_level s lv) lv.
Proof.
  intros Hno Hni. unfold level_outcome.
  assert (Hgo : List.NoDup (map obj (level_animals s lv)))
    by (apply NoDup_map_filter, Hno).
  assert (Hgi : List.NoDup (map instance_id (level_animals s lv)))
    by (apply NoDup_map_filter, Hni).
  split; [destruct (feed_level_feeding s lv) as (_ & H & _); exact H|].
  split; [|split; [apply feed_level_empty|split; [|split]]].
  - (* objects outside the group *)
    intros o Ho.
    destruct (level_animals s lv) as [|a0 g0] eqn:Eg.
    { rewrite feed_level_empty by exact Eg. reflexivity. }
    assert (Hne : level_animals s lv <> []) by (rewrite Eg; discriminate).
    rewrite <- Eg in *. clear Eg a0 g0.
    destruct (Z_le_gt_dec (lv * Z.of_nat (length (level_animals s lv))) (cn (biome s)))
      as [Hle|Hgt].
    + destruct (feed_level_all_fed s lv Hne Hle) as (_ & _ & ->).
      apply reset_all_out, Ho.
    + destruct (Z_le_gt_dec 2 (Z.of_nat (length (level_animals s lv)))) as [H2|H2];
        [destruct (Z_le_gt_dec lv (cn (biome s))) as [H3|H3]|].
      * destruct (feed_level_duel s lv ltac:(lia) H2 H3) as (w & l & rest & msg & Hs & ->).
        destruct (duel_candidates_distinct _ _ _ _ Hgo Hs) as (Hw & Hl & Hwl).
        apply (duel_hungers (add_log s msg) lv _ w l Hgo Hgi Hw Hl Hwl), Ho.
      * destruct (feed_level_starve s lv Hne ltac:(lia) ltac:(right; lia)) as (msg & ->).
        simpl. apply bump_all_out, Ho.
      * destruct (feed_level_starve s lv Hne ltac:(lia) ltac:(left; lia)) as (msg & ->).
        simpl. apply bump_all_out, Ho.
  - (* everybody eats *)
    intros Hne Hle. destruct (feed_level_all_fed s lv Hne Hle) as (Hcn & _ & Hh).
    split; [exact Hcn|]. intros a Ha. unfold hunger. rewrite Hh.
    apply reset_all_in, Ha.
  - (* the duel *)
    intros Hlt H2 H3.
    destruct (feed_level_duel s lv Hlt H2 H3) as (w & l & rest & msg & Hs & ->).
    destruct (duel_candidates_distinct _ _ _ _ Hgo Hs) as (Hw & Hl & Hwl).
    exists w. split; [eapply sorted_desc_head; exact Hs|].
    destruct (duel_hungers (add_log s msg) lv _ w l Hgo Hgi Hw Hl Hwl)
      as (Hcn & _ & Hw0 & Hrest & _).
    repeat split; assumption.
  - (* nobody eats *)
    intros Hne Hlt Hor. destruct (feed_level_starve s lv Hne Hlt Hor) as (msg & ->).
    simpl. split; [reflexivity|]. intros a Ha. unfold hunger. simpl.
    apply bump_all_in; assumption.
Qed.

(** Scenario C: two level-3 herbivores alone on the table, and food for one. *)
Lemma two_herbivores_duel (s : GameState) (fed : gset Z) (a b : AnimalInstance) :
  animals s = [a; b] -> obj a <> obj b -> instance_id a <> instance_id b ->
  type (card_of a) = "Herbivore" -> type (card_of b) = "Herbivore" ->
  level (card_of a) = 3 -> level (card_of b) = 3 ->
  cn (biome s) = 3 -> 3 <= lmax (biome s) ->
  let a_lighter := weightKg (card_of a) <? weightKg (card_of b) in
  let heavier := if a_lighter then b else a in
  let other := if a_lighter then a else b in
  let s' := resolve_feeding s fed in
  cn (biome s') = 0 /\ hunger s' heavier = 0 /\ hunger s' other = hunger s other + 1.
Proof.
  intros Han Hobj Hid Hta Htb Hla Hlb Hcn Hlmax a_lighter heavier other s'.
  set (s0 := add_log s "Fase de alimentación de CN.").
  assert (Hgroup : forall t lv, animals t = [a; b] ->
            level_animals t lv = if lv =? 3 then [a; b] else []).
  { intros t lv Ht. unfold level_animals. rewrite Ht. cbn [List.filter].
    rewrite Hta, Htb, Hla, Hlb. change (herb_or_omni "Herbivore") with true.
    cbn [andb]. rewrite (Z.eqb_sym 3 lv). destruct (lv =? 3); reflexivity. }
  assert (Hs' : s' = feed_level s0 3).
  { subst s'. unfold resolve_feeding, feed_levels. fold s0.
    replace (lmax (biome s0)) with (3 + (lmax (biome s) - 3)) by (simpl; lia).
    rewrite seqZ_app by lia. rewrite fold_left_app.
    change (seqZ 1 3) with [1; 2; 3]. simpl fold_left at 2.
    rewrite (feed_level_empty s0 1) by (rewrite Hgroup by exact Han; reflexivity).
    rewrite (feed_level_empty s0 2) by (rewrite Hgroup by exact Han; reflexivity).
    assert (Ha1 : animals (feed_level s0 3) = animals s)
      by (destruct (feed_level_feeding s0 3) as (_ & H & _); exact H).
    rewrite feed_levels_skip.
    - unfold starve_carnivores, unfed_carnivores. rewrite Ha1, Han. simpl.
      rewrite Hta, Htb. reflexivity.
    - intros lv Hin. apply list_elem_of_In, elem_of_seqZ in Hin.
      rewrite Hgroup by (rewrite Ha1; exact Han).
      destruct (lv =? 3) eqn:E; [lia|reflexivity]. }
  assert (Hno : List.NoDup (map obj (animals s0))).
  { simpl. rewrite Han. simpl. repeat constructor; simpl; intuition. }
  assert (Hni : List.NoDup (map instance_id (animals s0))).
  { simpl. rewrite Han. simpl. repeat constructor; simpl; intuition. }
  destruct (feed_level_outcome s0 3 Hno Hni) as (_ & _ & _ & _ & Hduel & _).
  rewrite (Hgroup s0 3 Han) in Hduel. simpl in Hduel.
  destruct (Hduel ltac:(lia) ltac:(lia) ltac:(lia)) as (w & Hw & Hc & Hw0 & Hrest).
  rewrite Hs'. split; [lia|].
  destruct Hw as (l1 & l2 & Hsplit & Hlt & Hle).
  subst heavier other a_lighter.
  destruct l1 as [|x [|y l1]].
  - injection Hsplit as <- <-.
    assert (Hb : weightKg (card_of b) <= weightKg (card_of a))
      by (apply (Hle b); left; reflexivity).
    replace (weightKg (card_of a) <? weightKg (card_of b)) with false by lia.
    split; [exact Hw0|]. apply Hrest; [right; left; reflexivity|].
    intros E. apply Hobj. rewrite E. reflexivity.
  - injection Hsplit as <- <- <-.
    assert (Hb : weightKg (card_of a) < weightKg (card_of b))
      by (apply (Hlt a); left; reflexivity).
    replace (weightKg (card_of a) <? weightKg (card_of b)) with true by lia.
    split; [exact Hw0|]. apply Hrest; [left; reflexivity|].
    intros E. apply Hobj. rewrite E. reflexivity.
  - exfalso. apply (f_equal (@length _)) in Hsplit. simpl in Hsplit.
    rewrite length_app in Hsplit. simpl in Hsplit. lia.
Qed.

(** C5.  The feeding resolver runs its loop body once per level, in the
    order 1, 2, ..., [lmax], and then turns to the carnivores.  At a level
    with [count] herbivores and omnivores (each a distinct object with its
    own instance id): when [cn] covers [lv * count], that amount leaves
    [cn] and every one of them has hunger 0; otherwise, when they are at
    least two and [cn] covers [lv], [lv] leaves [cn], the heaviest one (the
    first of the heaviest in table order) has hunger 0 and every other one
    gains 1 hunger; otherwise [cn] stays and every one gains 1 hunger.  No
    other animal's hunger changes at that level.  The table that the
    resolver receives in a game always holds distinct objects with distinct
    ids.  With two level-3 herbivores on the table and [cn = 3], the
    heavier ends with hunger 0, the other gains 1, and [cn] ends at 0. *)
Theorem feeding_by_level :
  (forall s fed,
     resolve_feeding s fed =
     starve_carnivores
       (fold_left feed_level (seqZ 1 (lmax (biome s)))
                  (add_log s "Fase de alimentación de CN."))
       fed)
  /\ (forall n i, (i < Z.to_nat n)%nat -> seqZ 1 n !! i = Some (1 + Z.of_nat i))
  /\ (forall s lv a,
        In a (level_animals s lv) <->
        In a (animals s)
        /\ (type (card_of a) = "Herbivore" \/ type (card_of a) = "Omnivore")
        /\ level (card_of a) = lv)
  /\ (forall s lv,
        List.NoDup (map obj (animals s)) -> List.NoDup (map instance_id (animals s)) ->
        level_outcome s (feed_level s lv) lv)
  /\ (forall s hc,
        reachable s ->
        List.NoDup (map obj (animals (snd (resolve_hunting s hc))))
        /\ List.NoDup (map instance_id (animals (snd (resolve_hunting s hc)))))
  /\ (forall s fed a b,
        animals s = [a; b] -> obj a <> obj b -> instance_id a <> instance_id b ->
        type (card_of a) = "Herbivore" -> type (card_of b) = "Herbivore" ->
        level (card_of a) = 3 -> level (card_of b) = 3 ->
        cn (biome s) = 3 -> 3 <= lmax (biome s) ->
        let a_lighter := weightKg (card_of a) <? weightKg (card_of b) in
        let heavier := if a_lighter then b else a in
        let other := if a_lighter then a else b in
        let s' := resolve_feeding s fed in
        cn (biome s') = 0 /\ hunger s' heavier = 0
        /\ hunger s' other = hunger s other + 1).
Proof.
  split; [reflexivity|].
  split; [intros n i Hi; apply lookup_seqZ_lt; lia|].
  split; [exact level_animals_In|].
  split; [exact feed_level_outcome|].
  split; [exact fed_table_distinct|exact two_herbivores_duel].
Qed.

(** *** Carnivores *)

Lemma hungry_predators_In (s : GameState) (a : AnimalInstance) :
  In a (hungry_predators CARD_INDEX s) <->
  In a (animals s)
  /\ (type (card_of a) = "Carnivore" \/ type (card_of a) = "Omnivore")
  /\ 1 <= hunger s a.
Proof.
  unfold hungry_predators.
  rewrite filter_In, andb_true_iff, carn_or_omni_true, Z.geb_le. reflexivity.
Qed.

Lemma hunt_step_fed (hc : gmap Z Z) (acc : gset Z * GameState) (p : AnimalInstance) :
  fst (hunt_step hc acc p) = fst acc
  \/ fst (hunt_step hc acc p) = fst acc ∪ {[instance_id p]}.
Proof.
  destruct acc as [fed s]. unfold hunt_step. simpl.
  destruct (hc !! instance_id p) as [prey_id|]; [|left; reflexivity].
  destruct (prey_id =? 0); [left; reflexivity|].
  destruct (List.find _ (animals s)) as [prey|]; [|left; reflexivity].
  destruct (negb _); [left; reflexivity|].
  destruct (resolve_single_hunt s p prey) as [[|] s1]; [right|left]; reflexivity.
Qed.

Lemma hunt_fold_fed (hc : gmap Z Z) (l : list AnimalInstance)
    (acc : gset Z * GameState) (id : Z) :
  id ∈ fst (fold_left (hunt_step hc) l acc) ->
  id ∈ fst acc \/ exists p, In p l /\ instance_id p = id.
Proof.
  revert acc. induction l as [|p l IH]; intros acc; simpl; [intros H; left; exact H|].
  intros H. apply IH in H as [H|(q & Hq & Hid)].
  - destruct (hunt_step_fed hc acc p) as [E|E]; rewrite E in H.
    + left. exact H.
    + apply elem_of_union in H as [H|H]; [left; exact H|].
      apply elem_of_singleton in H. right. exists p. split; [left; reflexivity|].
      symmetry. exact H.
  - right. exists q. split; [right; exact Hq|exact Hid].
Qed.

Lemma fed_are_candidates (s : GameState) (hc : gmap Z Z) (id : Z) :
  id ∈ fst (resolve_hunting s hc) ->
  exists p, In p (hungry_predators CARD_INDEX s) /\ instance_id p = id.
Proof.
  unfold resolve_hunting.
  destruct (hungry_predators CARD_INDEX s) as [|p0 l] eqn:E.
  - simpl. intros H. apply elem_of_empty in H. contradiction.
  - intros H. apply hunt_fold_fed in H as [H|H]; [|exact H].
    simpl in H. apply elem_of_empty in H. contradiction.
Qed.

(** The level loop leaves alone the hunger of every object that is not a
    herbivore or an omnivore of the level. *)
Lemma feed_level_hungers_out (s : GameState) (lv : Z) (o : nat) :
  (forall a, In a (level_animals s lv) -> obj a <> o) ->
  hungers (feed_level s lv) o = hungers s o.
Proof.
  intros Ho. unfold feed_level.
  pose proof (sorted_desc_perm (fun a => weightKg (card_of a)) (level_animals s lv)) as Hp.
  destruct (level_animals s lv) as [|a0 group] eqn:E; [reflexivity|].
  destruct (cn (biome s) >=? lv * Z.of_nat (length (a0 :: group)));
    [cbn [hungers add_log set_hungers set_biome]; apply reset_all_out, Ho|].
  destruct (sorted_desc _ (a0 :: group)) as [|w [|l rest]];
    try (unfold starve_level; cbn [hungers add_log set_hungers set_biome];
         apply bump_all_out, Ho).
  destruct (cn (biome (add_log s _)) >=? lv);
    [|unfold starve_level; cbn [hungers add_log set_hungers set_biome];
      apply bump_all_out, Ho].
  unfold duel. cbn [hungers add_log set_hungers set_biome].
  rewrite bump_all_out.
  - rewrite !store_set_ne; [reflexivity| |]; intros Eo; subst o.
    + apply (Ho w); [|reflexivity]. eapply Permutation_in; [exact Hp|left; reflexivity].
    + apply (Ho l); [|reflexivity].
      eapply Permutation_in; [exact Hp|right; left; reflexivity].
  - intros a Ha. apply Ho. apply filter_In in Ha. apply Ha.
Qed.

Lemma feed_levels_hungers_out (levels : list Z) (s : GameState) (o : nat) :
  (forall a, In a (animals s) -> herb_or_omni (type (card_of a)) = true -> obj a <> o) ->
  hungers (fold_left feed_level levels s) o = hungers s o.
Proof.
  revert s. induction levels as [|lv levels IH]; intros s Ho; simpl; [reflexivity|].
  rewrite IH.
  - apply feed_level_hungers_out. intros a Ha.
    apply filter_In in Ha as [Ha Hb]. apply andb_true_iff in Hb as [Hb _].
    apply Ho; assumption.
  - destruct (feed_level_feeding s lv) as (_ & -> & _). exact Ho.
Qed.

Lemma carnivore_not_herb (t : string) : t = "Carnivore" -> herb_or_omni t = false.
Proof. intros ->. reflexivity. Qed.

(** The carnivore pass: one more hunger for the unfed, nothing for the rest. *)
Lemma starve_carnivores_hungers (s : GameState) (fed : gset Z) (a : AnimalInstance) :
  List.NoDup (map obj (animals s)) -> In a (animals s) ->
  hunger (starve_carnivores s fed) a =
  if String.eqb (type (card_of a)) "Carnivore"
     && negb (bool_decide (instance_id a ∈ fed))
  then hunger s a + 1 else hunger s a.
Proof.
  intros Hnd Ha. unfold starve_carnivores, hunger.
  assert (Hin : In a (unfed_carnivores s fed) <->
                String.eqb (type (card_of a)) "Carnivore"
                && negb (bool_decide (instance_id a ∈ fed)) = true).
  { unfold unfed_carnivores. rewrite filter_In. tauto. }
  assert (Hnd' : List.NoDup (map obj (unfed_carnivores s fed)))
    by (apply NoDup_map_filter, Hnd).
  destruct (String.eqb (type (card_of a)) "Carnivore"
            && negb (bool_decide (instance_id a ∈ fed))) eqn:E.
  - assert (Hu : In a (unfed_carnivores s fed)) by (apply Hin; reflexivity).
    destruct (unfed_carnivores s fed) as [|u unfed] eqn:Eu; [destruct Hu|].
    cbn [hungers add_log set_hungers]. apply bump_all_in; assumption.
  - assert (Hout : forall b, In b (unfed_carnivores s fed) -> obj b <> obj a).
    { intros b Hb Eo.
      assert (b = a).
      { apply (NoDup_map_inj obj (animals s)); try assumption.
        unfold unfed_carnivores in Hb. apply filter_In in Hb. apply Hb. }
      subst b. apply Hin in Hb. discriminate. }
    destruct (unfed_carnivores s fed) as [|u unfed] eqn:Eu; [reflexivity|].
    cbn [hungers add_log set_hungers]. apply bump_all_out, Hout.
Qed.

Lemma feed_level_biome_eq (s : GameState) (lv : Z) :
  biome (feed_level s lv) = feed_level_biome (biome s) (level_animals s lv) lv.
Proof.
  unfold feed_level, feed_level_biome.
  destruct (level_animals s lv) as [|a0 group]; [reflexivity|].
  destruct (cn (biome s) >=? lv * Z.of_nat (length (a0 :: group))); [reflexivity|].
  destruct (sorted_desc _ (a0 :: group)) as [|w [|l rest]]; try reflexivity.
  cbn [biome add_log]. destruct (cn (biome s) >=? lv); reflexivity.
Qed.

Lemma feed_levels_biome (levels : list Z) (s : GameState)
    (groups : Z -> list AnimalInstance) :
  (forall lv, level_animals s lv = groups lv) ->
  biome (fold_left feed_level levels s) =
  fold_left (fun b lv => feed_level_biome b (groups lv) lv) levels (biome s).
Proof.
  revert s. induction levels as [|lv levels IH]; intros s Hg; simpl; [reflexivity|].
  rewrite IH.
  - rewrite feed_level_biome_eq, Hg. reflexivity.
  - intros lv'. rewrite <- Hg. apply level_animals_ext.
    destruct (feed_level_feeding s lv) as (_ & H & _). exact H.
Qed.

Lemma level_animals_without_carnivores (s : GameState) (lv : Z) :
  level_animals (without_carnivores s) lv = level_animals s lv.
Proof.
  unfold level_animals, without_carnivores. simpl.
  induction (animals s) as [|a l IH]; simpl; [reflexivity|].
  destruct (String.eqb (type (card_of a)) "Carnivore") eqn:E; simpl.
  - apply String.eqb_eq in E. rewrite (carnivore_not_herb _ E). simpl. exact IH.
  - rewrite IH. reflexivity.
Qed.

Lemma starve_carnivores_biome (s : GameState) (fed : gset Z) :
  biome (starve_carnivores s fed) = biome s.
Proof.
  unfold starve_carnivores. destruct (unfed_carnivores s fed); reflexivity.
Qed.

Lemma feeding_ignores_carnivores (s : GameState) (fed : gset Z) :
  biome (resolve_feeding s fed) = biome (resolve_feeding (without_carnivores s) fed).
Proof.
  unfold resolve_feeding, feed_levels.
  rewrite !starve_carnivores_biome.
  rewrite (feed_levels_biome _ _ (level_animals s)) by reflexivity.
  rewrite (feed_levels_biome _ _ (level_animals s)).
  - reflexivity.
  - intros lv.
    rewrite (level_animals_ext (without_carnivores s)) by reflexivity.
    apply level_animals_without_carnivores.
Qed.

(** C6.  The hunters of a turn are the carnivores and omnivores that are on
    the table with hunger at least 1 when the hunting phase starts: the
    resolver walks exactly that list, and whoever it records as fed is one
    of them.  Hunting does not touch [cn], and the biome the feeding
    resolver leaves is the one it would leave with every strict carnivore
    taken off the table: carnivores draw nothing from the pool.  After the
    level loop a strict carnivore on the table (each animal a distinct
    object, as they are on every table the resolver receives in a game)
    ends the feeding phase with exactly one more hunger when it is not
    recorded as fed by hunting, and with the hunger it had when it is. *)
Theorem carnivores_feed_by_hunting :
  (forall s a,
     In a (hungry_predators CARD_INDEX s) <->
     In a (animals s)
     /\ (type (card_of a) = "Carnivore" \/ type (card_of a) = "Omnivore")
     /\ 1 <= hunger s a)
  /\ (forall s hc id,
        id ∈ fst (resolve_hunting s hc) ->
        exists p, In p (animals s) /\ instance_id p = id
          /\ (type (card_of p) = "Carnivore" \/ type (card_of p) = "Omnivore")
          /\ 1 <= hunger s p)
  /\ (forall s hc, cn (biome (snd (resolve_hunting s hc))) = cn (biome s))
  /\ (forall s fed,
        biome (resolve_feeding s fed) = biome (resolve_feeding (without_carnivores s) fed))
  /\ (forall s fed a,
        List.NoDup (map obj (animals s)) ->
        In a (animals s) -> type (card_of a) = "Carnivore" ->
        hunger (resolve_feeding s fed) a =
        if bool_decide (instance_id a ∈ fed) then hunger s a else hunger s a + 1)
  /\ (forall s hc,
        reachable s -> List.NoDup (map obj (animals (snd (resolve_hunting s hc))))).
Proof.
  split; [exact hungry_predators_In|].
  split.
  { intros s hc id H. apply fed_are_candidates in H as (p & Hp & Hid).
    apply hungry_predators_In in Hp. exists p. tauto. }
  split; [intros s hc; apply resolve_hunting_carrion|].
  split; [exact feeding_ignores_carnivores|].
  split; [|intros s hc Hr; apply (fed_table_distinct s hc Hr)].
  intros s fed a Hnd Ha Ht. unfold resolve_feeding.
  set (s0 := add_log s "Fase de alimentación de CN.").
  assert (Han : animals (feed_levels s0) = animals s)
    by (destruct (feed_levels_feeding s0) as (_ & H & _); exact H).
  rewrite starve_carnivores_hungers by (rewrite Han; assumption).
  rewrite Ht. change (String.eqb "Carnivore" "Carnivore") with true. cbn [andb].
  assert (Hsame : hunger (feed_levels s0) a = hunger s a).
  { unfold hunger, feed_levels. rewrite feed_levels_hungers_out; [reflexivity|].
    intros b Hb Hherb Eo.
    assert (b = a) by (apply (NoDup_map_inj obj (animals s)); assumption).
    subst b. rewrite (carnivore_not_herb _ Ht) in Hherb. discriminate. }
  rewrite Hsame. destruct (bool_decide (instance_id a ∈ fed)); reflexivity.
Qed.

Lemma game_reachable (deck1 deck2 : list string) (calls : list call) (s : GameState) :
  (s0 ← start_game CARD_INDEX deck1 deck2; run CARD_INDEX calls s0) = Some s ->
  reachable s.
Proof.
  destruct (start_game CARD_INDEX deck1 deck2) as [s0|] eqn:E; [simpl|discriminate].
  intros H. eapply run_reachable; [|exact H]. eapply reach_start. exact E.
Qed.

End Properties.

(** ** The engine at work on the sample catalogue *)

Lemma catalogue_of_forall (P : Card -> Prop) (table : list (string * Card)) :
  P (mkCard "" "" "" 0 0 0 0 0 0 0) ->
  Forall (fun e => P (snd e)) table ->
  forall cid, P (catalogue_of table cid).
Proof.
  intros Hd Hall cid. unfold catalogue_of.
  destruct (List.find _ table) as [e|] eqn:E; [|exact Hd].
  apply find_some in E as [Hin _].
  rewrite List.Forall_forall in Hall. apply Hall, Hin.
Qed.

Lemma sample_plants_feed (cid : string) :
  kind (sample_catalogue cid) = "plant" -> 0 <= cnPerTurn (sample_catalogue cid).
Proof.
  revert cid.
  apply (catalogue_of_forall (fun c => kind c = "plant" -> 0 <= cnPerTurn c) sample_table);
    [intros; simpl; lia|].
  repeat constructor; simpl; intros; lia.
Qed.

Lemma sample_animals_have_levels (cid : string) :
  kind (sample_catalogue cid) = "animal" -> 0 <= level (sample_catalogue cid).
Proof.
  revert cid.
  apply (catalogue_of_forall (fun c => kind c = "animal" -> 0 <= level c) sample_table);
    [intros; simpl; lia|].
  repeat constructor; simpl; intros; lia.
Qed.

(** The failed confirmation of the first sample game: player 1 holds the
    flag, the wolf has eaten player 1's rabbit, [start_turn] declares no
    winner, and the flag is still set when it returns. *)
Lemma flag_survives_failed_confirmation :
  exists pre player s',
    sample_broken = Some pre
    /\ players pre !! active_player_index pre = Some player
    /\ pending_control player = true
    /\ check_control sample_catalogue pre (active_player_index pre) = false
    /\ start_turn sample_catalogue pre = Some s'
    /\ winner s' = None
    /\ pending_at s' (active_player_index pre) = Some true
    /\ pending_at s' (active_player_index pre) <> Some false.
Proof.
  eexists. eexists. eexists.
  split; [vm_compute; reflexivity|].
  split; [vm_compute; reflexivity|].
  split; [reflexivity|].
  split; [vm_compute; reflexivity|].
  split; [vm_compute; reflexivity|].
  split; [reflexivity|].
  split; [vm_compute; reflexivity|].
  vm_compute. discriminate.
Qed.

(** The confirmed win of the first sample game: player 2 has played two
    cards, ends the turn, and the [start_turn] call that closes [end_turn]
    declares player 1 the winner and leaves [actions_used] at 2. *)
Lemma actions_used_after_confirmed_win :
  exists s8 pre s',
    sample_turn8 = Some s8
    /\ reachable sample_catalogue s8
    /\ turn_resolution sample_catalogue s8 {[17 := 16]} = Some pre
    /\ start_turn sample_catalogue pre = Some s'
    /\ end_turn sample_catalogue s8 (Some {[17 := 16]}) = Some s'
    /\ reachable sample_catalogue s'
    /\ winner s' = Some "Jugador 1"
    /\ actions_used s' = 2
    /\ actions_used s' <> 0.
Proof.
  eexists. eexists. eexists.
  split; [vm_compute; reflexivity|].
  assert (Hr : forall s, sample_turn8 = Some s -> reachable sample_catalogue s)
    by (intros s; apply game_reachable).
  split; [apply Hr; vm_compute; reflexivity|].
  split; [vm_compute; reflexivity|].
  split; [vm_compute; reflexivity|].
  split; [vm_compute; reflexivity|].
  split.
  { apply (game_reachable sample_catalogue sample_deck1 sample_deck2
             (sample_calls ++ [EndTurn (Some {[17 := 16]})])).
    vm_compute. reflexivity. }
  split; [reflexivity|]. split; [reflexivity|]. discriminate.
Qed.

(** C10.  [resolve_hunting] builds its list of hunters once, before the
    first hunt.  In the second sample game the list is the bear and then
    the boar.  The bear's hunt takes the boar off the table; the boar is
    still in the list, so its own hunt is resolved next, on a table it is
    no longer part of: it takes the rabbit off the table, adds the
    rabbit's level to [cc], and is recorded as fed by hunting. *)
Theorem removed_predator_still_hunts :
  exists s bear boar rabbit,
    hunt_game = Some s
    /\ reachable sample_catalogue s
    /\ hungry_predators sample_catalogue s = [bear; boar]
    /\ In rabbit (animals s)
    /\ hunt_choices !! instance_id bear = Some (instance_id boar)
    /\ hunt_choices !! instance_id boar = Some (instance_id rabbit)
    /\ let start := (∅, add_log s "Fase de caza iniciada.") in
       let after_bear := hunt_step sample_catalogue hunt_choices start bear in
       let after_boar := hunt_step sample_catalogue hunt_choices after_bear boar in
       resolve_hunting sample_catalogue s hunt_choices = after_boar
       /\ ~ In boar (animals (snd after_bear))
       /\ In rabbit (animals (snd after_bear))
       /\ (instance_id boar ∉ fst after_bear)
       /\ ~ In rabbit (animals (snd after_boar))
       /\ cc (biome (snd after_boar)) =
          cc (biome (snd after_bear)) + level (sample_catalogue (card_id rabbit))
       /\ (instance_id boar ∈ fst after_boar)
       /\ ~ In boar (animals (snd after_boar)).
Proof.
  eexists.
  exists (mkAnimal 2 2 "oso" 0), (mkAnimal 3 3 "jabali" 0), (mkAnimal 4 4 "conejo" 1).
  split; [vm_compute; reflexivity|].
  split.
  { apply (game_reachable sample_catalogue ["ciervo"; "oso"; "jabali"] ["conejo"]
             hunt_calls).
    vm_compute. reflexivity. }
  split; [vm_compute; reflexivity|].
  split; [vm_compute; tauto|].
  split; [vm_compute; reflexivity|].
  split; [vm_compute; reflexivity|].
  cbv zeta.
  split; [vm_compute; reflexivity|].
  split; [vm_compute; intuition discriminate|].
  split; [vm_compute; tauto|].
  split.
  { match goal with |- ?x ∉ ?X => apply (bool_decide_eq_false_1 (x ∈ X)) end.
    vm_compute. reflexivity. }
  split; [vm_compute; intuition discriminate|].
  split; [vm_compute; reflexivity|].
  split.
  { match goal with |- ?x ∈ ?X => apply (bool_decide_eq_true_1 (x ∈ X)) end.
    vm_compute. reflexivity. }
  vm_compute; intuition discriminate.
Qed.

(** *** The theorems at concrete inputs *)

Lemma control_confirmation_at_stalled_state :
  players stalled_state !! active_player_index stalled_state = Some stalled_player
  /\ (start_turn sample_catalogue stalled_state
        = Some (declare_winner stalled_state stalled_player) <->
      pending_control stalled_player = true
      /\ check_control sample_catalogue stalled_state
                       (active_player_index stalled_state) = true)
  /\ (start_turn sample_catalogue stalled_state
        <> Some (declare_winner stalled_state stalled_player) ->
      exists s', start_turn sample_catalogue stalled_state = Some s'
                 /\ winner s' = winner stalled_state).
Proof.
  split; [reflexivity|].
  pose proof (control_confirmation sample_catalogue stalled_state stalled_player eq_refl)
    as (_ & H1 & _ & _ & H2).
  split; [exact H1|exact H2].
Defined.

Lemma unconfirmed_control_at_stalled_state :
  players stalled_state !! active_player_index stalled_state = Some stalled_player
  /\ pending_control stalled_player = true
  /\ check_control sample_catalogue stalled_state (active_player_index stalled_state) = false
  /\ exists s', start_turn sample_catalogue stalled_state = Some s'
       /\ winner s' = winner stalled_state
       /\ actions_used s' = 0
       /\ pending_at s' (active_player_index stalled_state) = Some true.
Proof.
  split; [reflexivity|]. split; [reflexivity|]. split; [reflexivity|].
  apply (unconfirmed_control_keeps_flag sample_catalogue stalled_state stalled_player);
    reflexivity.
Defined.

Lemma game_over_at_won_state :
  winner won_state = Some "Jugador 1" /\ "Jugador 1" <> ""
  /\ (forall hc, end_turn sample_catalogue won_state hc = Some won_state)
  /\ (forall cid,
        play_card sample_catalogue won_state cid
          = Some (false, add_log won_state "La partida ya terminó.")
        /\ forall r s', play_card sample_catalogue won_state cid = Some (r, s') ->
                        r = false /\ same_game won_state s').
Proof.
  split; [reflexivity|]. split; [discriminate|].
  apply (game_over_is_terminal sample_catalogue won_state "Jugador 1");
    [reflexivity|discriminate].
Defined.

Lemma cn_never_negative_on_sample :
  (forall cid, kind (sample_catalogue cid) = "plant" ->
               0 <= cnPerTurn (sample_catalogue cid))
  /\ (forall cid, kind (sample_catalogue cid) = "animal" ->
                  0 <= level (sample_catalogue cid))
  /\ (forall s, reachable sample_catalogue s -> 0 <= cn (biome s))
  /\ (forall s fed, 0 <= cn (biome s) ->
                    0 <= cn (biome (resolve_feeding sample_catalogue s fed)))
  /\ (forall s hc,
        reachable sample_catalogue s ->
        0 <= cn (biome (resolve_feeding sample_catalogue
                          (snd (resolve_hunting sample_catalogue s hc))
                          (fst (resolve_hunting sample_catalogue s hc))))).
Proof.
  split; [exact sample_plants_feed|]. split; [exact sample_animals_have_levels|].
  exact (cn_never_negative sample_catalogue sample_plants_feed sample_animals_have_levels).
Defined.

Lemma can_play_animal_at_duel_state :
  type (sample_catalogue "ciervo") = "Herbivore"
  /\ type (sample_catalogue "lobo") = "Carnivore"
  /\ (fst (can_play_animal sample_catalogue duel_state (sample_catalogue "ciervo")) = true
      <-> level (sample_catalogue "ciervo") <= cn (biome duel_state))
  /\ (fst (can_play_animal sample_catalogue duel_state (sample_catalogue "lobo")) = true
      <-> viable_prey_on_table sample_catalogue duel_state
                               (level (sample_catalogue "lobo"))).
Proof.
  split; [reflexivity|]. split; [reflexivity|].
  split.
  - exact (proj1 (can_play_animal_legal sample_catalogue duel_state
                    (sample_catalogue "ciervo")) eq_refl).
  - exact (proj1 (proj2 (can_play_animal_legal sample_catalogue duel_state
                           (sample_catalogue "lobo"))) eq_refl).
Defined.

Lemma bear_hunts_deer :
  let bear := mkAnimal 3 3 "oso" 0 in
  let deer := mkAnimal 1 1 "ciervo" 0 in
  attack (sample_catalogue "oso") = 50 /\ weightKg (sample_catalogue "oso") = 800
  /\ defense (sample_catalogue "ciervo") = 40 /\ weightKg (sample_catalogue "ciervo") = 300
  /\ ~ evaded sample_catalogue bear deer
  /\ attack_score (sample_catalogue "oso") = 66
  /\ defense_score (sample_catalogue "ciervo") = 47
  /\ fst (resolve_single_hunt sample_catalogue duel_state bear deer) = true.
Proof.
  intros bear deer.
  assert (Hne : ~ evaded sample_catalogue bear deer).
  { unfold evaded. vm_compute. intros [H _]. discriminate H. }
  pose proof (single_hunt_outcome sample_catalogue duel_state bear deer) as H.
  cbv zeta in H. destruct H as (_ & _ & _ & _ & _ & _ & _ & H).
  destruct (H eq_refl eq_refl eq_refl eq_refl) as (Ha & Hd & Hok).
  repeat (split; [reflexivity|]). split; [exact Hne|].
  split; [exact Ha|]. split; [exact Hd|exact (Hok Hne)].
Defined.

Lemma moose_wins_the_duel :
  let deer := mkAnimal 1 1 "ciervo" 0 in
  let moose := mkAnimal 2 2 "alce" 1 in
  animals duel_state = [deer; moose] /\ cn (biome duel_state) = 3
  /\ cn (biome (resolve_feeding sample_catalogue duel_state ∅)) = 0
  /\ hunger (resolve_feeding sample_catalogue duel_state ∅) moose = 0
  /\ hunger (resolve_feeding sample_catalogue duel_state ∅) deer
     = hunger duel_state deer + 1.
Proof.
  intros deer moose. split; [reflexivity|]. split; [reflexivity|].
  pose proof (feeding_by_level sample_catalogue) as (_ & _ & _ & _ & _ & H).
  apply (H duel_state ∅ deer moose); try reflexivity; simpl; lia.
Defined.

Lemma unfed_wolf_gets_hungrier :
  let wolf := mkAnimal 2 2 "lobo" 1 in
  List.NoDup (map obj (animals pack_state)) /\ In wolf (animals pack_state)
  /\ type (sample_catalogue "lobo") = "Carnivore"
  /\ hunger (resolve_feeding sample_catalogue pack_state ∅) wolf
     = hunger pack_state wolf + 1.
Proof.
  intros wolf.
  assert (Hnd : List.NoDup (map obj (animals pack_state))).
  { simpl. repeat constructor; simpl; intuition lia. }
  assert (Hin : In wolf (animals pack_state)) by (right; left; reflexivity).
  split; [exact Hnd|]. split; [exact Hin|]. split; [reflexivity|].
  pose proof (carnivores_feed_by_hunting sample_catalogue) as (_ & _ & _ & _ & H & _).
  exact (H pack_state ∅ wolf Hnd Hin eq_refl).
Defined.

Lemma start_turn_resets_stalled_state :
  players stalled_state !! active_player_index stalled_state = Some stalled_player
  /\ start_turn sample_catalogue stalled_state
       = Some (begin_turn sample_catalogue stalled_state stalled_player)
  /\ actions_used stalled_state = 1
  /\ actions_used (begin_turn sample_catalogue stalled_state stalled_player) = 0.
Proof.
  split; [reflexivity|]. split; [reflexivity|]. split; [reflexivity|].
  pose proof (actions_used_budget sample_catalogue) as (_ & _ & H).
  exact (proj2 (H stalled_state stalled_player _ eq_refl eq_refl)).
Defined.

(** ** More of the engine *)

Section Bookkeeping.

Variable CARD_INDEX : string -> Card.

Local Abbreviation card_of := (card_of CARD_INDEX).
Local Abbreviation check_control := (check_control CARD_INDEX).
Local Abbreviation start_turn := (start_turn CARD_INDEX).
Local Abbreviation begin_turn := (begin_turn CARD_INDEX).
Local Abbreviation start_game := (start_game CARD_INDEX).
Local Abbreviation can_play_animal := (can_play_animal CARD_INDEX).
Local Abbreviation play_card := (play_card CARD_INDEX).
Local Abbreviation end_turn := (end_turn CARD_INDEX).
Local Abbreviation turn_resolution := (turn_resolution CARD_INDEX).
Local Abbreviation resolve_hunting := (resolve_hunting CARD_INDEX).
Local Abbreviation resolve_single_hunt := (resolve_single_hunt CARD_INDEX).
Local Abbreviation hunt_step := (hunt_step CARD_INDEX).
Local Abbreviation resolve_feeding := (resolve_feeding CARD_INDEX).
Local Abbreviation feed_level := (feed_level CARD_INDEX).
Local Abbreviation feed_levels := (feed_levels CARD_INDEX).
Local Abbreviation starve_carnivores := (starve_carnivores CARD_INDEX).
Local Abbreviation resolve_starvation := (resolve_starvation CARD_INDEX).
Local Abbreviation mark_control := (mark_control CARD_INDEX).
Local Abbreviation reachable := (reachable CARD_INDEX).
Local Abbreviation total_level := (total_level CARD_INDEX).
Local Abbreviation plant_food := (plant_food CARD_INDEX).
Local Abbreviation conserves := (conserves CARD_INDEX).
Local Abbreviation playable := (playable CARD_INDEX).
Local Abbreviation is_viable_prey := (is_viable_prey CARD_INDEX).
Local Abbreviation find_viable_prey := (find_viable_prey CARD_INDEX).
Local Abbreviation get_prey_options := (get_prey_options CARD_INDEX).
Local Abbreviation prey_option := (prey_option CARD_INDEX).
Local Abbreviation display_step := (display_step CARD_INDEX).
Local Abbreviation get_display_animals_by_level :=
  (get_display_animals_by_level CARD_INDEX).

(** *** Drawing *)

Lemma draw_cards_take_drop (target_size : Z) (hand deck : list string) :
  draw_cards target_size hand deck
  = ((hand ++ take (drawn target_size hand deck) deck)%list,
     drop (drawn target_size hand deck) deck).
Proof.
  revert hand. induction deck as [|c deck IH]; intros hand.
  - unfold drawn. simpl. replace (Z.to_nat _) with 0%nat by lia.
    simpl. rewrite app_nil_r. reflexivity.
  - simpl draw_cards. destruct (Z.of_nat (length hand) <? target_size) eqn:E.
    + rewrite IH.
      assert (Hk : drawn target_size hand (c :: deck)
                   = S (drawn target_size (hand ++ [c]) deck)).
      { unfold drawn. rewrite length_app. simpl length. lia. }
      rewrite Hk. simpl. rewrite <- app_assoc. reflexivity.
    + assert (Hk : drawn target_size hand (c :: deck) = 0%nat)
        by (unfold drawn; lia).
      rewrite Hk. simpl. rewrite app_nil_r. reflexivity.
Qed.

(** X1.  [draw_to_hand] moves cards from the front of the player's deck to
    the end of the hand, in order, until the hand holds [target_size] cards
    or the deck is empty: it moves [min(max(0, target - len(hand)),
    len(deck))] cards, none when the hand is already full.  No card is lost
    or made, the other players and the rest of the game are not touched,
    and one line is logged. *)
Theorem draw_to_hand_moves_cards (s : GameState) (i : nat) (player : PlayerState)
    (target_size : Z) :
  players s !! i = Some player ->
  let k := drawn target_size (hand player) (deck player) in
  let s' := draw_to_hand s i player target_size in
  players s' !! i
    = Some (mkPlayer (name player) (drop k (deck player))
                     (hand player ++ take k (deck player)) (pending_control player))
  /\ (forall j, j <> i -> players s' !! j = players s !! j)
  /\ length (players s') = length (players s)
  /\ (forall p', players s' !! i = Some p' ->
        (hand p' ++ deck p')%list = (hand player ++ deck player)%list
        /\ (target_size <= Z.of_nat (length (hand p')) \/ deck p' = [])
        /\ (target_size <= Z.of_nat (length (hand player)) -> p' = player))
  /\ biome s' = biome s /\ animals s' = animals s /\ hungers s' = hungers s
  /\ plants s' = plants s /\ active_player_index s' = active_player_index s
  /\ actions_used s' = actions_used s /\ next_instance_id s' = next_instance_id s
  /\ winner s' = winner s
  /\ exists line, log s' = (log s ++ [line])%list.
Proof.
  intros Hp k s'. subst s'. unfold draw_to_hand.
  rewrite draw_cards_take_drop. fold k. cbn [players set_players add_log].
  assert (Hi : (i < length (players s))%nat) by (eapply lookup_lt_Some; exact Hp).
  assert (Hlook : <[i := set_hand_deck (hand player ++ take k (deck player))
                           (drop k (deck player)) player]> (players s) !! i
                  = Some (mkPlayer (name player) (drop k (deck player))
                                   (hand player ++ take k (deck player))
                                   (pending_control player))).
  { rewrite list_lookup_insert_eq by exact Hi. reflexivity. }
  split; [exact Hlook|].
  split; [intros j Hj; apply list_lookup_insert_ne; congruence|].
  split; [apply length_insert|].
  split.
  { intros p' Hp'. rewrite Hlook in Hp'. injection Hp' as <-. cbn [hand deck].
    split; [rewrite <- app_assoc, take_drop; reflexivity|].
    split.
    - rewrite length_app, length_take. unfold k, drawn.
      destruct (Z_le_gt_dec target_size
                  (Z.of_nat (length (hand player)) + Z.of_nat (length (deck player))))
        as [Hle|Hgt].
      + left. lia.
      + right. apply nil_length_inv. rewrite length_drop. lia.
    - intros Hfull. assert (Hk : k = 0%nat) by (unfold k, drawn; lia).
      rewrite Hk. simpl. rewrite app_nil_r, drop_0. destruct player; reflexivity. }
  simpl. repeat split. eexists. reflexivity.
Qed.

(** The state that [start_game] returns. *)
Lemma start_game_state (deck1 deck2 : list string) :
  exists s,
    start_game deck1 deck2 = Some s
    /\ players s = [mkPlayer "Jugador 1" (drop 8 deck1) (take 8 deck1) false;
                    mkPlayer "Jugador 2" deck2 [] false]
    /\ biome s = mkBiome "Bosque" 4 6 0 0 4
    /\ animals s = [] /\ plants s = []
    /\ (forall o, hungers s o = 0)
    /\ active_player_index s = 0%nat /\ actions_used s = 0
    /\ next_instance_id s = 1 /\ winner s = None
    /\ length (log s) = 3%nat.
Proof.
  eexists. unfold start_game, start_turn, begin_turn, draw_to_hand.
  cbn [players add_log set_actions_used mbind option_bind lookup list_lookup
       active_player_index pending_control andb hand deck plants map sum_Z
       fold_right set_biome biome set_cn set_cn_temp cn_base cn_temp cn name].
  rewrite draw_cards_take_drop.
  split; [reflexivity|].
  assert (Hk : take (drawn 8 [] deck1) deck1 = take 8 deck1
               /\ drop (drawn 8 [] deck1) deck1 = drop 8 deck1).
  { unfold drawn. simpl length.
    destruct (Z_le_gt_dec 8 (Z.of_nat (length deck1))) as [Hle|Hgt].
    - replace (Z.to_nat _) with 8%nat by lia. split; reflexivity.
    - replace (Z.to_nat _) with (length deck1) by lia.
      rewrite take_ge, drop_ge, (take_ge deck1 8), (drop_ge deck1 8) by lia.
      split; reflexivity. }
  destruct Hk as [Ht Hd].
  cbn [players set_players add_log insert list_insert app set_hand_deck name
       pending_control biome animals plants hungers active_player_index
       actions_used next_instance_id winner log length].
  rewrite Ht, Hd. repeat split.
Qed.

(** X2.  A new game starts with no winner, an empty table, player 1 to
    move with no action used, and [cn = 4]: the base food of the forest,
    the only biome.  Only player 1 has drawn: their hand is the first
    eight cards of their deck (all of it when it is shorter); player 2
    still holds the whole deck and an empty hand. *)
Theorem start_game_deals_first_hand (deck1 deck2 : list string) :
  exists s,
    start_game deck1 deck2 = Some s
    /\ players s = [mkPlayer "Jugador 1" (drop 8 deck1) (take 8 deck1) false;
                    mkPlayer "Jugador 2" deck2 [] false]
    /\ biome s = mkBiome "Bosque" 4 6 0 0 4
    /\ animals s = [] /\ plants s = []
    /\ (forall o, hungers s o = 0)
    /\ active_player_index s = 0%nat /\ actions_used s = 0
    /\ next_instance_id s = 1 /\ winner s = None
    /\ length (log s) = 3%nat.
Proof. apply start_game_state. Qed.

(** *** Starvation *)

Lemma total_level_split (f : AnimalInstance -> bool) (l : list AnimalInstance) :
  total_level (List.filter f l) + total_level (List.filter (fun a => negb (f a)) l)
  = total_level l.
Proof.
  unfold total_level. induction l as [|a l IH]; simpl; [reflexivity|].
  destruct (f a); simpl; lia.
Qed.

(** The comparison [a not in dead] of [resolve_starvation], which goes by
    object identity and by the dataclass equality, keeps exactly the
    animals that are not starving. *)
Lemma starvation_keeps (s t : GameState) :
  hungers t = hungers s ->
  List.filter
    (fun a => negb (existsb (animal_eq t a)
                      (List.filter (fun animal => hunger s animal >=? 2) (animals s))))
    (animals s)
  = List.filter (fun a => hunger s a <? 2) (animals s).
Proof.
  intros Hh. apply filter_ext_in. intros a Ha.
  destruct (hunger s a <? 2) eqn:E.
  - apply negb_true_iff. apply not_true_is_false. intros Hex.
    apply existsb_exists in Hex as (d & Hd & Heq).
    apply filter_In in Hd as [_ Hd].
    unfold animal_eq, hunger in *. rewrite Hh in Heq.
    apply orb_true_iff in Heq as [Heq|Heq].
    + apply Nat.eqb_eq in Heq. rewrite Heq in E. lia.
    + apply andb_true_iff in Heq as [_ Heq]. lia.
  - apply negb_false_iff. apply existsb_exists. exists a. split.
    + apply filter_In. split; [exact Ha|]. lia.
    + unfold animal_eq. rewrite Nat.eqb_refl. reflexivity.
Qed.

Lemma filter_none {A} (l : list A) : List.filter (fun _ => false) l = [].
Proof. induction l as [|x l IH]; simpl; [reflexivity|exact IH]. Qed.

Lemma filter_nil_all_false {A} (f : A -> bool) (l : list A) :
  List.filter f l = [] -> forall a, In a l -> f a = false.
Proof.
  intros H a Ha. destruct (f a) eqn:E; [|reflexivity].
  assert (Hin : In a (List.filter f l)) by (apply filter_In; split; assumption).
  rewrite H in Hin. destruct Hin.
Qed.

Lemma resolve_starvation_fields (s : GameState) :
  let s' := resolve_starvation s in
  animals s' = List.filter (fun a => hunger s a <? 2) (animals s)
  /\ cc (biome s')
     = cc (biome s)
       + total_level (List.filter (fun a => hunger s a >=? 2) (animals s))
  /\ hungers s' = hungers s /\ cn (biome s') = cn (biome s)
  /\ frame s s'.
Proof.
  assert (Hframe : frame s (resolve_starvation s)) by apply resolve_starvation_carrion.
  assert (Hcn : cn (biome (resolve_starvation s)) = cn (biome s))
    by apply resolve_starvation_carrion.
  cbv zeta. split; [|split; [|split; [|split; [exact Hcn|exact Hframe]]]];
    clear Hframe Hcn; unfold resolve_starvation.
  - destruct (List.filter (fun animal => hunger s animal >=? 2) (animals s))
      as [|d dead] eqn:E.
    + cbn [animals add_log]. rewrite <- (filter_all (animals s)) at 1.
      apply filter_ext_in. intros a Ha.
      pose proof (filter_nil_all_false _ _ E a Ha) as Hf. simpl in Hf. lia.
    + rewrite <- E.
      set (victims := List.filter (fun animal => hunger s animal >=? 2) (animals s)).
      destruct (bury_all CARD_INDEX victims s) as (Ha & Hh & _).
      cbn [animals set_animals]. rewrite Ha. apply starvation_keeps, Hh.
  - destruct (List.filter (fun animal => hunger s animal >=? 2) (animals s))
      as [|d dead] eqn:E.
    + cbn [biome add_log]. unfold total_level. simpl. lia.
    + rewrite <- E.
      set (victims := List.filter (fun animal => hunger s animal >=? 2) (animals s)).
      destruct (bury_all CARD_INDEX victims s) as (_ & _ & _ & _ & Hcc).
      cbn [biome set_animals]. exact Hcc.
  - destruct (List.filter (fun animal => hunger s animal >=? 2) (animals s))
      as [|d dead] eqn:E.
    + reflexivity.
    + rewrite <- E.
      set (victims := List.filter (fun animal => hunger s animal >=? 2) (animals s)).
      destruct (bury_all CARD_INDEX victims s) as (_ & Hh & _).
      cbn [hungers set_animals]. exact Hh.
Qed.

(** X3.  [resolve_starvation] takes off the table exactly the animals whose
    hunger is 2 or more and keeps the others in their order, so that no
    animal with hunger 2 or more is left; it adds the levels of the dead to
    [cc], which keeps [cc] plus the levels on the table constant, and it
    touches no hunger, no food and no player.  Run again at once, it
    removes nothing and leaves [cc] alone. *)
Theorem starvation_clears_the_starving (s : GameState) :
  let s' := resolve_starvation s in
  animals s' = List.filter (fun a => hunger s a <? 2) (animals s)
  /\ (forall a, In a (animals s') -> hunger s' a < 2)
  /\ cc (biome s')
     = cc (biome s)
       + total_level (List.filter (fun a => hunger s a >=? 2) (animals s))
  /\ cc (biome s') + total_level (animals s') = cc (biome s) + total_level (animals s)
  /\ hungers s' = hungers s /\ cn (biome s') = cn (biome s)
  /\ cn_temp (biome s') = cn_temp (biome s)
  /\ players s' = players s /\ plants s' = plants s
  /\ animals (resolve_starvation s') = animals s'
  /\ cc (biome (resolve_starvation s')) = cc (biome s').
Proof.
  intros s'.
  destruct (resolve_starvation_fields s) as (Ha & Hcc & Hh & Hcn & Hf).
  fold s' in Ha, Hcc, Hh, Hcn, Hf.
  destruct Hf as (Hp & Hpl & _ & _ & _ & _ & _ & _ & Ht & _).
  assert (Hlow : forall a, In a (animals s') -> hunger s' a < 2).
  { intros a Hin. rewrite Ha in Hin. apply filter_In in Hin as [_ Hin].
    unfold hunger in *. rewrite Hh. lia. }
  destruct (resolve_starvation_fields s') as (Ha' & Hcc' & _).
  assert (Hnone : List.filter (fun a => hunger s' a >=? 2) (animals s') = []).
  { rewrite <- (filter_none (animals s')).
    apply filter_ext_in. intros a Hin. specialize (Hlow a Hin). lia. }
  split; [exact Ha|]. split; [exact Hlow|]. split; [exact Hcc|].
  split.
  { rewrite Hcc, Ha.
    pose proof (total_level_split (fun a => hunger s a >=? 2) (animals s)) as Hs.
    rewrite (filter_ext (fun a => hunger s a <? 2)
                        (fun a => negb (hunger s a >=? 2))) by (intros a; lia).
    cbv beta in Hs. lia. }
  repeat (split; [assumption|]).
  split.
  - rewrite Ha'. rewrite <- (filter_all (animals s')) at 2.
    apply filter_ext_in. intros a Hin. specialize (Hlow a Hin). lia.
  - rewrite Hcc', Hnone. unfold total_level. simpl. lia.
Qed.

(** *** Carrion *)

Lemma total_level_remove (prey : AnimalInstance) (l : list AnimalInstance) :
  List.NoDup (map instance_id l) -> In prey l ->
  total_level (List.filter (fun a => negb (instance_id a =? instance_id prey)) l)
  = total_level l - level (card_of prey).
Proof.
  unfold total_level. induction l as [|x l IH]; simpl; [intros _ []|].
  intros Hnd Hin. inversion Hnd as [|? ? Hx Hnd']; subst.
  destruct Hin as [->|Hin].
  - rewrite Z.eqb_refl. simpl.
    rewrite (filter_ext_in _ (fun _ => true)), filter_all; [lia|].
    intros a Ha. apply negb_true_iff, Z.eqb_neq. intros E.
    apply Hx. rewrite <- E. apply in_map, Ha.
  - destruct (instance_id x =? instance_id prey) eqn:E; simpl.
    + exfalso. apply Z.eqb_eq in E. apply Hx. rewrite E. apply in_map, Hin.
    + rewrite (IH Hnd' Hin). lia.
Qed.

Lemma conserves_refl (s : GameState) : conserves s s.
Proof. intros H. split; [exact H|reflexivity]. Qed.

Lemma conserves_trans (s1 s2 s3 : GameState) :
  conserves s1 s2 -> conserves s2 s3 -> conserves s1 s3.
Proof.
  intros H1 H2 Hnd. destruct (H1 Hnd) as [Hnd2 E1]. destruct (H2 Hnd2) as [Hnd3 E2].
  split; [exact Hnd3|lia].
Qed.

Lemma conserves_same_game (s s' : GameState) : same_game s s' -> conserves s s'.
Proof.
  unfold same_game. intros H Hnd. decompose [and] H.
  replace (animals s') with (animals s) by congruence.
  replace (biome s') with (biome s) by congruence. split; [exact Hnd|reflexivity].
Qed.

Lemma single_hunt_conserves (s : GameState) (predator prey : AnimalInstance) :
  In prey (animals s) -> conserves s (snd (resolve_single_hunt s predator prey)).
Proof.
  intros Hin.
  destruct (single_hunt_cases CARD_INDEX s predator prey) as (_ & Hk & Hf).
  destruct (fst (resolve_single_hunt s predator prey)) eqn:E.
  - destruct (Hk eq_refl) as [(Ha & Hcc & _) _]. intros Hnd. rewrite Ha, Hcc.
    split; [apply NoDup_map_filter, Hnd|].
    rewrite (total_level_remove prey _ Hnd Hin). lia.
  - apply conserves_same_game, Hf. reflexivity.
Qed.

Lemma hunt_step_conserves (hc : gmap Z Z) (acc : gset Z * GameState)
    (predator : AnimalInstance) :
  conserves (snd acc) (snd (hunt_step hc acc predator)).
Proof.
  destruct acc as [fed s]. unfold hunt_step. simpl.
  destruct (hc !! instance_id predator) as [prey_id|];
    [|apply conserves_same_game, same_game_add_log].
  destruct (prey_id =? 0); [apply conserves_same_game, same_game_add_log|].
  destruct (List.find _ (animals s)) as [prey|] eqn:Hfind;
    [|apply conserves_same_game, same_game_add_log].
  apply find_some in Hfind as [Hin _].
  destruct (negb _); [apply conserves_same_game, same_game_add_log|].
  pose proof (single_hunt_conserves s predator prey Hin) as H.
  destruct (resolve_single_hunt s predator prey) as [[|] s1]; exact H.
Qed.

Lemma resolve_hunting_conserves (s : GameState) (hc : gmap Z Z) :
  conserves s (snd (resolve_hunting s hc)).
Proof.
  unfold resolve_hunting.
  destruct (hungry_predators CARD_INDEX s) as [|p l] eqn:E;
    [apply conserves_same_game, same_game_add_log|].
  apply (conserves_trans s (add_log s "Fase de caza iniciada."));
    [apply conserves_same_game, same_game_add_log|].
  set (start := (∅, add_log s "Fase de caza iniciada.") : gset Z * GameState).
  change (conserves (snd start) (snd (fold_left (hunt_step hc) (p :: l) start))).
  apply (fold_left_rel (fun a b => conserves (snd a) (snd b))).
  - intros a. apply conserves_refl.
  - intros a b c. apply conserves_trans.
  - intros a b. apply hunt_step_conserves.
Qed.

(** X4.  Hunting keeps the books: as long as the animals on the table have
    distinct instance ids, [cc] plus the sum of the levels on the table is
    the same after [resolve_hunting] as before, whatever the choices: every
    kill adds to [cc] the level of the one animal it removes.  The ids
    stay distinct, the table only loses animals, and [cn] is not touched. *)
Theorem hunting_conserves_biomass (s : GameState) (hc : gmap Z Z) :
  List.NoDup (map instance_id (animals s)) ->
  let s' := snd (resolve_hunting s hc) in
  cc (biome s') + total_level (animals s') = cc (biome s) + total_level (animals s)
  /\ List.NoDup (map instance_id (animals s'))
  /\ (exists keep, animals s' = List.filter keep (animals s))
  /\ cn (biome s') = cn (biome s) /\ cn_temp (biome s') = cn_temp (biome s)
  /\ players s' = players s /\ plants s' = plants s.
Proof.
  intros Hnd s'. destruct (resolve_hunting_conserves s hc Hnd) as [Hnd' E].
  destruct (resolve_hunting_carrion CARD_INDEX s hc)
    as ((Hp & Hpl & _ & _ & _ & _ & _ & _ & Ht & Hk) & Hcn & _).
  repeat split; assumption.
Qed.

(** *** The turn, resolver by resolver *)

Lemma end_turn_inv (s s' : GameState) (hc : option (gmap Z Z)) :
  end_turn s hc = Some s' ->
  (truthy (winner s) = true /\ s' = s)
  \/ (truthy (winner s) = false
      /\ exists pre p,
           turn_resolution s (default ∅ hc) = Some pre
           /\ players pre !! active_player_index pre = Some p
           /\ s' = if pending_control p && check_control pre (active_player_index pre)
                   then declare_winner pre p else begin_turn pre p).
Proof.
  unfold end_turn. destruct (truthy (winner s)) eqn:Hw;
    [intros [= <-]; left; split; reflexivity|].
  destruct (turn_resolution s (default ∅ hc)) as [pre|] eqn:E; [simpl|discriminate].
  intros H. right. split; [reflexivity|]. exists pre.
  destruct (players pre !! active_player_index pre) as [p|] eqn:Ep.
  - exists p. rewrite (start_turn_eq CARD_INDEX pre p Ep) in H. injection H as <-.
    repeat split.
  - unfold start_turn in H.
    rewrite Ep in H. discriminate.
Qed.

Lemma check_control_ext (s t : GameState) (i : nat) :
  animals t = animals s -> lmax (biome t) = lmax (biome s) ->
  check_control t i = check_control s i.
Proof. intros Ha Hl. unfold check_control. rewrite Ha, Hl. reflexivity. Qed.

(** What [end_turn] hands to [start_turn]: the outgoing player carries the
    verdict of [check_control] on the table as it is left, the turn has
    passed to the next seat, no animal with hunger 2 or more is left, and
    the carrion of the turn has become [cn_temp]. *)
Lemma turn_resolution_shape (s pre : GameState) (hc : gmap Z Z) :
  turn_resolution s hc = Some pre ->
  (exists p, players s !! active_player_index s = Some p
     /\ players pre
        = <[active_player_index s :=
              set_pending_control (check_control pre (active_player_index s)) p]>
            (players s))
  /\ active_player_index pre
     = ((active_player_index s + 1) `mod` length (players s))%nat
  /\ (forall a, In a (animals pre) -> hunger pre a < 2)
  /\ (List.NoDup (map instance_id (animals s)) ->
      cn_temp (biome pre)
      = floor_pct 40 (cc (biome s) + total_level (animals s) - total_level (animals pre)))
  /\ hungers pre
     = hungers (resolve_feeding (snd (resolve_hunting s hc)) (fst (resolve_hunting s hc))).
Proof.
  unfold turn_resolution.
  pose proof (resolve_hunting_conserves s hc) as C1.
  pose proof (resolve_hunting_carrion CARD_INDEX s hc) as H1.
  destruct (resolve_hunting s hc) as [fed s1]. cbn [fst snd] in *.
  pose proof (resolve_feeding_feeding CARD_INDEX s1 fed) as H2.
  remember (resolve_feeding s1 fed) as s2 eqn:E2. clear E2.
  pose proof (resolve_starvation_fields s2) as H3. cbv zeta in H3.
  remember (resolve_starvation s2) as s3 eqn:E3. clear E3.
  pose proof (resolve_conversion_fields s3) as H4. cbv zeta in H4.
  remember (resolve_conversion s3) as s4 eqn:E4. clear E4.
  destruct (players s4 !! active_player_index s4) as [p|] eqn:Ep; [|discriminate].
  simpl. intros [= <-].
  pose proof (mark_control_fields CARD_INDEX s4 (active_player_index s4) p) as H5.
  cbv zeta in H5.
  remember (mark_control s4 (active_player_index s4) p) as s5 eqn:E5. clear E5.
  destruct H1 as (F1 & N1 & G1). destruct H2 as (F2 & A2 & C2 & P2).
  destruct H3 as (A3 & C3 & Hh3 & N3 & F3).
  assert (F : frame s s3) by (eapply frame_trans; [eapply frame_trans|]; eassumption).
  unfold frame in F.
  destruct F as (Fp & Fpl & Fi & Fu & Fn & Fw & Fb & Fl & Ft & Fa).
  destruct H4 as (Kt & Kc & Kn & Kb & Kl & Kp & Ka & Kh & Kpl & Ki & Ku & Kni & Kw).
  destruct H5 as (Mb & Ma & Mh & Mpl & Mi & Mu & Mn & Mw & Mp).
  cbn [players animals biome hungers active_player_index set_active_player_index].
  assert (Ei : active_player_index s4 = active_player_index s) by congruence.
  assert (Epl : players s4 = players s) by congruence.
  split; [|split; [|split; [|split]]].
  - exists p. split; [rewrite <- Ei, <- Epl; exact Ep|].
    rewrite Mp, Epl, Ei. f_equal. f_equal.
    symmetry. apply check_control_ext;
      cbn [animals biome set_active_player_index]; [exact Ma|rewrite Mb; reflexivity].
  - rewrite Mi, Mp, length_insert, Ei, Epl. reflexivity.
  - intros a Ha. unfold hunger. cbn [hungers set_active_player_index].
    rewrite Mh, Kh, Hh3. rewrite Ma, Ka, A3 in Ha.
    apply filter_In in Ha as [_ Ha]. unfold hunger in Ha. lia.
  - intros Hnd. destruct (C1 Hnd) as [_ E1]. rewrite Mb, Kt, Ma, Ka. f_equal.
    pose proof (total_level_split (fun a => hunger s2 a >=? 2) (animals s2)) as Hs.
    cbv beta in Hs.
    rewrite (filter_ext (fun a => negb (hunger s2 a >=? 2))
                        (fun a => hunger s2 a <? 2)) in Hs by (intros a; lia).
    rewrite <- A3 in Hs. rewrite A2 in *. lia.
  - rewrite Mh, Kh, Hh3. reflexivity.
Qed.

(** X5.  From the end of one turn to the start of the next.  When
    [end_turn] returns a game without a winner, the food pool of the new
    turn is [cn_base], plus forty per cent (rounded down) of the carrion of
    the turn, plus what the plants on the table yield; the carrion is [cc]
    as [end_turn] found it plus the levels of the animals that left the
    table.  Food left over from the old turn is not carried: the [cn] that
    [end_turn] found plays no part.  [cc] and [cn_temp] end at 0, and the
    action counter at 0. *)
Theorem carrion_feeds_next_turn (s s' : GameState) (hc : option (gmap Z Z)) :
  List.NoDup (map instance_id (animals s)) ->
  end_turn s hc = Some s' ->
  winner s' = None ->
  cn (biome s')
  = cn_base (biome s)
    + floor_pct 40 (cc (biome s) + total_level (animals s) - total_level (animals s'))
    + plant_food s'
  /\ cc (biome s') = 0 /\ cn_temp (biome s') = 0 /\ actions_used s' = 0
  /\ plants s' = plants s
  /\ exists keep, animals s' = List.filter keep (animals s).
Proof.
  intros Hnd He Hw.
  apply end_turn_inv in He as [[Ht ->]|(_ & pre & p & Hpre & Hp & ->)].
  { rewrite Hw in Ht. discriminate. }
  destruct (pending_control p && check_control pre (active_player_index pre)).
  { unfold declare_winner in Hw. simpl in Hw. discriminate. }
  destruct (begin_turn_fields CARD_INDEX pre p)
    as (_ & Hu & Ha & _ & Hpl & _ & _ & _ & Hcn & Hct & Hcc & _).
  destruct (turn_resolution_shape s pre _ Hpre) as (_ & _ & _ & Hc & _).
  destruct (turn_resolution_fields CARD_INDEX s pre _ Hpre)
    as (_ & Ppl & _ & _ & Pb & _ & Pk & _ & Pcc & _).
  rewrite Hcn, Hct, Hcc, Hu, Ha, Hpl, (Hc Hnd), Pb, Pcc.
  unfold plant_food. rewrite Hpl, Ppl.
  repeat split; try reflexivity. exact Pk.
Qed.

(** *** Laying a card *)

Lemma str_in_In (x : string) (l : list string) : str_in x l = true <-> In x l.
Proof.
  unfold str_in. rewrite existsb_exists. split.
  - intros (y & Hy & E). apply String.eqb_eq in E. subst y. exact Hy.
  - intros H. exists x. split; [exact H|apply String.eqb_refl].
Qed.

Lemma list_remove_perm (x : string) (l : list string) :
  In x l -> Permutation l (x :: list_remove x l).
Proof.
  induction l as [|y l IH]; simpl; [intros []|].
  destruct (String.eqb y x) eqn:E.
  - apply String.eqb_eq in E. subst y. intros _. apply Permutation_refl.
  - apply String.eqb_neq in E. intros [H|H]; [contradiction|].
    eapply perm_trans; [apply perm_skip, IH, H|apply perm_swap].
Qed.

Lemma can_play_animal_true (s : GameState) (card : Card) :
  fst (can_play_animal s card) = true -> snd (can_play_animal s card) = s.
Proof.
  unfold can_play_animal.
  repeat match goal with
         | |- context [if ?b then _ else _] => destruct b
         end; simpl; intros H; try reflexivity; discriminate.
Qed.

(** [play_card], outcome by outcome: a refusal leaves the game as it was,
    and a success is the one state written out here. *)
Lemma play_card_effect (s s' : GameState) (cid : string) (r : bool) :
  play_card s cid = Some (r, s') ->
  (r = false /\ same_game s s' /\ ~ playable s cid)
  \/ (r = true /\ playable s cid
      /\ exists player,
           players s !! active_player_index s = Some player
           /\ players s'
              = <[active_player_index s :=
                    set_hand_deck (list_remove cid (hand player)) (deck player) player]>
                  (players s)
           /\ active_player_index s' = active_player_index s
           /\ actions_used s' = actions_used s + 1
           /\ biome s' = biome s /\ winner s' = winner s
           /\ next_instance_id s' = next_instance_id s + 1
           /\ ((kind (CARD_INDEX cid) = "plant" /\ animals s' = animals s
                /\ hungers s' = hungers s
                /\ plants s' = (plants s ++ [new_plant s cid])%list)
               \/ (kind (CARD_INDEX cid) = "animal" /\ plants s' = plants s
                   /\ animals s' = (animals s ++ [new_animal s cid])%list
                   /\ hungers s' = store_set (hungers s) (fresh_obj (animals s)) 0))).
Proof.
  unfold play_card, playable.
  destruct (truthy (winner s)) eqn:Hw.
  { intros [= <- <-]. left. split; [reflexivity|]. split; [apply same_game_add_log|].
    intros (H & _). discriminate. }
  destruct (players s !! active_player_index s) as [p|] eqn:Hp; [simpl|discriminate].
  destruct (negb (str_in cid (hand p))) eqn:Hin.
  { intros [= <- <-]. left. split; [reflexivity|]. split; [apply same_game_add_log|].
    intros (_ & (q & [= <-] & Hq) & _). apply str_in_In in Hq.
    rewrite Hq in Hin. discriminate. }
  apply negb_false_iff, str_in_In in Hin.
  destruct (actions_used s >=? 3) eqn:Eu.
  { intros [= <- <-]. left. split; [reflexivity|]. split; [apply same_game_add_log|].
    intros (_ & _ & H & _). lia. }
  destruct (String.eqb (kind (CARD_INDEX cid)) "plant") eqn:Ek.
  - apply String.eqb_eq in Ek. intros [= <- <-]. right.
    split; [reflexivity|]. split.
    { split; [reflexivity|]. split; [exists p; split; [reflexivity|exact Hin]|].
      split; [lia|]. left. exact Ek. }
    exists p. simpl. repeat split. left. repeat split. exact Ek.
  - apply String.eqb_neq in Ek.
    destruct (String.eqb (kind (CARD_INDEX cid)) "animal") eqn:Ea.
    2:{ apply String.eqb_neq in Ea.
        intros [= <- <-]. left. split; [reflexivity|].
        split; [apply same_game_add_log|].
        intros (_ & _ & _ & [H|[H _]]); contradiction. }
    apply String.eqb_eq in Ea.
    pose proof (can_play_animal_same_game CARD_INDEX s (CARD_INDEX cid)) as Hc.
    pose proof (can_play_animal_true s (CARD_INDEX cid)) as Ht.
    destruct (can_play_animal s (CARD_INDEX cid)) as [ok s1]. cbn [fst snd] in *.
    destruct ok; cbn [negb]; intros [= <- <-].
    + specialize (Ht eq_refl). subst s1. right.
      split; [reflexivity|]. split.
      { split; [reflexivity|]. split; [exists p; split; [reflexivity|exact Hin]|].
        split; [lia|]. right. split; [exact Ea|reflexivity]. }
      exists p. simpl. repeat split. right. repeat split. exact Ea.
    + left. split; [reflexivity|]. split; [exact Hc|].
      intros (_ & _ & _ & [H|[_ H]]); [contradiction|discriminate].
Qed.

Lemma play_card_some (s : GameState) (cid : string) (player : PlayerState) :
  players s !! active_player_index s = Some player ->
  exists r s', play_card s cid = Some (r, s').
Proof.
  intros Hp. unfold play_card. rewrite Hp. cbn [mbind option_bind].
  destruct (can_play_animal s (CARD_INDEX cid)) as [ok s1].
  repeat match goal with
         | |- context [if ?b then _ else _] => destruct b
         end; eexists; eexists; reflexivity.
Qed.

(** X6.  [play_card] returns [True] exactly when the game is on, the card
    is in the active player's hand, fewer than 3 actions are used, and the
    card is a plant or an animal that [can_play_animal] accepts.  It then
    takes one copy of the card out of that hand and touches nothing else
    of any player; it puts exactly one new instance on the table, which
    carries the id [next_instance_id] had, the card, and the active seat
    as owner; a new animal starts with hunger 0, and the hunger of the
    animals already on the table is left as it was. *)
Theorem play_card_lays_one_card (s : GameState) (cid : string) :
  ((exists s', play_card s cid = Some (true, s')) <-> playable s cid)
  /\ forall s', play_card s cid = Some (true, s') ->
       (exists player player',
          players s !! active_player_index s = Some player
          /\ players s' !! active_player_index s = Some player'
          /\ Permutation (hand player) (cid :: hand player')
          /\ deck player' = deck player /\ name player' = name player
          /\ pending_control player' = pending_control player)
       /\ (forall j, j <> active_player_index s -> players s' !! j = players s !! j)
       /\ Permutation (ids_on_table s') (next_instance_id s :: ids_on_table s)
       /\ ((animals s' = animals s /\ exists p, plants s' = (plants s ++ [p])%list
              /\ plant_card_id p = cid /\ plant_owner p = active_player_index s)
           \/ (plants s' = plants s /\ exists a, animals s' = (animals s ++ [a])%list
                 /\ card_id a = cid /\ owner a = active_player_index s
                 /\ hunger s' a = 0))
       /\ (forall a, In a (animals s) -> hunger s' a = hunger s a).
Proof.
  split.
  - split.
    + intros (s' & H). apply play_card_effect in H as [(H & _)|(_ & H & _)];
        [discriminate|exact H].
    + intros Hpl. pose proof Hpl as (_ & (p & Hp & _) & _).
      destruct (play_card_some s cid p Hp) as (r & s' & E).
      exists s'. pose proof E as E'.
      apply play_card_effect in E' as [(_ & _ & Hn)|(-> & _)]; [contradiction|exact E].
  - intros s' H.
    apply play_card_effect in H as [(H & _)|(_ & Hpl & p & Hp & Hps & Hi & _ & _ & _ & _ & Hk)];
      [discriminate|].
    assert (Hlt : (active_player_index s < length (players s))%nat)
      by (eapply lookup_lt_Some; exact Hp).
    destruct Hpl as (_ & (q & Hq & Hin) & _).
    rewrite Hp in Hq. injection Hq as <-.
    split.
    { exists p. eexists. split; [exact Hp|].
      split; [rewrite Hps; apply list_lookup_insert_eq; exact Hlt|].
      cbn [hand deck name pending_control set_hand_deck].
      split; [apply list_remove_perm, Hin|]. repeat split. }
    split.
    { intros j Hj. rewrite Hps. apply list_lookup_insert_ne. congruence. }
    unfold ids_on_table.
    destruct Hk as [(_ & Ha & Hh & Hpls)|(_ & Hpls & Ha & Hh)].
    + rewrite Ha, Hpls. split; [|split].
      * rewrite map_app. cbn [map new_plant plant_instance_id].
        rewrite app_assoc. symmetry. apply Permutation_cons_append.
      * left. split; [reflexivity|]. exists (new_plant s cid). repeat split.
      * intros a _. unfold hunger. rewrite Hh. reflexivity.
    + rewrite Ha, Hpls. split; [|split].
      * rewrite map_app. cbn [map new_animal instance_id].
        symmetry. rewrite <- app_assoc. apply Permutation_middle.
      * right. split; [reflexivity|]. exists (new_animal s cid).
        repeat split. unfold hunger. rewrite Hh. apply store_set_eq.
      * intros a Hina. unfold hunger. rewrite Hh. apply store_set_ne.
        pose proof (fresh_obj_above (animals s) a Hina). lia.
Qed.

(** *** The seats and the biome *)

Lemma names_insert (l : list PlayerState) (i : nat) (p q : PlayerState) :
  l !! i = Some p -> name q = name p -> map name (<[i := q]> l) = map name l.
Proof.
  revert i. induction l as [|x l IH]; intros [|i]; simpl; try discriminate.
  - intros [= ->] ->. reflexivity.
  - intros H Hn. f_equal. apply IH; assumption.
Qed.

Lemma draw_to_hand_players (s : GameState) (i : nat) (p : PlayerState) (n : Z) :
  let k := drawn n (hand p) (deck p) in
  players (draw_to_hand s i p n)
  = <[i := set_hand_deck (hand p ++ take k (deck p)) (drop k (deck p)) p]> (players s).
Proof.
  unfold draw_to_hand. rewrite draw_cards_take_drop. reflexivity.
Qed.

Lemma begin_turn_players (s : GameState) (p : PlayerState) :
  let k := drawn 8 (hand p) (deck p) in
  players (begin_turn s p)
  = <[active_player_index s :=
        set_hand_deck (hand p ++ take k (deck p)) (drop k (deck p)) p]> (players s).
Proof.
  unfold begin_turn. cbv zeta. rewrite draw_to_hand_players. reflexivity.
Qed.

(** [end_turn] on a game that is not over, in terms of the state it is
    given: the resolvers, the verdict on the outgoing player, the next
    seat, and the two ways [start_turn] can go. *)
Lemma end_turn_effect (s s' : GameState) (hc : option (gmap Z Z)) :
  end_turn s hc = Some s' -> truthy (winner s) = false ->
  exists pre p q,
    turn_resolution s (default ∅ hc) = Some pre
    /\ players s !! active_player_index s = Some p
    /\ players pre
       = <[active_player_index s :=
             set_pending_control (check_control pre (active_player_index s)) p]>
           (players s)
    /\ active_player_index pre
       = ((active_player_index s + 1) `mod` length (players s))%nat
    /\ players pre !! active_player_index pre = Some q
    /\ ((pending_control q = true /\ check_control pre (active_player_index pre) = true
         /\ s' = declare_winner pre q)
        \/ (pending_control q && check_control pre (active_player_index pre) = false
            /\ s' = begin_turn pre q)).
Proof.
  intros He Hw.
  apply end_turn_inv in He as [[Ht _]|(_ & pre & q & Hpre & Hq & ->)];
    [rewrite Ht in Hw; discriminate|].
  destruct (turn_resolution_shape s pre _ Hpre) as ((p & Hp & Hps) & Hi & _).
  exists pre, p, q. repeat (split; [assumption|]).
  destruct (pending_control q && check_control pre (active_player_index pre)) eqn:E.
  - left. apply andb_true_iff in E as [E1 E2]. repeat split; assumption.
  - right. split; reflexivity.
Qed.

Lemma seated_length (s : GameState) : seated s -> length (players s) = 2%nat.
Proof. intros [H _]. rewrite <- (length_map name), H. reflexivity. Qed.

Lemma seated_lookup (s : GameState) :
  seated s -> exists p, players s !! active_player_index s = Some p.
Proof.
  intros H. pose proof (seated_length s H) as Hl. destruct H as [_ Hi].
  destruct (players s !! active_player_index s) as [p|] eqn:E; [exists p; reflexivity|].
  apply lookup_ge_None in E. lia.
Qed.

Lemma reachable_seated (s : GameState) : reachable s -> seated s /\ forest (biome s).
Proof.
  induction 1 as [deck1 deck2 s Hs|s cid r s' Hr IH Hp|s hc s' Hr IH He].
  - destruct (start_game_state deck1 deck2) as (s0 & E & Hpl & Hb & _ & _ & _ & Hi & _).
    rewrite E in Hs. injection Hs as <-. unfold seated, forest.
    rewrite Hpl, Hb, Hi. simpl. repeat split. lia.
  - destruct IH as [[Hn Hi] (Hb0 & Hl0 & Hc0)].
    apply play_card_effect in Hp
      as [(_ & Hs & _)|(_ & _ & p & Hp & Hps & Ha & _ & Hb & _)].
    + unfold same_game in Hs. decompose [and] Hs. unfold seated, forest.
      replace (players s') with (players s) by congruence.
      replace (active_player_index s') with (active_player_index s) by congruence.
      replace (biome s') with (biome s) by congruence. repeat split; assumption.
    + unfold seated, forest. rewrite Hps, Ha, Hb.
      rewrite (names_insert _ _ p) by (try exact Hp; reflexivity).
      repeat split; assumption.
  - destruct (truthy (winner s)) eqn:Hw.
    { apply end_turn_inv in He as [[_ ->]|(Ht & _)]; [exact IH|].
      rewrite Ht in Hw. discriminate. }
    pose proof (seated_length s (proj1 IH)) as Hlen.
    destruct IH as [[Hn Hi] (Hb & Hl & Hc)].
    destruct (end_turn_effect s s' hc He Hw) as (pre & p & q & Hpre & Hp & Hps & Hip & Hq & Hs).
    destruct (turn_resolution_fields CARD_INDEX s pre _ Hpre)
      as (_ & _ & _ & _ & Pb & Pl & _ & _ & Pcc & _).
    assert (Hnp : map name (players pre) = ["Jugador 1"; "Jugador 2"]).
    { rewrite Hps, (names_insert _ _ p) by (try exact Hp; reflexivity). exact Hn. }
    assert (Hipre : (active_player_index pre < 2)%nat).
    { rewrite Hip, Hlen. apply Nat.mod_upper_bound. lia. }
    destruct Hs as [(_ & _ & ->)|(_ & ->)].
    + unfold declare_winner, seated, forest. simpl.
      repeat split; try assumption; congruence.
    + destruct (begin_turn_fields CARD_INDEX pre q)
        as (_ & _ & _ & _ & _ & Ai & _ & _ & _ & _ & Acc & Ab & Al & _).
      unfold seated, forest. rewrite begin_turn_players, Ai, Acc, Ab, Al.
      rewrite (names_insert _ _ q) by (try exact Hq; reflexivity).
      repeat split; try assumption; congruence.
Qed.

Lemma seated_name (s : GameState) (i : nat) (q : PlayerState) :
  seated s -> players s !! i = Some q ->
  (i < 2)%nat /\ (name q = "Jugador 1" \/ name q = "Jugador 2").
Proof.
  intros [Hn _] Hq. destruct (players s) as [|a [|b [|c l]]]; try discriminate.
  simpl in Hn. injection Hn as Ha Hb.
  destruct i as [|[|i]]; simpl in Hq; try discriminate; injection Hq as <-.
  - split; [lia|left; exact Ha].
  - split; [lia|right; exact Hb].
Qed.

Lemma seated_truthy (s : GameState) (i : nat) (q : PlayerState) :
  seated s -> players s !! i = Some q -> truthy (Some (name q)) = true.
Proof.
  intros Hs Hq. destruct (seated_name s i q Hs Hq) as [_ [-> | ->]]; reflexivity.
Qed.

Lemma turn_resolution_some (s : GameState) (hc : gmap Z Z) (p : PlayerState) :
  players s !! active_player_index s = Some p ->
  exists pre, turn_resolution s hc = Some pre.
Proof.
  intros Hp. unfold turn_resolution.
  pose proof (resolve_hunting_carrion CARD_INDEX s hc) as H1.
  destruct (resolve_hunting s hc) as [fed s1]. cbn [fst snd] in *.
  pose proof (resolve_feeding_feeding CARD_INDEX s1 fed) as H2.
  remember (resolve_feeding s1 fed) as s2 eqn:E2. clear E2.
  pose proof (resolve_starvation_carrion CARD_INDEX s2) as H3.
  remember (resolve_starvation s2) as s3 eqn:E3. clear E3.
  pose proof (resolve_conversion_fields s3) as H4. cbv zeta in H4.
  remember (resolve_conversion s3) as s4 eqn:E4. clear E4.
  destruct H1 as (F1 & _). destruct H2 as (F2 & _). destruct H3 as (F3 & _).
  assert (F : frame s s3) by (eapply frame_trans; [eapply frame_trans|]; eassumption).
  destruct F as (Fp & _ & Fi & _).
  destruct H4 as (_ & _ & _ & _ & _ & Kp & _ & _ & _ & Ki & _).
  rewrite Kp, Ki, Fp, Fi, Hp. simpl. eexists. reflexivity.
Qed.

Lemma end_turn_some (s : GameState) (hc : option (gmap Z Z)) :
  seated s -> exists s', end_turn s hc = Some s'.
Proof.
  intros Hs. unfold end_turn. destruct (truthy (winner s)); [exists s; reflexivity|].
  destruct (seated_lookup s Hs) as (p & Hp).
  destruct (turn_resolution_some s (default ∅ hc) p Hp) as (pre & Hpre).
  rewrite Hpre. simpl.
  destruct (turn_resolution_shape s pre _ Hpre) as ((p' & _ & Hps) & Hi & _).
  pose proof (seated_length s Hs) as Hl.
  destruct (players pre !! active_player_index pre) as [q|] eqn:Hq.
  - rewrite (start_turn_eq CARD_INDEX pre q Hq). eexists. reflexivity.
  - apply lookup_ge_None in Hq. rewrite Hps, length_insert, Hi, Hl in Hq.
    pose proof (Nat.mod_upper_bound (active_player_index s + 1) 2). lia.
Qed.

(** X7.  In a game no entry point of the engine can fail on a seat that
    does not exist.  Every state that [start_game], [play_card] and
    [end_turn] can produce has the two players of [start_game] under
    their names, an active seat that is one of the two, and the biome
    constants of [start_game] with no carrion left lying; on such a state
    [play_card] and [end_turn] return a result, whatever the card and the
    hunting choices. *)
Theorem entry_points_never_fail (s : GameState) :
  reachable s ->
  map name (players s) = ["Jugador 1"; "Jugador 2"]
  /\ (active_player_index s < 2)%nat
  /\ cn_base (biome s) = 4 /\ lmax (biome s) = 6 /\ cc (biome s) = 0
  /\ (forall cid, exists r s', play_card s cid = Some (r, s'))
  /\ (forall hc, exists s', end_turn s hc = Some s').
Proof.
  intros Hr. destruct (reachable_seated s Hr) as [Hs (Hb & Hl & Hc)].
  split; [apply Hs|]. split; [apply Hs|]. repeat (split; [assumption|]).
  split.
  - intros cid. destruct (seated_lookup s Hs) as (p & Hp).
    apply (play_card_some s cid p Hp).
  - intros hc. apply end_turn_some, Hs.
Qed.

(** *** The winner *)

Lemma check_control_declare_winner (s : GameState) (q : PlayerState) (i : nat) :
  check_control (declare_winner s q) i = check_control s i.
Proof. reflexivity. Qed.

Lemma check_control_begin_turn (s : GameState) (q : PlayerState) (i : nat) :
  check_control (begin_turn s q) i = check_control s i.
Proof.
  destruct (begin_turn_fields CARD_INDEX s q)
    as (_ & _ & Ha & _ & _ & _ & _ & _ & _ & _ & _ & _ & Hl & _).
  apply check_control_ext; assumption.
Qed.

(** The winner of a game is the player to move, who holds the flag and
    controls every level of the table. *)
Lemma reachable_winner (s : GameState) (w : string) :
  reachable s -> winner s = Some w ->
  exists q, players s !! active_player_index s = Some q
    /\ name q = w /\ pending_control q = true
    /\ check_control s (active_player_index s) = true.
Proof.
  intros Hr. revert w.
  induction Hr as [deck1 deck2 s Hs|s cid r s' Hr IH Hp|s hc s' Hr IH He]; intros w Hw.
  - destruct (start_game_state deck1 deck2) as (s0 & E & H). rewrite E in Hs.
    injection Hs as <-. decompose [and] H. congruence.
  - pose proof (reachable_seated s Hr) as [Hseat _].
    apply play_card_effect in Hp as [(_ & Hs & _)|(_ & Hpl & p & Hp & _ & _ & _ & _ & Hws & _)].
    + unfold same_game in Hs. decompose [and] Hs.
      destruct (IH w ltac:(congruence)) as (q & Hq & Hn & Hpc & Hc).
      exists q. replace (active_player_index s') with (active_player_index s) by congruence.
      replace (players s') with (players s) by congruence.
      repeat (split; [assumption|]). rewrite <- Hc.
      apply check_control_ext; congruence.
    + rewrite Hws in Hw. destruct (IH w Hw) as (q & Hq & Hn & _).
      destruct Hpl as (Ht & _). rewrite Hw, <- Hn in Ht.
      rewrite (seated_truthy s _ q Hseat Hq) in Ht. discriminate.
  - destruct (truthy (winner s)) eqn:Ht.
    { apply end_turn_inv in He as [[_ ->]|(Hf & _)]; [apply IH, Hw|].
      rewrite Hf in Ht. discriminate. }
    destruct (end_turn_effect s s' hc He Ht)
      as (pre & p & q & Hpre & Hp & Hps & Hip & Hq & [(Hpc & Hc & ->)|(_ & ->)]).
    + unfold declare_winner in *. simpl in *. injection Hw as <-.
      exists q. repeat split; assumption.
    + destruct (begin_turn_fields CARD_INDEX pre q) as (Hwb & _).
      destruct (turn_resolution_fields CARD_INDEX s pre _ Hpre) as (_ & _ & Hwp & _).
      rewrite Hw in Hwb. rewrite Hwp in Hwb.
      destruct (IH w ltac:(congruence)) as (q0 & Hq0 & Hn & _).
      pose proof (reachable_seated s Hr) as [Hseat _].
      rewrite <- Hwb, <- Hn, (seated_truthy s _ q0 Hseat Hq0) in Ht. discriminate.
Qed.

Lemma control_count (s : GameState) (i : nat) :
  check_control s i = true ->
  lmax (biome s)
  <= Z.of_nat (length (List.filter (fun a => Nat.eqb (owner a) i) (animals s))).
Proof.
  intros Hc.
  assert (Hincl : incl (seqZ 1 (lmax (biome s)))
                       (map (fun a => level (card_of a))
                            (List.filter (fun a => Nat.eqb (owner a) i) (animals s)))).
  { intros lv Hin. apply list_elem_of_In, elem_of_seqZ in Hin.
    destruct (proj1 (check_control_iff CARD_INDEX s i) Hc lv ltac:(lia))
      as (a & Ha & Hl & Ho).
    apply in_map_iff. exists a. split; [exact Hl|].
    apply filter_In. split; [exact Ha|]. apply Nat.eqb_eq, Ho. }
  apply NoDup_incl_length in Hincl; [|apply NoDup_ListNoDup, NoDup_seqZ].
  rewrite length_seqZ, length_map in Hincl. lia.
Qed.

Lemma reachable_no_winner (s : GameState) :
  reachable s -> truthy (winner s) = false -> winner s = None.
Proof.
  intros Hr Ht. destruct (winner s) as [w|] eqn:Hw; [|reflexivity].
  destruct (reachable_winner s w Hr Hw) as (q & Hq & Hn & _).
  pose proof (reachable_seated s Hr) as [Hseat _].
  rewrite <- Hn, (seated_truthy s _ q Hseat Hq) in Ht. discriminate.
Qed.

(** X8.  A game has a winner only in this way: the winner is the player
    to move, named "Jugador 1" or "Jugador 2", who holds the
    [pending_control] flag and for whom [check_control] holds on the table
    as it is; this player owns at least six animals on the table, one for
    each level of the forest. *)
Theorem winner_holds_every_level (s : GameState) (w : string) :
  reachable s -> winner s = Some w ->
  exists q, players s !! active_player_index s = Some q
    /\ w = name q /\ (w = "Jugador 1" \/ w = "Jugador 2")
    /\ pending_control q = true
    /\ check_control s (active_player_index s) = true
    /\ 6 <= Z.of_nat (length (List.filter
                                (fun a => Nat.eqb (owner a) (active_player_index s))
                                (animals s))).
Proof.
  intros Hr Hw. destruct (reachable_winner s w Hr Hw) as (q & Hq & Hn & Hp & Hc).
  destruct (reachable_seated s Hr) as [Hseat (_ & Hl & _)].
  exists q. split; [exact Hq|]. split; [symmetry; exact Hn|].
  split; [rewrite <- Hn; apply (seated_name s _ q Hseat Hq)|].
  split; [exact Hp|]. split; [exact Hc|].
  rewrite <- Hl. apply control_count, Hc.
Qed.

(** X9.  [end_turn] on a game that is not over passes the turn to the
    other seat.  The outgoing player's [pending_control] flag is left
    equal to [check_control] for them on the table as the turn leaves it,
    the incoming player's flag is not touched, and the game is won at this
    point exactly when the incoming player already held the flag and
    [check_control] holds for them on the table left by the turn: a threat
    of control has to survive the opponent's turn.  The winner is then the
    incoming player. *)
Theorem end_turn_passes_the_turn (s s' : GameState) (hc : option (gmap Z Z)) :
  reachable s -> truthy (winner s) = false -> end_turn s hc = Some s' ->
  let i := active_player_index s in
  let j := active_player_index s' in
  j = (1 - i)%nat
  /\ pending_at s' i = Some (check_control s' i)
  /\ pending_at s' j = pending_at s j
  /\ (winner s' = None \/ exists q, players s' !! j = Some q /\ winner s' = Some (name q))
  /\ (winner s' <> None <-> pending_at s j = Some true /\ check_control s' j = true).
Proof.
  intros Hr Ht He i j. subst i j.
  pose proof (reachable_seated s Hr) as [Hseat _].
  pose proof (seated_length s Hseat) as Hlen. pose proof Hseat as [_ Hi].
  destruct (end_turn_effect s s' hc He Ht)
    as (pre & p & q & Hpre & Hp & Hps & Hip & Hq & Hs).
  rewrite Hlen in Hip.
  assert (Hj : active_player_index pre = (1 - active_player_index s)%nat).
  { rewrite Hip. destruct (active_player_index s) as [|[|k]]; try reflexivity. lia. }
  assert (Hne : active_player_index s <> active_player_index pre) by lia.
  assert (Hqs : players s !! active_player_index pre = Some q).
  { rewrite <- Hq, Hps. symmetry. apply list_lookup_insert_ne. exact Hne. }
  assert (Hpi : players pre !! active_player_index s
                = Some (set_pending_control
                          (check_control pre (active_player_index s)) p)).
  { rewrite Hps. apply list_lookup_insert_eq. rewrite Hlen. exact Hi. }
  assert (Hwp : winner pre = None).
  { destruct (turn_resolution_fields CARD_INDEX s pre _ Hpre) as (_ & _ & -> & _).
    apply reachable_no_winner; assumption. }
  unfold pending_at.
  destruct Hs as [(Hpc & Hc & ->)|(Hf & ->)].
  - cbn [active_player_index players declare_winner add_log set_winner winner].
    rewrite check_control_declare_winner, check_control_declare_winner.
    rewrite Hpi, Hq, Hqs. cbn [fmap option_fmap option_map pending_control
                               set_pending_control].
    split; [exact Hj|]. split; [reflexivity|]. split; [reflexivity|].
    split; [right; exists q; split; reflexivity|].
    split; [intros _; split; [rewrite Hpc; reflexivity|exact Hc]|discriminate].
  - destruct (begin_turn_fields CARD_INDEX pre q)
      as (Hw & _ & _ & _ & _ & Hai & _).
    rewrite Hai, Hw, Hwp, !check_control_begin_turn, begin_turn_players.
    rewrite list_lookup_insert_ne by lia.
    rewrite list_lookup_insert_eq by (eapply lookup_lt_Some; exact Hq).
    rewrite Hpi, Hqs. cbn [fmap option_fmap option_map pending_control
                           set_pending_control set_hand_deck].
    split; [exact Hj|]. split; [reflexivity|]. split; [reflexivity|].
    split; [left; reflexivity|].
    split; [intros H; contradiction|].
    intros [[= H1] H2]. rewrite H1, H2 in Hf. discriminate.
Qed.

(** *** Hunger *)

Lemma store_nonneg_set (h : nat -> Z) (o : nat) (v : Z) :
  store_nonneg h -> 0 <= v -> store_nonneg (store_set h o v).
Proof.
  intros Hh Hv o'. unfold store_set. destruct (Nat.eqb o' o); [exact Hv|apply Hh].
Qed.

Lemma reset_all_nonneg (l : list AnimalInstance) (h : nat -> Z) :
  store_nonneg h -> store_nonneg (reset_all l h).
Proof.
  unfold reset_all. revert h. induction l as [|a l IH]; intros h Hh; simpl; [exact Hh|].
  apply IH, store_nonneg_set; [exact Hh|lia].
Qed.

Lemma bump_all_nonneg (l : list AnimalInstance) (h : nat -> Z) :
  store_nonneg h -> store_nonneg (bump_all l h).
Proof.
  unfold bump_all. revert h. induction l as [|a l IH]; intros h Hh; simpl; [exact Hh|].
  apply IH, store_nonneg_set; [exact Hh|]. specialize (Hh (obj a)). lia.
Qed.

Lemma single_hunt_nonneg (s : GameState) (predator prey : AnimalInstance) :
  store_nonneg (hungers s) ->
  store_nonneg (hungers (snd (resolve_single_hunt s predator prey))).
Proof.
  intros Hh.
  destruct (single_hunt_cases CARD_INDEX s predator prey) as (_ & Hk & Hf).
  destruct (fst (resolve_single_hunt s predator prey)).
  - destruct (Hk eq_refl) as [(_ & _ & Hp & Ho & _) _]. intros o.
    destruct (Nat.eq_dec o (obj predator)) as [->|Hne]; [|rewrite (Ho o Hne); apply Hh].
    unfold hunger in Hp. rewrite Hp.
    destruct (level (card_of prey) =? level (card_of predator)); lia.
  - destruct (Hf eq_refl) as (_ & _ & _ & -> & _). exact Hh.
Qed.

Lemma hunt_step_nonneg (hc : gmap Z Z) (acc : gset Z * GameState)
    (predator : AnimalInstance) :
  store_nonneg (hungers (snd acc)) ->
  store_nonneg (hungers (snd (hunt_step hc acc predator))).
Proof.
  destruct acc as [fed s]. unfold hunt_step. cbn [snd]. intros Hh.
  destruct (hc !! instance_id predator) as [prey_id|]; [|exact Hh].
  destruct (prey_id =? 0); [exact Hh|].
  destruct (List.find _ (animals s)) as [prey|]; [|exact Hh].
  destruct (negb _); [exact Hh|].
  pose proof (single_hunt_nonneg s predator prey Hh) as H.
  destruct (resolve_single_hunt s predator prey) as [[|] s1]; exact H.
Qed.

Lemma resolve_hunting_nonneg (s : GameState) (hc : gmap Z Z) :
  store_nonneg (hungers s) -> store_nonneg (hungers (snd (resolve_hunting s hc))).
Proof.
  unfold resolve_hunting.
  destruct (hungry_predators CARD_INDEX s) as [|p l]; [intros H; exact H|].
  set (start := (∅, add_log s "Fase de caza iniciada.") : gset Z * GameState).
  change (store_nonneg (hungers (snd start)) ->
          store_nonneg (hungers (snd (fold_left (hunt_step hc) (p :: l) start)))).
  apply (fold_left_rel
           (fun a b => store_nonneg (hungers (snd a)) -> store_nonneg (hungers (snd b)))).
  - intros a H. exact H.
  - intros a b c H1 H2 H. apply H2, H1, H.
  - intros a b. apply hunt_step_nonneg.
Qed.

Lemma feed_level_nonneg (s : GameState) (lv : Z) :
  store_nonneg (hungers s) -> store_nonneg (hungers (feed_level s lv)).
Proof.
  intros Hh. unfold feed_level.
  destruct (level_animals CARD_INDEX s lv) as [|a group] eqn:E; [exact Hh|].
  rewrite <- E. clear E.
  destruct (cn (biome s) >=? _).
  - cbn [hungers add_log set_hungers set_biome]. apply reset_all_nonneg, Hh.
  - assert (Hstarve : forall t, store_nonneg (hungers t) ->
                        store_nonneg (hungers (starve_level t (level_animals CARD_INDEX s lv)))).
    { intros t Ht. unfold starve_level. cbn [hungers add_log set_hungers].
      apply bump_all_nonneg, Ht. }
    destruct (sorted_desc _ _) as [|w [|l rest]]; try (apply Hstarve; exact Hh).
    destruct (cn _ >=? lv); [|apply Hstarve; exact Hh].
    unfold duel. cbn [hungers add_log set_hungers set_biome].
    apply bump_all_nonneg, store_nonneg_set; [apply store_nonneg_set; [exact Hh|lia]|].
    unfold hunger. cbn [hungers set_hungers set_biome add_log].
    assert (0 <= store_set (hungers s) (obj w) 0 (obj l)); [|lia].
    apply store_nonneg_set; [exact Hh|lia].
Qed.

Lemma resolve_feeding_nonneg (s : GameState) (fed : gset Z) :
  store_nonneg (hungers s) -> store_nonneg (hungers (resolve_feeding s fed)).
Proof.
  intros Hh. unfold resolve_feeding, starve_carnivores.
  assert (Hl : store_nonneg
                 (hungers (feed_levels (add_log s "Fase de alimentación de CN.")))).
  { unfold feed_levels.
    generalize (seqZ 1 (lmax (biome (add_log s "Fase de alimentación de CN.")))).
    intros levels.
    assert (H0 : store_nonneg (hungers (add_log s "Fase de alimentación de CN.")))
      by exact Hh.
    revert H0. generalize (add_log s "Fase de alimentación de CN."). intros t.
    apply (fold_left_rel
             (fun a b => store_nonneg (hungers a) -> store_nonneg (hungers b))).
    - intros a H. exact H.
    - intros a b c H1 H2 H. apply H2, H1, H.
    - intros a b. apply feed_level_nonneg. }
  destruct (unfed_carnivores CARD_INDEX _ fed) as [|a l] eqn:E; [exact Hl|].
  cbn [hungers add_log set_hungers]. apply bump_all_nonneg, Hl.
Qed.

(** In a game no hunger is negative, and every animal on the table has
    hunger below 2. *)
Lemma reachable_hunger (s : GameState) :
  reachable s ->
  store_nonneg (hungers s) /\ forall a, In a (animals s) -> hunger s a < 2.
Proof.
  induction 1 as [deck1 deck2 s Hs|s cid r s' Hr IH Hp|s hc s' Hr IH He].
  - destruct (start_game_state deck1 deck2) as (s0 & E & _ & _ & Ha & _ & Hh & _).
    rewrite E in Hs. injection Hs as <-. split.
    + intros o. rewrite Hh. lia.
    + rewrite Ha. intros a [].
  - destruct IH as [Hn Hlt].
    apply play_card_effect in Hp
      as [(_ & Hs & _)|(_ & _ & p & _ & _ & _ & _ & _ & _ & _ & Hk)].
    + unfold same_game in Hs. decompose [and] Hs. unfold hunger.
      replace (hungers s') with (hungers s) by congruence.
      replace (animals s') with (animals s) by congruence. split; assumption.
    + destruct Hk as [(_ & Ha & Hh & _)|(_ & _ & Ha & Hh)]; unfold hunger;
        rewrite Ha, Hh.
      * split; assumption.
      * split; [apply store_nonneg_set; [exact Hn|lia]|].
        intros a Hin. apply in_app_or in Hin as [Hin|[<-|[]]].
        -- rewrite store_set_ne; [apply Hlt, Hin|].
           pose proof (fresh_obj_above (animals s) a Hin). lia.
        -- cbn [obj new_animal]. rewrite store_set_eq. lia.
  - destruct (truthy (winner s)) eqn:Ht.
    { apply end_turn_inv in He as [[_ ->]|(Hf & _)]; [exact IH|].
      rewrite Hf in Ht. discriminate. }
    destruct (end_turn_effect s s' hc He Ht)
      as (pre & p & q & Hpre & _ & _ & _ & _ & Hs).
    destruct (turn_resolution_shape s pre _ Hpre) as (_ & _ & Hlt & _ & Hh).
    assert (Hn : store_nonneg (hungers pre)).
    { rewrite Hh. apply resolve_feeding_nonneg, resolve_hunting_nonneg, IH. }
    destruct Hs as [(_ & _ & ->)|(_ & ->)].
    + split; [exact Hn|exact Hlt].
    + destruct (begin_turn_fields CARD_INDEX pre q) as (_ & _ & Ha & Hhb & _).
      unfold hunger. rewrite Ha, Hhb. split; [exact Hn|exact Hlt].
Qed.

(** X10.  In a game the hunger of an animal on the table is 0 or 1, and
    no hunger attribute is ever negative: [resolve_starvation] has removed
    every animal that reached 2 before the turn is handed over, and a card
    that is laid starts at 0.  So the hunters of [resolve_hunting] are the
    carnivores and omnivores of hunger exactly 1, and a further run of
    [resolve_starvation] on such a state would take nothing off the table. *)
Theorem hunger_is_zero_or_one (s : GameState) :
  reachable s ->
  (forall o, 0 <= hungers s o)
  /\ (forall a, In a (animals s) -> hunger s a = 0 \/ hunger s a = 1)
  /\ (forall a, In a (hungry_predators CARD_INDEX s) -> hunger s a = 1)
  /\ animals (resolve_starvation s) = animals s.
Proof.
  intros Hr. destruct (reachable_hunger s Hr) as [Hn Hlt].
  split; [exact Hn|].
  assert (H01 : forall a, In a (animals s) -> hunger s a = 0 \/ hunger s a = 1).
  { intros a Ha. specialize (Hlt a Ha). pose proof (Hn (obj a)). unfold hunger in *. lia. }
  split; [exact H01|]. split.
  - intros a Ha. apply filter_In in Ha as [Ha Hb].
    apply andb_true_iff in Hb as [_ Hb]. destruct (H01 a Ha); lia.
  - destruct (resolve_starvation_fields s) as (-> & _).
    rewrite <- (filter_all (animals s)) at 2.
    apply filter_ext_in. intros a Ha. specialize (Hlt a Ha). lia.
Qed.

(** *** The hands *)

Lemma list_remove_length (x : string) (l : list string) :
  In x l -> length l = S (length (list_remove x l)).
Proof. intros H. apply (Permutation_length (list_remove_perm x l H)). Qed.

Lemma drawn_length (hand deck : list string) :
  (length hand <= 8)%nat ->
  let k := drawn 8 hand deck in
  (length (hand ++ take k deck) <= 8)%nat
  /\ (drop k deck <> [] -> length (hand ++ take k deck) = 8%nat).
Proof.
  intros Hh k. rewrite length_app, length_take. subst k. unfold drawn. split; [lia|].
  intros Hd.
  assert (length (drop (Z.to_nat (Z.min (Z.max 0 (8 - Z.of_nat (length hand)))
                                        (Z.of_nat (length deck)))) deck) <> 0%nat).
  { intros H. apply nil_length_inv in H. contradiction. }
  rewrite length_drop in H. lia.
Qed.

(** The hands of a game: never more than eight cards, and for the player
    to move eight less the actions used, as long as the deck lasts. *)
Lemma reachable_hands (s : GameState) :
  reachable s ->
  hands_within (players s)
  /\ (winner s = None ->
      forall p, players s !! active_player_index s = Some p ->
        Z.of_nat (length (hand p)) + actions_used s <= 8
        /\ (deck p <> [] -> Z.of_nat (length (hand p)) + actions_used s = 8)).
Proof.
  induction 1 as [deck1 deck2 s Hs|s cid r s' Hr IH Hp|s hc s' Hr IH He].
  - destruct (start_game_state deck1 deck2)
      as (s0 & E & Hpl & _ & _ & _ & _ & Hi & Hu & _).
    rewrite E in Hs. injection Hs as <-. unfold hands_within.
    rewrite Hpl, Hi, Hu. split.
    + constructor; [cbn [hand]; rewrite length_take; lia|].
      constructor; [cbn [hand length]; lia|]. constructor.
    + intros _ p [= <-]. cbn [hand deck]. rewrite length_take. split; [lia|].
      intros Hd.
      assert (length (drop 8 deck1) <> 0%nat)
        by (intros H; apply nil_length_inv in H; contradiction).
      rewrite length_drop in H. lia.
  - destruct IH as [Hh Ha].
    apply play_card_effect in Hp
      as [(_ & Hs & _)|(_ & Hpl & p & Hp & Hps & Hi & Hu & _ & Hw & _)].
    + unfold same_game in Hs. decompose [and] Hs.
      replace (players s') with (players s) by congruence.
      replace (active_player_index s') with (active_player_index s) by congruence.
      replace (actions_used s') with (actions_used s) by congruence.
      replace (winner s') with (winner s) by congruence. split; assumption.
    + destruct Hpl as (_ & (p0 & Hp0 & Hin) & _).
      rewrite Hp in Hp0. injection Hp0 as <-.
      pose proof (list_remove_length cid (hand p) Hin) as Hlen.
      pose proof (Forall_lookup_1 _ _ _ _ Hh Hp) as Hp8. cbv beta in Hp8.
      rewrite Hps, Hi, Hu, Hw. split.
      * apply Forall_insert; [exact Hh|]. cbn [hand set_hand_deck]. lia.
      * intros Hnone q Hq.
        rewrite list_lookup_insert_eq in Hq by (eapply lookup_lt_Some; exact Hp).
        injection Hq as <-. cbn [hand deck set_hand_deck].
        destruct (Ha Hnone p Hp) as [H1 H2]. split; [lia|].
        intros Hd. specialize (H2 Hd). lia.
  - destruct (truthy (winner s)) eqn:Ht.
    { apply end_turn_inv in He as [[_ ->]|(Hf & _)]; [exact IH|].
      rewrite Hf in Ht. discriminate. }
    destruct IH as [Hh _].
    destruct (end_turn_effect s s' hc He Ht)
      as (pre & p & q & Hpre & Hp & Hps & Hip & Hq & Hs).
    assert (Hhp : hands_within (players pre)).
    { rewrite Hps. apply Forall_insert; [exact Hh|].
      apply (Forall_lookup_1 _ _ _ _ Hh Hp). }
    pose proof (Forall_lookup_1 _ _ _ _ Hhp Hq) as Hq8. cbv beta in Hq8.
    destruct Hs as [(_ & _ & ->)|(_ & ->)].
    + split; [exact Hhp|]. unfold declare_winner. simpl. discriminate.
    + destruct (begin_turn_fields CARD_INDEX pre q)
        as (_ & Hu & _ & _ & _ & Hai & _).
      destruct (drawn_length (hand q) (deck q) Hq8) as [Hle Heq].
      rewrite begin_turn_players, Hai, Hu. split.
      * apply Forall_insert; [exact Hhp|]. cbn [hand set_hand_deck]. exact Hle.
      * intros _ q' Hq'.
        rewrite list_lookup_insert_eq in Hq' by (eapply lookup_lt_Some; exact Hq).
        injection Hq' as <-. cbn [hand deck set_hand_deck]. split; [lia|].
        intros Hd. specialize (Heq Hd). lia.
Qed.

(** X11.  In a game no hand ever holds more than eight cards.  While the
    game is on, the hand of the player to move and the actions used add
    up to eight as long as cards are left in that player's deck, and to no
    more than eight once the deck has run out: every card laid is an
    action, and the hand is refilled to eight only at the start of the
    turn. *)
Theorem hand_is_eight_less_actions (s : GameState) :
  reachable s ->
  (forall i p, players s !! i = Some p -> (length (hand p) <= 8)%nat)
  /\ (winner s = None ->
      forall p, players s !! active_player_index s = Some p ->
        Z.of_nat (length (hand p)) + actions_used s <= 8
        /\ (deck p <> [] -> Z.of_nat (length (hand p)) + actions_used s = 8)).
Proof.
  intros Hr. destruct (reachable_hands s Hr) as [Hh Ha]. split; [|exact Ha].
  intros i p Hp. apply (Forall_lookup_1 _ _ _ _ Hh Hp).
Qed.

(** *** Instance ids *)

Lemma NoDup_snoc {A} (l : list A) (x : A) :
  List.NoDup l -> ~ In x l -> List.NoDup (l ++ [x]).
Proof.
  intros Hl Hx. apply (Permutation_NoDup (Permutation_cons_append l x)).
  constructor; assumption.
Qed.

Lemma NoDup_append {A} (l k : list A) :
  List.NoDup l -> List.NoDup k -> (forall x, In x l -> ~ In x k) -> List.NoDup (l ++ k).
Proof.
  induction l as [|a l IH]; simpl; intros Hl Hk Hd; [exact Hk|].
  inversion Hl as [|? ? Ha Hl']; subst. constructor.
  - intros Hin. apply in_app_or in Hin as [Hin|Hin]; [contradiction|].
    apply (Hd a); [left; reflexivity|exact Hin].
  - apply IH; [exact Hl'|exact Hk|]. intros x Hx. apply Hd. right. exact Hx.
Qed.

(** The ids and the owners of the instances of a game. *)
Lemma reachable_ids (s : GameState) :
  reachable s ->
  1 <= next_instance_id s
  /\ (forall a, In a (animals s) ->
        1 <= instance_id a < next_instance_id s /\ (owner a < 2)%nat)
  /\ (forall p, In p (plants s) ->
        1 <= plant_instance_id p < next_instance_id s /\ (plant_owner p < 2)%nat)
  /\ List.NoDup (map plant_instance_id (plants s))
  /\ (forall a p, In a (animals s) -> In p (plants s) ->
        instance_id a <> plant_instance_id p).
Proof.
  induction 1 as [deck1 deck2 s Hs|s cid r s' Hr IH Hp|s hc s' Hr IH He].
  - destruct (start_game_state deck1 deck2)
      as (s0 & E & _ & _ & Ha & Hpl & _ & _ & _ & Hn & _).
    rewrite E in Hs. injection Hs as <-. rewrite Ha, Hpl, Hn. simpl.
    split; [lia|]. split; [intros a []|]. split; [intros p []|].
    split; [constructor|intros a p []].
  - destruct IH as (Hn & Ha & Hpl & Hnd & Hdis).
    pose proof (reachable_seated s Hr) as [[_ Hi] _].
    apply play_card_effect in Hp
      as [(_ & Hs & _)|(_ & _ & p & _ & _ & _ & _ & _ & _ & Hnx & Hk)].
    + unfold same_game in Hs. decompose [and] Hs.
      replace (animals s') with (animals s) by congruence.
      replace (plants s') with (plants s) by congruence.
      replace (next_instance_id s') with (next_instance_id s) by congruence.
      repeat split; try assumption; try apply Ha; try apply Hpl; assumption.
    + rewrite Hnx. split; [lia|].
      destruct Hk as [(_ & Has & _ & Hps)|(_ & Hps & Has & _)]; rewrite Has, Hps.
      * split; [intros a Hin; destruct (Ha a Hin); split; [lia|assumption]|].
        split; [|split].
        -- intros q Hin. apply in_app_or in Hin as [Hin|[<-|[]]].
           ++ destruct (Hpl q Hin). split; [lia|assumption].
           ++ cbn [new_plant plant_instance_id plant_owner]. split; [lia|exact Hi].
        -- rewrite map_app. apply NoDup_snoc; [exact Hnd|].
           cbn [map new_plant plant_instance_id]. intros Hin.
           apply in_map_iff in Hin as (q & Hq & Hin). destruct (Hpl q Hin). lia.
        -- intros a q Hina Hin. apply in_app_or in Hin as [Hin|[<-|[]]].
           ++ apply Hdis; assumption.
           ++ cbn [new_plant plant_instance_id]. destruct (Ha a Hina). lia.
      * split; [|split; [|split]].
        -- intros a Hin. apply in_app_or in Hin as [Hin|[<-|[]]].
           ++ destruct (Ha a Hin). split; [lia|assumption].
           ++ cbn [new_animal instance_id owner]. split; [lia|exact Hi].
        -- intros q Hin; destruct (Hpl q Hin); split; [lia|assumption].
        -- exact Hnd.
        -- intros a q Hin Hinq. apply in_app_or in Hin as [Hin|[<-|[]]].
           ++ apply Hdis; assumption.
           ++ cbn [new_animal instance_id]. destruct (Hpl q Hinq). lia.
  - destruct (truthy (winner s)) eqn:Ht.
    { apply end_turn_inv in He as [[_ ->]|(Hf & _)]; [exact IH|].
      rewrite Hf in Ht. discriminate. }
    destruct IH as (Hn & Ha & Hpl & Hnd & Hdis).
    destruct (end_turn_effect s s' hc He Ht)
      as (pre & p & q & Hpre & _ & _ & _ & _ & Hs).
    destruct (turn_resolution_fields CARD_INDEX s pre _ Hpre)
      as (_ & Ppl & _ & Pn & _ & _ & (keep & Pa) & _).
    assert (Hshape : animals s' = animals pre /\ plants s' = plants pre
                     /\ next_instance_id s' = next_instance_id pre).
    { destruct Hs as [(_ & _ & ->)|(_ & ->)]; [repeat split|].
      destruct (begin_turn_fields CARD_INDEX pre q)
        as (_ & _ & Hba & _ & Hbp & _ & Hbn & _).
      repeat split; assumption. }
    destruct Hshape as (-> & -> & ->). rewrite Pa, Ppl, Pn.
    split; [exact Hn|]. split; [|split; [exact Hpl|split; [exact Hnd|]]].
    + intros a Hin. apply filter_In in Hin as [Hin _]. apply Ha, Hin.
    + intros a q' Hin Hinq. apply filter_In in Hin as [Hin _]. apply Hdis; assumption.
Qed.

(** X12.  In a game every instance on the table, animal or plant, has an
    id of its own: the ids on the table are pairwise distinct, they are
    at least 1 and below [next_instance_id], the id the next instance will
    get, and every instance is owned by one of the two seats, so that
    looking up the owner of an instance never fails. *)
Theorem instance_ids_are_unique (s : GameState) :
  reachable s ->
  List.NoDup (ids_on_table s)
  /\ (forall id, In id (ids_on_table s) -> 1 <= id < next_instance_id s)
  /\ (forall a, In a (animals s) -> exists q, players s !! owner a = Some q)
  /\ (forall p, In p (plants s) -> exists q, players s !! plant_owner p = Some q).
Proof.
  intros Hr. destruct (reachable_ids s Hr) as (_ & Ha & Hp & Hnd & Hdis).
  destruct (reachable_distinct CARD_INDEX s Hr) as (_ & Hna & _).
  pose proof (reachable_seated s Hr) as [Hseat _].
  pose proof (seated_length s Hseat) as Hlen.
  assert (Hlook : forall i, (i < 2)%nat -> exists q, players s !! i = Some q).
  { intros i Hi. destruct (players s !! i) as [q|] eqn:E; [exists q; reflexivity|].
    apply lookup_ge_None in E. lia. }
  unfold ids_on_table. split; [|split; [|split]].
  - apply NoDup_append; [exact Hna|exact Hnd|].
    intros id Hin1 Hin2.
    apply in_map_iff in Hin1 as (a & Ea & Hin1).
    apply in_map_iff in Hin2 as (p & Ep & Hin2).
    apply (Hdis a p Hin1 Hin2). congruence.
  - intros id Hin. apply in_app_or in Hin as [Hin|Hin];
      apply in_map_iff in Hin as (x & <- & Hin); [apply Ha|apply Hp]; exact Hin.
  - intros a Hin. apply Hlook, Ha, Hin.
  - intros p Hin. apply Hlook, Hp, Hin.
Qed.

(** *** Control of the table *)

(** X13.  [check_control] counts heads by level: it can hold for a player
    only if that player owns at least [lmax] animals on the table; it
    fails for a player who owns none when there is a level to fill; it
    holds for everybody when [lmax] is 0 or less, the range of levels
    being empty; and it is not lost when animals are added to the table,
    whoever owns them. *)
Theorem control_needs_an_animal_per_level (s : GameState) (i : nat) :
  (check_control s i = true ->
   lmax (biome s)
   <= Z.of_nat (length (List.filter (fun a => Nat.eqb (owner a) i) (animals s))))
  /\ (lmax (biome s) <= 0 -> check_control s i = true)
  /\ (1 <= lmax (biome s) -> (forall a, In a (animals s) -> owner a <> i) ->
      check_control s i = false)
  /\ (forall s', lmax (biome s') = lmax (biome s) ->
        incl (animals s) (animals s') ->
        check_control s i = true -> check_control s' i = true).
Proof.
  split; [apply control_count|]. split; [|split].
  - intros Hl. apply check_control_iff. intros lv Hlv. lia.
  - intros Hl Hnone. apply not_true_is_false. intros Hc.
    destruct (proj1 (check_control_iff CARD_INDEX s i) Hc 1 ltac:(lia))
      as (a & Ha & _ & Ho).
    exact (Hnone a Ha Ho).
  - intros s' Hl Hincl Hc. apply check_control_iff. intros lv Hlv.
    destruct (proj1 (check_control_iff CARD_INDEX s i) Hc lv ltac:(lia))
      as (a & Ha & Hlev & Ho).
    exists a. split; [apply Hincl, Ha|]. split; assumption.
Qed.

(** *** The table as the window shows it *)

Lemma display_init_keys (l : list Z) :
  ((fun lv => (lv, @nil AnimalInstance)) <$> l).*1 = l.
Proof. induction l as [|x l IH]; simpl; [reflexivity|f_equal; exact IH]. Qed.

Lemma display_init_lookup (n lv : Z) :
  (list_to_map ((fun lv => (lv, [])) <$> seqZ 1 n) : gmap Z (list AnimalInstance)) !! lv
  = if (1 <=? lv) && (lv <=? n) then Some [] else None.
Proof.
  destruct ((1 <=? lv) && (lv <=? n)) eqn:E.
  - apply elem_of_list_to_map_1.
    + rewrite display_init_keys. apply NoDup_seqZ.
    + apply (list_elem_of_fmap_2 (fun lv => (lv, [])) (seqZ 1 n) lv).
      apply elem_of_seqZ. lia.
  - apply not_elem_of_list_to_map_1.
    rewrite display_init_keys, elem_of_seqZ. lia.
Qed.

Lemma display_fold_none (l : list AnimalInstance) :
  fold_left display_step l None = None.
Proof. induction l as [|a l IH]; simpl; [reflexivity|exact IH]. Qed.

Lemma display_fold (n : Z) (l : list AnimalInstance)
    (g0 : gmap Z (list AnimalInstance)) :
  (forall lv, is_Some (g0 !! lv) <-> 1 <= lv <= n) ->
  if forallb (fun a => (1 <=? level (card_of a)) && (level (card_of a) <=? n)) l
  then exists g, fold_left display_step l (Some g0) = Some g
         /\ forall lv, g !! lv
              = (fun group =>
                   (group ++ List.filter (fun a => level (card_of a) =? lv) l)%list)
                <$> g0 !! lv
  else fold_left display_step l (Some g0) = None.
Proof.
  revert g0. induction l as [|a l IH]; intros g0 Hdom.
  - simpl. exists g0. split; [reflexivity|]. intros lv.
    destruct (g0 !! lv) as [group|]; simpl; [rewrite app_nil_r|]; reflexivity.
  - cbn [forallb fold_left].
    destruct ((1 <=? level (card_of a)) && (level (card_of a) <=? n)) eqn:Ea.
    + destruct (proj2 (Hdom (level (card_of a))) ltac:(lia)) as [group Hg].
      assert (Hstep : display_step (Some g0) a
                      = Some (<[level (card_of a) := (group ++ [a])%list]> g0)).
      { unfold display_step. cbn [mbind option_bind]. rewrite Hg. reflexivity. }
      rewrite Hstep. cbn [andb].
      specialize (IH (<[level (card_of a) := (group ++ [a])%list]> g0)).
      assert (Hdom' : forall lv,
                is_Some (<[level (card_of a) := (group ++ [a])%list]> g0 !! lv)
                <-> 1 <= lv <= n).
      { intros lv. destruct (Z.eq_dec (level (card_of a)) lv) as [<-|Hne].
        - rewrite lookup_insert_eq. split; [intros _; lia|intros _; eexists; reflexivity].
        - rewrite lookup_insert_ne by exact Hne. apply Hdom. }
      specialize (IH Hdom').
      destruct (forallb _ l); [|exact IH].
      destruct IH as (g & Hfold & Hlook). exists g. split; [exact Hfold|].
      intros lv. rewrite Hlook. cbn [List.filter].
      destruct (Z.eq_dec (level (card_of a)) lv) as [<-|Hne].
      * rewrite lookup_insert_eq, Hg, Z.eqb_refl. simpl.
        rewrite <- app_assoc. reflexivity.
      * rewrite lookup_insert_ne by exact Hne.
        replace (level (card_of a) =? lv) with false by lia. reflexivity.
    + cbn [andb].
      assert (Hg : g0 !! level (card_of a) = None).
      { destruct (g0 !! level (card_of a)) as [group|] eqn:E; [|reflexivity].
        assert (is_Some (g0 !! level (card_of a))) as Hs by (rewrite E; eexists; reflexivity).
        apply Hdom in Hs. lia. }
      assert (Hstep : display_step (Some g0) a = None).
      { unfold display_step. cbn [mbind option_bind]. rewrite Hg. reflexivity. }
      rewrite Hstep. apply display_fold_none.
Qed.

(** X14.  [get_display_animals_by_level] fails (with a [KeyError]) exactly
    when some animal on the table has a card whose level is not one of
    1, ..., [lmax].  Otherwise the dictionary it returns has exactly the
    keys 1, ..., [lmax], and under each key the animals of that level, all
    of them, in the order of the table: every animal is in one group and
    in one only. *)
Theorem display_groups_by_level (s : GameState) :
  (get_display_animals_by_level s = None <->
   exists a, In a (animals s)
     /\ ~ (1 <= level (card_of a) <= lmax (biome s)))
  /\ (forall g, get_display_animals_by_level s = Some g ->
        (forall lv, g !! lv
           = if (1 <=? lv) && (lv <=? lmax (biome s))
             then Some (List.filter (fun a => level (card_of a) =? lv) (animals s))
             else None)
        /\ forall a, In a (animals s) ->
             exists group, g !! level (card_of a) = Some group /\ In a group).
Proof.
  unfold get_display_animals_by_level.
  set (g0 := list_to_map ((fun lv => (lv, [])) <$> seqZ 1 (lmax (biome s)))
             : gmap Z (list AnimalInstance)).
  assert (Hdom : forall lv, is_Some (g0 !! lv) <-> 1 <= lv <= lmax (biome s)).
  { intros lv. unfold g0. rewrite display_init_lookup.
    destruct ((1 <=? lv) && (lv <=? lmax (biome s))) eqn:E.
    - split; [intros _; lia|intros _; eexists; reflexivity].
    - split; [intros [x Hx]; discriminate|lia]. }
  pose proof (display_fold (lmax (biome s)) (animals s) g0 Hdom) as H.
  destruct (forallb _ (animals s)) eqn:Hall.
  - destruct H as (g & Hfold & Hlook). rewrite Hfold.
    rewrite forallb_forall in Hall.
    assert (Hg : forall lv, g !! lv
              = if (1 <=? lv) && (lv <=? lmax (biome s))
                then Some (List.filter (fun a => level (card_of a) =? lv) (animals s))
                else None).
    { intros lv. rewrite Hlook. unfold g0. rewrite display_init_lookup.
      destruct ((1 <=? lv) && (lv <=? lmax (biome s))); reflexivity. }
    split.
    + split; [discriminate|]. intros (a & Ha & Hout). specialize (Hall a Ha). lia.
    + intros g' [= <-]. split; [exact Hg|].
      intros a Ha. rewrite Hg. rewrite (Hall a Ha). eexists. split; [reflexivity|].
      apply filter_In. split; [exact Ha|apply Z.eqb_refl].
  - rewrite H. split; [|discriminate].
    split; [|reflexivity]. intros _.
    assert (Hne : existsb (fun a => negb ((1 <=? level (card_of a))
                                         && (level (card_of a) <=? lmax (biome s))))
                          (animals s) = true).
    { clear -Hall. induction (animals s) as [|a l IH]; simpl in *; [discriminate|].
      destruct ((1 <=? level (card_of a)) && (level (card_of a) <=? lmax (biome s)));
        simpl in *; [apply IH, Hall|reflexivity]. }
    apply existsb_exists in Hne as (a & Ha & Hout).
    exists a. split; [exact Ha|]. lia.
Qed.

(** *** The hunting dialog *)

Lemma reachable_owners (s : GameState) (a : AnimalInstance) :
  reachable s -> In a (animals s) -> is_Some (players s !! owner a).
Proof.
  intros Hr Ha. destruct (reachable_ids s Hr) as (_ & Hown & _).
  pose proof (reachable_seated s Hr) as [Hseat _].
  pose proof (seated_length s Hseat) as Hlen.
  apply lookup_lt_is_Some. destruct (Hown a Ha). lia.
Qed.

(** X15.  The menu that the hunting dialog of [main.py] offers for a
    predator is "(Omitir)" followed by one line for each animal that
    [is_viable_prey] of the engine accepts for that predator's level, in
    the order of the table: the threshold [(level + 1) // 2] of the dialog
    and the threshold [ceil(level / 2)] of the engine are the same number.
    In a game the menu is always built, no owner being out of range.  An
    omnivore on the table is on the menu of its own level: nothing in the
    dialog or in the engine keeps a predator from being sent after
    itself. *)
Theorem prey_menu_lists_viable_prey (s : GameState) (predator_level : Z) :
  get_prey_options s predator_level
  = (fun lines => "(Omitir)" :: lines)
    <$> mapM (prey_option s) (List.filter (is_viable_prey predator_level) (animals s))
  /\ List.filter (is_viable_prey predator_level) (animals s)
     = find_viable_prey s predator_level
  /\ (reachable s ->
      exists lines,
        get_prey_options s predator_level = Some ("(Omitir)" :: lines)
        /\ Forall2 (fun a line => prey_option s a = Some line)
                   (find_viable_prey s predator_level) lines)
  /\ (forall a, In a (animals s) -> type (card_of a) = "Omnivore" ->
        0 <= level (card_of a) ->
        is_viable_prey (level (card_of a)) a = true).
Proof.
  assert (Heq : get_prey_options s predator_level
                = (fun lines => "(Omitir)" :: lines)
                  <$> mapM (prey_option s)
                        (List.filter (is_viable_prey predator_level) (animals s))).
  { unfold get_prey_options. rewrite <- ceil_half_alt. reflexivity. }
  split; [exact Heq|]. split; [reflexivity|]. split.
  - intros Hr. rewrite Heq.
    assert (Hsome : is_Some (mapM (prey_option s)
                               (List.filter (is_viable_prey predator_level) (animals s)))).
    { apply mapM_is_Some, Forall_forall. intros a Ha.
      apply list_elem_of_In, filter_In in Ha as [Ha _].
      destruct (reachable_owners s a Hr Ha) as [q Hq].
      unfold prey_option. cbn [compose]. rewrite Hq. eexists. reflexivity. }
    destruct Hsome as [lines Hlines]. exists lines. rewrite Hlines.
    split; [reflexivity|]. apply mapM_Some_1 in Hlines. exact Hlines.
  - intros a _ Ht Hl. unfold is_viable_prey. rewrite Ht.
    change (herb_or_omni "Omnivore") with true. cbn [andb].
    apply Z.geb_le. apply ceil_half_le. lia.
Qed.

(** *** The choices that hunting reads *)

Lemma fold_left_ext_in {A B} (f g : A -> B -> A) (l : list B) (a : A) :
  (forall x b, In b l -> f x b = g x b) -> fold_left f l a = fold_left g l a.
Proof.
  revert a. induction l as [|b l IH]; intros a H; simpl; [reflexivity|].
  rewrite (H a b) by (left; reflexivity). apply IH.
  intros x b' Hb'. apply H. right. exact Hb'.
Qed.

(** The target that [resolve_hunting] reads for a predator: [None] when
    the dictionary has no entry, and when the entry is 0. *)
Lemma hunt_step_target (hc hc' : gmap Z Z) (acc : gset Z * GameState)
    (predator : AnimalInstance) :
  (hc !! instance_id predator = hc' !! instance_id predator
   \/ (default 0 (hc !! instance_id predator) = 0
       /\ default 0 (hc' !! instance_id predator) = 0)) ->
  hunt_step hc acc predator = hunt_step hc' acc predator.
Proof.
  destruct acc as [fed s]. unfold hunt_step.
  intros [->|[H1 H2]]; [reflexivity|].
  destruct (hc !! instance_id predator) as [x|], (hc' !! instance_id predator) as [y|];
    simpl in H1, H2; subst; reflexivity.
Qed.

(** X16.  [resolve_hunting] reads the hunting choices only at the ids of
    the hungry carnivores and omnivores it has listed, and reads an entry
    0 as no entry: two dictionaries that agree there, up to entries 0,
    give the same fed predators and the same state, log included.  With
    no hungry predator on the table the choices are not read at all, and
    [end_turn] gives the same state for any two dictionaries. *)
Theorem hunt_reads_only_hunters_choices (s : GameState) (hc hc' : gmap Z Z) :
  (forall p, In p (hungry_predators CARD_INDEX s) ->
     default 0 (hc !! instance_id p) = default 0 (hc' !! instance_id p)) ->
  resolve_hunting s hc = resolve_hunting s hc'
  /\ end_turn s (Some hc) = end_turn s (Some hc')
  /\ (hungry_predators CARD_INDEX s = [] ->
      resolve_hunting s hc = (∅, add_log s "No hay depredadores con hambre para cazar.")
      /\ end_turn s (Some hc) = end_turn s None).
Proof.
  intros Hagree.
  assert (Hstep : forall acc p, In p (hungry_predators CARD_INDEX s) ->
                    hunt_step hc acc p = hunt_step hc' acc p).
  { intros acc p Hp. apply hunt_step_target. specialize (Hagree p Hp).
    destruct (hc !! instance_id p) as [x|] eqn:E1,
             (hc' !! instance_id p) as [y|] eqn:E2; simpl in Hagree; subst.
    - left. reflexivity.
    - right. split; reflexivity.
    - right. split; reflexivity.
    - left. reflexivity. }
  assert (Hh : resolve_hunting s hc = resolve_hunting s hc').
  { unfold resolve_hunting.
    destruct (hungry_predators CARD_INDEX s) as [|p l] eqn:E; [reflexivity|].
    apply fold_left_ext_in. exact Hstep. }
  split; [exact Hh|]. split.
  - unfold end_turn, turn_resolution.
    change (default ∅ (Some hc)) with hc. change (default ∅ (Some hc')) with hc'.
    rewrite Hh. reflexivity.
  - intros Hnone. split.
    + unfold resolve_hunting. rewrite Hnone. reflexivity.
    + unfold end_turn, turn_resolution, resolve_hunting.
      rewrite Hnone. reflexivity.
Qed.

(** *** The log *)

Lemma log_grows_refl (s : GameState) : log_grows s s.
Proof. exists []. symmetry. apply app_nil_r. Qed.

Lemma log_grows_trans (s1 s2 s3 : GameState) :
  log_grows s1 s2 -> log_grows s2 s3 -> log_grows s1 s3.
Proof.
  intros [l1 H1] [l2 H2]. exists (l1 ++ l2)%list. rewrite H2, H1, app_assoc. reflexivity.
Qed.

Lemma log_grows_eq (s t t' : GameState) :
  log t' = log t -> log_grows s t -> log_grows s t'.
Proof. intros E [l H]. exists l. rewrite E. exact H. Qed.

Lemma log_grows_add (s t : GameState) (m : string) :
  log_grows s t -> log_grows s (add_log t m).
Proof.
  intros H. apply (log_grows_trans s t); [exact H|]. exists [m]. reflexivity.
Qed.

Lemma log_grows_same_game (s t t' : GameState) :
  log_grows t t' -> log s = log t -> log_grows s t'.
Proof. intros [l H] E. exists l. rewrite E. exact H. Qed.

Lemma draw_to_hand_log (s : GameState) (i : nat) (p : PlayerState) (n : Z) :
  log_grows s (draw_to_hand s i p n).
Proof.
  unfold draw_to_hand. destruct (draw_cards n (hand p) (deck p)) as [h d].
  apply log_grows_add. exists []. symmetry. apply app_nil_r.
Qed.

Lemma begin_turn_log (s : GameState) (p : PlayerState) : log_grows s (begin_turn s p).
Proof.
  unfold begin_turn. cbv zeta.
  eapply log_grows_trans; [|apply draw_to_hand_log].
  apply log_grows_add. exists []. symmetry. apply app_nil_r.
Qed.

Lemma start_turn_log (s s' : GameState) : start_turn s = Some s' -> log_grows s s'.
Proof.
  unfold start_turn. destruct (players s !! active_player_index s) as [p|];
    [simpl|discriminate].
  destruct (pending_control p && check_control s (active_player_index s));
    intros [= <-]; [|apply begin_turn_log].
  unfold declare_winner. apply log_grows_add. exists []. symmetry. apply app_nil_r.
Qed.

Lemma can_play_animal_log (s : GameState) (card : Card) :
  fst (can_play_animal s card) = false ->
  exists line, log (snd (can_play_animal s card)) = (log s ++ [line])%list.
Proof.
  unfold can_play_animal.
  repeat match goal with
         | |- context [if ?b then _ else _] => destruct b
         end; simpl; intros H; try discriminate; eexists; reflexivity.
Qed.

Lemma play_card_log (s s' : GameState) (cid : string) (r : bool) :
  play_card s cid = Some (r, s') -> exists line, log s' = (log s ++ [line])%list.
Proof.
  unfold play_card.
  destruct (truthy (winner s)); [intros [= <- <-]; eexists; reflexivity|].
  destruct (players s !! active_player_index s) as [p|]; [simpl|discriminate].
  destruct (negb (str_in cid (hand p))); [intros [= <- <-]; eexists; reflexivity|].
  destruct (actions_used s >=? 3); [intros [= <- <-]; eexists; reflexivity|].
  destruct (String.eqb (kind (CARD_INDEX cid)) "plant");
    [intros [= <- <-]; eexists; reflexivity|].
  destruct (String.eqb (kind (CARD_INDEX cid)) "animal");
    [|intros [= <- <-]; eexists; reflexivity].
  pose proof (can_play_animal_log s (CARD_INDEX cid)) as Hf.
  pose proof (can_play_animal_true s (CARD_INDEX cid)) as Ht.
  destruct (can_play_animal s (CARD_INDEX cid)) as [ok s1]. cbn [fst snd] in *.
  destruct ok; cbn [negb]; intros [= <- <-].
  - rewrite (Ht eq_refl). eexists. reflexivity.
  - apply Hf. reflexivity.
Qed.

Lemma single_hunt_log (s : GameState) (predator prey : AnimalInstance) :
  log_grows s (snd (resolve_single_hunt s predator prey)).
Proof.
  unfold resolve_single_hunt, combat.
  repeat match goal with
         | |- context [if ?b then _ else _] => destruct b
         end; cbn [snd]; rewrite <- ?app_assoc;
    (eexists; 
     cbn [log add_log set_animals set_biome set_hungers]; rewrite <- ?app_assoc;
     reflexivity).
Qed.

Lemma hunt_step_log (hc : gmap Z Z) (acc : gset Z * GameState)
    (predator : AnimalInstance) :
  log_grows (snd acc) (snd (hunt_step hc acc predator)).
Proof.
  destruct acc as [fed s]. unfold hunt_step. cbn [snd].
  destruct (hc !! instance_id predator) as [prey_id|];
    [|apply log_grows_add, log_grows_refl].
  destruct (prey_id =? 0); [apply log_grows_add, log_grows_refl|].
  destruct (List.find _ (animals s)) as [prey|];
    [|apply log_grows_add, log_grows_refl].
  destruct (negb _); [apply log_grows_add, log_grows_refl|].
  pose proof (single_hunt_log s predator prey) as H.
  destruct (resolve_single_hunt s predator prey) as [[|] s1]; exact H.
Qed.

Lemma resolve_hunting_log (s : GameState) (hc : gmap Z Z) :
  log_grows s (snd (resolve_hunting s hc)).
Proof.
  unfold resolve_hunting.
  destruct (hungry_predators CARD_INDEX s) as [|p l];
    [apply log_grows_add, log_grows_refl|].
  apply (log_grows_trans s (add_log s "Fase de caza iniciada."));
    [apply log_grows_add, log_grows_refl|].
  set (start := (∅, add_log s "Fase de caza iniciada.") : gset Z * GameState).
  change (log_grows (snd start) (snd (fold_left (hunt_step hc) (p :: l) start))).
  apply (fold_left_rel (fun a b => log_grows (snd a) (snd b))).
  - intros a. apply log_grows_refl.
  - intros a b c. apply log_grows_trans.
  - intros a b. apply hunt_step_log.
Qed.

Lemma feed_level_log (s : GameState) (lv : Z) : log_grows s (feed_level s lv).
Proof.
  unfold feed_level.
  destruct (level_animals CARD_INDEX s lv) as [|a group] eqn:E; [apply log_grows_refl|].
  rewrite <- E. clear E.
  destruct (cn (biome s) >=? _);
    [apply log_grows_add; eapply log_grows_eq; [|apply log_grows_refl]; reflexivity|].
  assert (Hstarve : forall t, log_grows s t ->
                      log_grows s (starve_level t (level_animals CARD_INDEX s lv))).
  { intros t Ht. unfold starve_level. apply log_grows_add.
    eapply log_grows_eq; [|exact Ht]; reflexivity. }
  destruct (sorted_desc _ _) as [|w [|l rest]];
    try (apply Hstarve, log_grows_add, log_grows_refl).
  destruct (cn _ >=? lv); [|apply Hstarve, log_grows_add, log_grows_refl].
  unfold duel. eexists. cbn [log add_log set_animals set_biome set_hungers].
  rewrite <- ?app_assoc. reflexivity.
Qed.

Lemma resolve_feeding_log (s : GameState) (fed : gset Z) :
  log_grows s (resolve_feeding s fed).
Proof.
  unfold resolve_feeding, starve_carnivores.
  assert (Hl : log_grows s (feed_levels (add_log s "Fase de alimentación de CN."))).
  { apply (log_grows_trans s (add_log s "Fase de alimentación de CN."));
      [apply log_grows_add, log_grows_refl|].
    unfold feed_levels.
    apply (fold_left_rel log_grows).
    - apply log_grows_refl.
    - apply log_grows_trans.
    - intros a b. apply feed_level_log. }
  destruct (unfed_carnivores CARD_INDEX _ fed) as [|a l]; [exact Hl|].
  apply log_grows_add. eapply log_grows_eq; [|exact Hl]; reflexivity.
Qed.

Lemma resolve_starvation_log (s : GameState) : log_grows s (resolve_starvation s).
Proof.
  unfold resolve_starvation.
  destruct (List.filter _ (animals s)) as [|d dead];
    [apply log_grows_add, log_grows_refl|].
  match goal with
  | |- log_grows _ (set_animals _ ?t) => apply (log_grows_eq s t); [reflexivity|]
  end.
  apply (fold_left_rel log_grows).
  - apply log_grows_refl.
  - apply log_grows_trans.
  - intros a b. unfold bury. apply log_grows_add.
    eapply log_grows_eq; [|apply log_grows_refl]; reflexivity.
Qed.

Lemma turn_resolution_log (s pre : GameState) (hc : gmap Z Z) :
  turn_resolution s hc = Some pre -> log_grows s pre.
Proof.
  unfold turn_resolution.
  pose proof (resolve_hunting_log s hc) as H1.
  destruct (resolve_hunting s hc) as [fed s1]. cbn [snd] in H1.
  pose proof (resolve_feeding_log s1 fed) as H2.
  remember (resolve_feeding s1 fed) as s2 eqn:E2. clear E2.
  pose proof (resolve_starvation_log s2) as H3.
  remember (resolve_starvation s2) as s3 eqn:E3. clear E3.
  assert (H4 : log_grows s3 (resolve_conversion s3)).
  { unfold resolve_conversion. eexists. cbn [log add_log set_biome]. reflexivity. }
  remember (resolve_conversion s3) as s4 eqn:E4. clear E4.
  destruct (players s4 !! active_player_index s4) as [p|]; [|discriminate].
  simpl. intros [= <-].
  assert (H5 : log_grows s4 (mark_control s4 (active_player_index s4) p)).
  { unfold mark_control. destruct (check_control s4 (active_player_index s4)).
    - apply log_grows_add. eapply log_grows_eq; [|apply log_grows_refl]; reflexivity.
    - eapply log_grows_eq; [|apply log_grows_refl]; reflexivity. }
  match goal with
  | |- log_grows _ (set_active_player_index _ ?t) =>
      apply (log_grows_eq s t); [reflexivity|]
  end.
  apply (log_grows_trans s s1 _ H1). apply (log_grows_trans s1 s2 _ H2).
  apply (log_grows_trans s2 s3 _ H3). apply (log_grows_trans s3 s4 _ H4). exact H5.
Qed.

Lemma end_turn_log (s s' : GameState) (hc : option (gmap Z Z)) :
  end_turn s hc = Some s' -> log_grows s s'.
Proof.
  unfold end_turn. destruct (truthy (winner s)); [intros [= <-]; apply log_grows_refl|].
  destruct (turn_resolution s (default ∅ hc)) as [pre|] eqn:E; [simpl|discriminate].
  intros H. apply (log_grows_trans s pre).
  - eapply turn_resolution_log. exact E.
  - apply start_turn_log, H.
Qed.

(** X17.  The log is append-only.  [play_card] adds exactly one line to
    it, whether it accepts the card or refuses it; [end_turn] adds lines
    at the end and changes none, and adds none when the game is over; so
    in a game the first line of the log is always the one [start_game]
    wrote. *)
Theorem log_is_append_only :
  (forall s cid r s',
     play_card s cid = Some (r, s') -> exists line, log s' = (log s ++ [line])%list)
  /\ (forall s hc s',
        end_turn s hc = Some s' ->
        (exists lines, log s' = (log s ++ lines)%list)
        /\ (truthy (winner s) = true -> log s' = log s))
  /\ (forall s, reachable s ->
        exists lines, log s = "Juego iniciado en el bioma Bosque." :: lines).
Proof.
  split; [intros s cid r s' Hp; apply (play_card_log s s' cid r Hp)|]. split.
  - intros s hc s' He. split; [apply (end_turn_log s s' hc He)|].
    intros Ht. unfold end_turn in He. rewrite Ht in He. injection He as <-. reflexivity.
  - intros s. induction 1 as [deck1 deck2 s Hs|s cid r s' Hr IH Hp|s hc s' Hr IH He].
    + unfold start_game in Hs. apply start_turn_log in Hs as [lines Hl].
      exists lines. rewrite Hl. reflexivity.
    + destruct IH as [lines Hl]. apply play_card_log in Hp as [line Hp].
      exists (lines ++ [line])%list. rewrite Hp, Hl. reflexivity.
    + destruct IH as [lines Hl]. apply end_turn_log in He as [more He].
      exists (lines ++ more)%list. rewrite He, Hl. reflexivity.
Qed.

End Bookkeeping.

(** ** More of the engine at work on the sample catalogue *)

Lemma turn8_reachable : reachable sample_catalogue turn8_state.
Proof.
  apply (game_reachable sample_catalogue sample_deck1 sample_deck2 sample_calls).
  vm_compute. reflexivity.
Qed.

Lemma turn9_reachable : reachable sample_catalogue turn9_state.
Proof.
  apply (reach_end sample_catalogue turn8_state (Some {[17 := 14]}));
    [exact turn8_reachable|vm_compute; reflexivity].
Qed.

Lemma won_game_reachable : reachable sample_catalogue won_game.
Proof.
  apply (reach_end sample_catalogue turn8_state (Some {[17 := 16]}));
    [exact turn8_reachable|vm_compute; reflexivity].
Qed.

Lemma hunt_state_reachable : reachable sample_catalogue hunt_state.
Proof.
  apply (game_reachable sample_catalogue ["ciervo"; "oso"; "jabali"] ["conejo"]
           hunt_calls).
  vm_compute. reflexivity.
Qed.

Lemma hunt_state_distinct : List.NoDup (map instance_id (animals hunt_state)).
Proof. apply (reachable_distinct sample_catalogue hunt_state hunt_state_reachable). Qed.

Lemma turn8_distinct : List.NoDup (map instance_id (animals turn8_state)).
Proof. apply (reachable_distinct sample_catalogue turn8_state turn8_reachable). Qed.

(** *** The further theorems at concrete inputs *)

Lemma draw_to_hand_at_drawing_state :
  players drawing_state !! 0%nat = Some drawing_player
  /\ players (draw_to_hand drawing_state 0 drawing_player 2) !! 0%nat
     = Some (mkPlayer "Jugador 1" ["lobo"] ["roble"; "raton"] false)
  /\ players (draw_to_hand drawing_state 0 drawing_player 1) !! 0%nat
     = Some drawing_player.
Proof.
  split; [reflexivity|]. split.
  - exact (proj1 (draw_to_hand_moves_cards drawing_state 0 drawing_player 2 eq_refl)).
  - exact (proj1 (draw_to_hand_moves_cards drawing_state 0 drawing_player 1 eq_refl)).
Defined.

Lemma bear_and_boar_leave_carrion :
  let s' := snd (resolve_hunting sample_catalogue hunt_state hunt_choices) in
  List.NoDup (map instance_id (animals hunt_state))
  /\ cc (biome hunt_state) = 0 /\ total_level sample_catalogue (animals hunt_state) = 14
  /\ cc (biome s') + total_level sample_catalogue (animals s')
     = cc (biome hunt_state) + total_level sample_catalogue (animals hunt_state)
  /\ List.NoDup (map instance_id (animals s')).
Proof.
  intros s'. split; [exact hunt_state_distinct|].
  split; [reflexivity|]. split; [reflexivity|].
  pose proof (hunting_conserves_biomass sample_catalogue hunt_state hunt_choices
                hunt_state_distinct) as H.
  cbv zeta in H. fold s' in H. destruct H as (H1 & H2 & _).
  split; [exact H1|exact H2].
Defined.

Lemma hunt_carrion_feeds_next_turn :
  List.NoDup (map instance_id (animals hunt_state))
  /\ end_turn sample_catalogue hunt_state (Some hunt_choices) = Some hunt_over
  /\ winner hunt_over = None
  /\ total_level sample_catalogue (animals hunt_state) = 14
  /\ total_level sample_catalogue (animals hunt_over) = 8
  /\ cn (biome hunt_over)
     = cn_base (biome hunt_state)
       + floor_pct 40 (cc (biome hunt_state)
                       + total_level sample_catalogue (animals hunt_state)
                       - total_level sample_catalogue (animals hunt_over))
       + plant_food sample_catalogue hunt_over
  /\ cc (biome hunt_over) = 0 /\ cn_temp (biome hunt_over) = 0.
Proof.
  assert (He : end_turn sample_catalogue hunt_state (Some hunt_choices) = Some hunt_over)
    by (vm_compute; reflexivity).
  split; [exact hunt_state_distinct|]. split; [exact He|].
  split; [reflexivity|]. split; [reflexivity|]. split; [reflexivity|].
  destruct (carrion_feeds_next_turn sample_catalogue hunt_state hunt_over
              (Some hunt_choices) hunt_state_distinct He eq_refl)
    as (H1 & H2 & H3 & _).
  split; [exact H1|]. split; [exact H2|exact H3].
Defined.

Lemma entry_points_at_turn8 :
  reachable sample_catalogue turn8_state
  /\ (forall cid, exists r s', play_card sample_catalogue turn8_state cid = Some (r, s'))
  /\ (forall hc, exists s', end_turn sample_catalogue turn8_state hc = Some s').
Proof.
  split; [exact turn8_reachable|].
  destruct (entry_points_never_fail sample_catalogue turn8_state turn8_reachable)
    as (_ & _ & _ & _ & _ & H1 & H2).
  split; [exact H1|exact H2].
Defined.

Lemma winner_of_won_game :
  reachable sample_catalogue won_game /\ winner won_game = Some "Jugador 1"
  /\ exists q, players won_game !! active_player_index won_game = Some q
       /\ "Jugador 1" = name q
       /\ pending_control q = true
       /\ check_control sample_catalogue won_game (active_player_index won_game) = true
       /\ 6 <= Z.of_nat (length (List.filter
                                   (fun a => Nat.eqb (owner a)
                                               (active_player_index won_game))
                                   (animals won_game))).
Proof.
  split; [exact won_game_reachable|]. split; [reflexivity|].
  destruct (winner_holds_every_level sample_catalogue won_game "Jugador 1"
              won_game_reachable eq_refl)
    as (q & H1 & H2 & _ & H3 & H4 & H5).
  exists q. repeat split; assumption.
Defined.

Lemma turn8_passes_to_player_1 :
  reachable sample_catalogue turn8_state
  /\ truthy (winner turn8_state) = false
  /\ end_turn sample_catalogue turn8_state (Some {[17 := 14]}) = Some turn9_state
  /\ active_player_index turn8_state = 1%nat
  /\ active_player_index turn9_state = (1 - active_player_index turn8_state)%nat
  /\ pending_at turn9_state (active_player_index turn8_state)
     = Some (check_control sample_catalogue turn9_state (active_player_index turn8_state))
  /\ pending_at turn9_state (active_player_index turn9_state)
     = pending_at turn8_state (active_player_index turn9_state)
  /\ (winner turn9_state <> None <->
      pending_at turn8_state (active_player_index turn9_state) = Some true
      /\ check_control sample_catalogue turn9_state (active_player_index turn9_state)
         = true).
Proof.
  assert (He : end_turn sample_catalogue turn8_state (Some {[17 := 14]})
               = Some turn9_state) by (vm_compute; reflexivity).
  split; [exact turn8_reachable|]. split; [reflexivity|]. split; [exact He|].
  split; [reflexivity|].
  pose proof (end_turn_passes_the_turn sample_catalogue turn8_state turn9_state
                (Some {[17 := 14]}) turn8_reachable eq_refl He) as H.
  cbv zeta in H. destruct H as (H1 & H2 & H3 & _ & H4).
  split; [exact H1|]. split; [exact H2|]. split; [exact H3|exact H4].
Defined.

Lemma hunger_in_hunt_state :
  reachable sample_catalogue hunt_state
  /\ (forall a, In a (animals hunt_state) ->
        hunger hunt_state a = 0 \/ hunger hunt_state a = 1)
  /\ (forall a, In a (hungry_predators sample_catalogue hunt_state) ->
        hunger hunt_state a = 1).
Proof.
  split; [exact hunt_state_reachable|].
  destruct (hunger_is_zero_or_one sample_catalogue hunt_state hunt_state_reachable)
    as (_ & H1 & H2 & _).
  split; [exact H1|exact H2].
Defined.

Lemma hands_at_turn9 :
  reachable sample_catalogue turn9_state
  /\ (forall i p, players turn9_state !! i = Some p -> (length (hand p) <= 8)%nat)
  /\ (winner turn9_state = None ->
      forall p, players turn9_state !! active_player_index turn9_state = Some p ->
        Z.of_nat (length (hand p)) + actions_used turn9_state <= 8
        /\ (deck p <> [] ->
            Z.of_nat (length (hand p)) + actions_used turn9_state = 8)).
Proof.
  split; [exact turn9_reachable|].
  exact (hand_is_eight_less_actions sample_catalogue turn9_state turn9_reachable).
Defined.

Lemma ids_at_turn8 :
  reachable sample_catalogue turn8_state
  /\ next_instance_id turn8_state = 22
  /\ List.NoDup (ids_on_table turn8_state)
  /\ (forall id, In id (ids_on_table turn8_state) ->
        1 <= id < next_instance_id turn8_state).
Proof.
  split; [exact turn8_reachable|]. split; [reflexivity|].
  destruct (instance_ids_are_unique sample_catalogue turn8_state turn8_reachable)
    as (H1 & H2 & _).
  split; [exact H1|exact H2].
Defined.

Lemma rabbit_entry_is_not_read :
  (forall p, In p (hungry_predators sample_catalogue hunt_state) ->
     default 0 (hunt_choices !! instance_id p)
     = default 0 (padded_choices !! instance_id p))
  /\ padded_choices !! 4 = Some 1 /\ hunt_choices !! 4 = None
  /\ resolve_hunting sample_catalogue hunt_state hunt_choices
     = resolve_hunting sample_catalogue hunt_state padded_choices
  /\ end_turn sample_catalogue hunt_state (Some hunt_choices)
     = end_turn sample_catalogue hunt_state (Some padded_choices).
Proof.
  assert (Hagree : forall p, In p (hungry_predators sample_catalogue hunt_state) ->
                     default 0 (hunt_choices !! instance_id p)
                     = default 0 (padded_choices !! instance_id p)).
  { intros p Hp.
    assert (Hl : hungry_predators sample_catalogue hunt_state
                 = [mkAnimal 2 2 "oso" 0; mkAnimal 3 3 "jabali" 0])
      by (vm_compute; reflexivity).
    rewrite Hl in Hp. destruct Hp as [<-|[<-|[]]]; vm_compute; reflexivity. }
  split; [exact Hagree|]. split; [vm_compute; reflexivity|].
  split; [vm_compute; reflexivity|].
  destruct (hunt_reads_only_hunters_choices sample_catalogue hunt_state hunt_choices
              padded_choices Hagree) as (H1 & H2 & _).
  split; [exact H1|exact H2].
Defined.
